(** * Redis dict.c: the incrementally rehashing hash table

    A shallow embedding of [dict.c] (redis 2.9.5) and the properties its
    specification states about it.

    Conventions of the embedding.

    - C data are modelled on the LP64 data model: [unsigned long] is a
      64-bit natural, [unsigned int] a 32-bit natural, [int] a 32-bit
      signed integer, all carried by [Z].  Unsigned arithmetic wraps
      ([to_ulong], [to_uint]); signed increments and decrements that would
      overflow are undefined behaviour.
    - A collision chain (the [next]-linked [dictEntry] list hanging off a
      slot) is a Rocq list, head first.  A bucket array is
      [option (list chain)], [None] being the [NULL] pointer.
    - Every operation runs in the [option] monad: [None] stands for
      undefined behaviour of the C program (out-of-bounds or null access,
      failed [assert], signed overflow, division by zero).  Allocation is
      assumed to succeed ([zmalloc]/[zcalloc] abort the process otherwise).
    - State is passed explicitly: an operation takes the [dict] and returns
      the updated [dict] together with its C result. *)

From Stdlib Require Strings.Byte.
From stdpp Require Import numbers base option list.

Local Open Scope Z_scope.

(** ** Machine integers *)

Definition to_ulong (x : Z) : Z := x mod 2 ^ 64.
Definition to_uint (x : Z) : Z := x mod 2 ^ 32.
Definition to_int (x : Z) : Z := (x + 2 ^ 31) mod 2 ^ 32 - 2 ^ 31.

Definition INT_MAX : Z := 2 ^ 31 - 1.
Definition INT_MIN : Z := - 2 ^ 31.
Definition LONG_MAX : Z := 2 ^ 63 - 1.

(** [x++] and [x--] on an [int]: overflow is undefined. *)
Definition int_incr (x : Z) : option Z :=
  if bool_decide (x < INT_MAX) then Some (x + 1) else None.
Definition int_decr (x : Z) : option Z :=
  if bool_decide (INT_MIN < x) then Some (x - 1) else None.

(** [x += y] on an [int]. *)
Definition int_add (x y : Z) : option Z :=
  if bool_decide (INT_MIN ≤ x + y ≤ INT_MAX) then Some (x + y) else None.

(** ** Constants of dict.h *)

(** Modelled from the spec: [dict.h] is not part of the sources at hand.
    The status codes are the two results every fallible operation returns,
    and the minimum bucket-array size is 4 (spec section 4.6 and scenario 1). *)
Definition DICT_OK : Z := 0.
Definition DICT_ERR : Z := 1.
Definition DICT_HT_INITIAL_SIZE : Z := 4.

(** [dict_force_resize_ratio], a static of dict.c. *)
Definition dict_force_resize_ratio : Z := 5.

(** [dictEnableResize] and [dictDisableResize] assign the static
    [dict_can_resize], which the table reads as its gate: the value each of
    them leaves in it. *)
Definition dictEnableResize : bool := true.
Definition dictDisableResize : bool := false.

(** ** Hash functions of dict.c *)

(** Thomas Wang's 32 bit mix function, on [unsigned int]. *)
Definition dictIntHashFunction (key : Z) : Z :=
  let key := to_uint (key + to_uint (Z.lnot (to_uint (Z.shiftl key 15)))) in
  let key := Z.lxor key (Z.shiftr key 10) in
  let key := to_uint (key + to_uint (Z.shiftl key 3)) in
  let key := Z.lxor key (Z.shiftr key 6) in
  let key := to_uint (key + to_uint (Z.lnot (to_uint (Z.shiftl key 11)))) in
  let key := Z.lxor key (Z.shiftr key 16) in
  key.

Definition dictIdentityHashFunction (key : Z) : Z := key.

(** [dict_hash_function_seed] is a [static int]; the functions that use it
    take its value as an argument.  [dictSetHashFunctionSeed] stores an
    [unsigned int] into it and returns the new value of the static;
    [dictGetHashFunctionSeed] reads it as an [unsigned int]. *)
Definition dict_hash_function_seed : Z := 5381.

Definition dictSetHashFunctionSeed (seed : Z) : Z := to_int seed.

Definition dictGetHashFunctionSeed (dict_hash_function_seed : Z) : Z :=
  to_uint dict_hash_function_seed.

(** The value of an [unsigned char]. *)
Definition uchar (b : Byte.byte) : Z := Z.of_N (Byte.to_N b).

(** [tolower] of the C library, in the C locale: the upper-case letters
    ['A'] to ['Z'] are moved to ['a'] to ['z']. *)
Definition tolower (c : Z) : Z :=
  if (65 <=? c) && (c <=? 90) then c + 32 else c.

(** [while (len--) hash = ((hash << 5) + hash) + c;] on an [unsigned int
    hash], [c] being the next byte of [buf] or its [tolower].  Reading past
    the end of the buffer is undefined. *)
Fixpoint dictGenHashFunction_loop (f : Z → Z) (buf : list Byte.byte) (len : nat)
    (hash : Z) {struct len} : option Z :=
  match len with
  | O => Some hash
  | S len' =>
      match buf with
      | [] => None
      | c :: buf' =>
          dictGenHashFunction_loop f buf' len'
            (to_uint (to_uint (to_uint (Z.shiftl hash 5) + hash) + f (uchar c)))
      end
  end.

(** Bernstein's hash.  [len] is an [int]: a negative [len] counts down until
    the decrement overflows or the buffer is left, both undefined. *)
Definition dictGenHashFunction (dict_hash_function_seed : Z)
    (buf : list Byte.byte) (len : Z) : option Z :=
  if len <? 0 then None
  else dictGenHashFunction_loop id buf (Z.to_nat len)
         (to_uint dict_hash_function_seed).

(** The case insensitive version. *)
Definition dictGenCaseHashFunction (dict_hash_function_seed : Z)
    (buf : list Byte.byte) (len : Z) : option Z :=
  if len <? 0 then None
  else dictGenHashFunction_loop tolower buf (Z.to_nat len)
         (to_uint dict_hash_function_seed).

(** The polynomial in 33 that Bernstein's hash evaluates by Horner's rule,
    over the integers. *)
Definition horner33 (h : Z) (cs : list Z) : Z :=
  fold_left (λ h c, h * 33 + c) cs h.

(** ** The type descriptor *)

(** [dictType]: the behaviours bound to a table at creation ([d->type]) and
    never mutated afterwards.  [hashFunction] returns an [unsigned int]; the
    duplication and destructor callbacks act on the objects behind keys and
    values and have no part in the model (see [dictSetKey] below). *)
Class dictType (K : Type) := {
  hashFunction : K → Z;
  keyCompare : K → K → bool
}.

Section Dict.

(** Keys and values are opaque to the table. *)
Context {K V : Type} `{!dictType K}.

(** The process-wide gate [dict_can_resize]; the table only reads it. *)
Variable dict_can_resize : bool.

(** ** Data model *)

(** [dictEntry] without its [next] link.  [val] is [None] between
    [dictAddRaw], which leaves the field unset, and [dictSetVal]. *)
Record dictEntry := mkEntry { key : K; val : option V }.

(** A collision chain. *)
Local Abbreviation chain := (list dictEntry).

Record dictht := mkHt {
  table : option (list chain);
  size : Z;
  sizemask : Z;
  used : Z
}.

Record dict := mkDict {
  ht0 : dictht;
  ht1 : dictht;
  rehashidx : Z;
  iterators : Z
}.

Definition set_ht0 (d : dict) (h : dictht) : dict :=
  mkDict h (ht1 d) (rehashidx d) (iterators d).
Definition set_ht1 (d : dict) (h : dictht) : dict :=
  mkDict (ht0 d) h (rehashidx d) (iterators d).
Definition set_rehashidx (d : dict) (i : Z) : dict :=
  mkDict (ht0 d) (ht1 d) i (iterators d).
Definition set_iterators (d : dict) (i : Z) : dict :=
  mkDict (ht0 d) (ht1 d) (rehashidx d) i.
Definition set_used (h : dictht) (u : Z) : dictht :=
  mkHt (table h) (size h) (sizemask h) u.

(** [d->ht[t]] for [t] in 0, 1. *)
Definition ht (d : dict) (t : Z) : dictht := if t =? 0 then ht0 d else ht1 d.
Definition set_ht (d : dict) (t : Z) (h : dictht) : dict :=
  if t =? 0 then set_ht0 d h else set_ht1 d h.

(** [h->table[i]]: undefined on a null array or outside the allocation. *)
Definition table_get (h : dictht) (i : Z) : option chain :=
  tbl ← table h;
  if bool_decide (0 ≤ i) then tbl !! Z.to_nat i else None.

(** [h->table[i] = c]. *)
Definition table_set (h : dictht) (i : Z) (c : chain) : option dictht :=
  tbl ← table h;
  if bool_decide (0 ≤ i < Z.of_nat (length tbl))
  then Some (mkHt (Some (<[Z.to_nat i := c]> tbl)) (size h) (sizemask h) (used h))
  else None.

(** ** Macros of dict.h *)

(** Modelled from the spec: the macros of [dict.h] are not part of the
    sources at hand.  The rehash cursor's sentinel is -1 ([_dictInit] sets
    it, [dictRehash] restores it); hashing and comparison go through the
    type descriptor; the size of a table is the sum of both generations'
    occupied counts (spec section 3). *)
Definition dictIsRehashing (d : dict) : bool := negb (rehashidx d =? -1).
Definition dictHashKey (k : K) : Z := to_uint (hashFunction k).
Definition dictCompareKeys (k1 k2 : K) : bool := keyCompare k1 k2.
Definition dictSize (d : dict) : Z := to_ulong (used (ht0 d) + used (ht1 d)).

(** Modelled from the spec: [dictSetKey] and [dictSetVal] of [dict.h]
    assign the entry's key and value ("add is addRaw plus value
    assignment").  Keys and values are modelled by their contents, on which
    the optional duplication callbacks, which copy an object, are the
    identity.  [dictSetKey] initialises the key of a freshly allocated
    entry, whose value is still unset. *)
Definition dictSetKey (k : K) : dictEntry := mkEntry k None.
Definition dictSetVal (e : dictEntry) (v : V) : dictEntry := mkEntry (key e) (Some v).
Definition dictGetVal (e : dictEntry) : option V := val e.

(** ** Creation *)

Definition _dictReset : dictht := mkHt None 0 0 0.

Definition _dictInit : dict := mkDict _dictReset _dictReset (-1) 0.

Definition dictCreate : dict := _dictInit.

(** ** Resizing *)

(** The [while(1)] loop of [_dictNextPower]; [i] is an [unsigned long].
    Sixty-four doublings exhaust every 64-bit value, so the fuel only runs
    out when [i] has wrapped to 0 and the C loop spins forever. *)
Fixpoint _dictNextPower_loop (fuel : nat) (i sz : Z) : option Z :=
  if i >=? sz then Some i
  else match fuel with
       | O => None
       | S fuel' => _dictNextPower_loop fuel' (to_ulong (i * 2)) sz
       end.

Definition _dictNextPower (sz : Z) : option Z :=
  if sz >=? LONG_MAX then Some LONG_MAX
  else _dictNextPower_loop 64 DICT_HT_INITIAL_SIZE sz.

(** [zcalloc(realsize*sizeof(dictEntry* ))]: an array of null chain heads. *)
Definition zcalloc_table (realsize : Z) : list chain :=
  replicate (Z.to_nat realsize) [].

Definition dictExpand (d : dict) (sz : Z) : option (dict * Z) :=
  if dictIsRehashing d || (used (ht0 d) >? sz) then Some (d, DICT_ERR)
  else
    realsize ← _dictNextPower sz;
    let n := mkHt (Some (zcalloc_table realsize)) realsize
                  (to_ulong (realsize - 1)) 0 in
    match table (ht0 d) with
    | None => Some (set_ht0 d n, DICT_OK)
    | Some _ => Some (set_rehashidx (set_ht1 d n) 0, DICT_OK)
    end.

(** [int minimal = d->ht[0].used] truncates the 64-bit count to an [int];
    the call [dictExpand(d, minimal)] converts it back to [unsigned long]. *)
Definition dictResize (d : dict) : option (dict * Z) :=
  if negb dict_can_resize || dictIsRehashing d then Some (d, DICT_ERR)
  else
    let minimal := to_int (used (ht0 d)) in
    let minimal :=
      if minimal <? DICT_HT_INITIAL_SIZE then DICT_HT_INITIAL_SIZE else minimal in
    dictExpand d (to_ulong minimal).

(** ** Incremental rehashing *)

(** [while(d->ht[0].table[d->rehashidx] == NULL) d->rehashidx++;] run over
    the slots from the cursor on: the index of the first non-empty slot, or
    undefined behaviour when the scan leaves the array. *)
Fixpoint skip_empty (rest : list chain) (idx : Z) : option Z :=
  match rest with
  | [] => None
  | [] :: rest' => idx' ← int_incr idx; skip_empty rest' idx'
  | _ :: _ => Some idx
  end.

(** The inner [while(de)] loop of [dictRehash]: every entry of the chain, in
    chain order, is pushed on the head of its slot of [ht[1]]; both counters
    are updated per entry. *)
Fixpoint rehash_chain (de : chain) (h0 h1 : dictht) : option (dictht * dictht) :=
  match de with
  | [] => Some (h0, h1)
  | e :: nextde =>
      let h := to_uint (Z.land (dictHashKey (key e)) (sizemask h1)) in
      c ← table_get h1 h;
      h1' ← table_set h1 h (e :: c);
      rehash_chain nextde
        (set_used h0 (to_ulong (used h0 - 1)))
        (set_used h1' (to_ulong (used h1' + 1)))
  end.

(** The body of [while(n--)]; [inr] is the early [return 0]. *)
Definition dictRehash_body (d : dict) : option (dict + dict) :=
  if used (ht0 d) =? 0 then
    Some (inr (mkDict (ht1 d) _dictReset (-1) (iterators d)))
  else if negb (size (ht0 d) >? to_uint (rehashidx d)) then None
  else
    tbl ← table (ht0 d);
    if bool_decide (rehashidx d < 0) then None
    else
      idx ← skip_empty (drop (Z.to_nat (rehashidx d)) tbl) (rehashidx d);
      de ← table_get (ht0 d) idx;
      '(h0, h1) ← rehash_chain de (ht0 d) (ht1 d);
      h0' ← table_set h0 idx [];
      idx' ← int_incr idx;
      Some (inl (mkDict h0' h1 idx' (iterators d))).

Fixpoint dictRehash_loop (n : nat) (d : dict) : option (dict * Z) :=
  match n with
  | O => Some (d, 1)
  | S n' =>
      r ← dictRehash_body d;
      match r with
      | inr d' => Some (d', 0)
      | inl d' => dictRehash_loop n' d'
      end
  end.

(** [while(n--)] on an [int n] runs [n] times for a non-negative [n].  A
    negative [n] counts down towards [INT_MIN], where the decrement
    overflows: the loop has to leave through its [return 0] before. *)
Definition dictRehash (d : dict) (n : Z) : option (dict * Z) :=
  if negb (dictIsRehashing d) then Some (d, 0)
  else if 0 <=? n then dictRehash_loop (Z.to_nat n) d
  else
    '(d, r) ← dictRehash_loop (Z.to_nat (n - INT_MIN)) d;
    if r =? 0 then Some (d, 0) else None.

Definition _dictRehashStep (d : dict) : option dict :=
  if iterators d =? 0 then '(d', _) ← dictRehash d 1; Some d' else Some d.

(** [timeInMilliseconds] reads the clock: the model takes the list of the
    values it returns, in order, and is undefined when the list is used up.
    The readings are [long long] values, far from the bounds of the type:
    their difference is taken as it is.
    The loop of [dictRehashMilliseconds], [start] and [ms] being fixed: every
    turn rehashes 100 slots, counts them and reads the clock once. *)
Fixpoint dictRehashMilliseconds_loop (clock : list Z) (d : dict)
    (start ms rehashes : Z) : option (dict * Z * list Z) :=
  '(d, r) ← dictRehash d 100;
  if r =? 0 then Some (d, rehashes, clock)
  else
    rehashes ← int_add rehashes 100;
    match clock with
    | [] => None
    | t :: clock' =>
        if t - start >? ms then Some (d, rehashes, clock')
        else dictRehashMilliseconds_loop clock' d start ms rehashes
    end.

Definition dictRehashMilliseconds (d : dict) (ms : Z) (clock : list Z)
    : option (dict * Z * list Z) :=
  match clock with
  | [] => None
  | start :: clock' => dictRehashMilliseconds_loop clock' d start ms 0
  end.

(** ** Chains *)

(** [while(he) { if (dictCompareKeys(d, key, he->key)) return he; he = he->next; }] *)
Fixpoint chain_find (k : K) (he : chain) : option dictEntry :=
  match he with
  | [] => None
  | e :: next => if dictCompareKeys k (key e) then Some e else chain_find k next
  end.

(** The unlinking scan of [dictGenericDelete]: the chain without its first
    entry whose key compares equal, if there is one. *)
Fixpoint chain_unlink (k : K) (he : chain) : option chain :=
  match he with
  | [] => None
  | e :: next =>
      if dictCompareKeys k (key e) then Some next
      else c ← chain_unlink k next; Some (e :: c)
  end.

(** ** Insertion *)

Definition _dictExpandIfNeeded (d : dict) : option (dict * Z) :=
  if dictIsRehashing d then Some (d, DICT_OK)
  else if size (ht0 d) =? 0 then dictExpand d DICT_HT_INITIAL_SIZE
  else if (used (ht0 d) >=? size (ht0 d))
          && (dict_can_resize
              || (used (ht0 d) / size (ht0 d) >? dict_force_resize_ratio))
  then dictExpand d
         (to_ulong ((if size (ht0 d) >? used (ht0 d)
                     then size (ht0 d) else used (ht0 d)) * 2))
  else Some (d, DICT_OK).

(** The [for (table = 0; table <= 1; table++)] loop is unrolled; the
    [unsigned int idx] is returned as an [int]. *)
Definition _dictKeyIndex (d : dict) (k : K) : option (dict * Z) :=
  '(d, r) ← _dictExpandIfNeeded d;
  if r =? DICT_ERR then Some (d, -1)
  else
    let h := dictHashKey k in
    let idx := to_uint (Z.land h (sizemask (ht0 d))) in
    he ← table_get (ht0 d) idx;
    if chain_find k he is Some _ then Some (d, -1)
    else if negb (dictIsRehashing d) then Some (d, to_int idx)
    else
      let idx := to_uint (Z.land h (sizemask (ht1 d))) in
      he ← table_get (ht1 d) idx;
      if chain_find k he is Some _ then Some (d, -1)
      else Some (d, to_int idx).

(** The entry returned by [dictAddRaw] is the head of the chain of slot
    [index] of [ht[t]]; the model returns that place, [(t, index)], through
    which [dictAdd] then sets the value. *)
Definition dictAddRaw (d : dict) (k : K) : option (dict * option (Z * Z)) :=
  d ← (if dictIsRehashing d then _dictRehashStep d else Some d);
  '(d, index) ← _dictKeyIndex d k;
  if index =? -1 then Some (d, None)
  else
    let t := if dictIsRehashing d then 1 else 0 in
    next ← table_get (ht d t) index;
    h ← table_set (ht d t) index (dictSetKey k :: next);
    Some (set_ht d t (set_used h (to_ulong (used h + 1))), Some (t, index)).

Definition dictAdd (d : dict) (k : K) (v : V) : option (dict * Z) :=
  '(d, entry) ← dictAddRaw d k;
  match entry with
  | None => Some (d, DICT_ERR)
  | Some (t, index) =>
      he ← table_get (ht d t) index;
      match he with
      | [] => None
      | e :: next =>
          h ← table_set (ht d t) index (dictSetVal e v :: next);
          Some (set_ht d t h, DICT_OK)
      end
  end.

(** ** Deletion *)

(** [nofree] only decides whether the destructors of the type descriptor
    run on the unlinked entry; they do not touch the table. *)
Definition dictGenericDelete (d : dict) (k : K) (nofree : bool) : option (dict * Z) :=
  if size (ht0 d) =? 0 then Some (d, DICT_ERR)
  else
    d ← (if dictIsRehashing d then _dictRehashStep d else Some d);
    let h := dictHashKey k in
    let idx := to_uint (Z.land h (sizemask (ht0 d))) in
    he ← table_get (ht0 d) idx;
    match chain_unlink k he with
    | Some c =>
        h0 ← table_set (ht0 d) idx c;
        Some (set_ht0 d (set_used h0 (to_ulong (used h0 - 1))), DICT_OK)
    | None =>
        if negb (dictIsRehashing d) then Some (d, DICT_ERR)
        else
          let idx := to_uint (Z.land h (sizemask (ht1 d))) in
          he ← table_get (ht1 d) idx;
          match chain_unlink k he with
          | Some c =>
              h1 ← table_set (ht1 d) idx c;
              Some (set_ht1 d (set_used h1 (to_ulong (used h1 - 1))), DICT_OK)
          | None => Some (d, DICT_ERR)
          end
    end.

Definition dictDelete (d : dict) (k : K) : option (dict * Z) :=
  dictGenericDelete d k false.

Definition dictDeleteNoFree (d : dict) (k : K) : option (dict * Z) :=
  dictGenericDelete d k true.

(** The [for] loop of [_dictClear] over the slots [i], [i+1], ...: what is
    left of [used] once every visited chain has been freed. *)
Fixpoint _dictClear_loop (rest : list chain) (i sz u : Z) : option Z :=
  if (i <? sz) && (u >? 0) then
    match rest with
    | [] => None
    | he :: rest' =>
        _dictClear_loop rest' (to_ulong (i + 1)) sz
          (fold_left (λ u _, to_ulong (u - 1)) he u)
    end
  else Some u.

Definition _dictClear (h : dictht) : option dictht :=
  _ ← _dictClear_loop (default [] (table h)) 0 (size h) (used h);
  Some _dictReset.

Definition dictEmpty (d : dict) : option dict :=
  h0 ← _dictClear (ht0 d);
  h1 ← _dictClear (ht1 d);
  Some (mkDict h0 h1 (-1) 0).

(** [dictRelease] clears both arrays and frees the table: nothing is left. *)
Definition dictRelease (d : dict) : option unit :=
  _ ← _dictClear (ht0 d);
  _ ← _dictClear (ht1 d);
  Some ().

(** ** Lookup *)

Definition dictFind (d : dict) (k : K) : option (dict * option dictEntry) :=
  if size (ht0 d) =? 0 then Some (d, None)
  else
    d ← (if dictIsRehashing d then _dictRehashStep d else Some d);
    let h := dictHashKey k in
    let idx := to_uint (Z.land h (sizemask (ht0 d))) in
    he ← table_get (ht0 d) idx;
    match chain_find k he with
    | Some e => Some (d, Some e)
    | None =>
        if negb (dictIsRehashing d) then Some (d, None)
        else
          let idx := to_uint (Z.land h (sizemask (ht1 d))) in
          he ← table_get (ht1 d) idx;
          Some (d, chain_find k he)
    end.

Definition dictFetchValue (d : dict) (k : K) : option (dict * option V) :=
  '(d, he) ← dictFind d k;
  Some (d, he ≫= dictGetVal).

(** ** Replacement *)

(** The chain in which the first entry that compares equal to [k], the one
    the scan of [dictFind] stops at, has its value set to [v]. *)
Fixpoint chain_setval (k : K) (v : V) (he : chain) : option chain :=
  match he with
  | [] => None
  | e :: next =>
      if dictCompareKeys k (key e) then Some (dictSetVal e v :: next)
      else c ← chain_setval k v next; Some (e :: c)
  end.

(** [dictSetVal(d, entry, val)] through the [entry] that [dictFind(d, key)]
    has just returned: the entry its scan stops at, in the key's slot of
    [ht[0]] or else of [ht[1]]. *)
Definition dictSetVal_found (d : dict) (k : K) (v : V) : option dict :=
  let h := dictHashKey k in
  let idx := to_uint (Z.land h (sizemask (ht0 d))) in
  he ← table_get (ht0 d) idx;
  match chain_setval k v he with
  | Some c => h0 ← table_set (ht0 d) idx c; Some (set_ht0 d h0)
  | None =>
      let idx := to_uint (Z.land h (sizemask (ht1 d))) in
      he ← table_get (ht1 d) idx;
      c ← chain_setval k v he;
      h1 ← table_set (ht1 d) idx c;
      Some (set_ht1 d h1)
  end.

(** [auxentry = *entry] dereferences the result of [dictFind]: undefined
    when it is [NULL].  [dictFreeVal] runs the value destructor on the old
    value and does not touch the table. *)
Definition dictReplace (d : dict) (k : K) (v : V) : option (dict * Z) :=
  '(d, r) ← dictAdd d k v;
  if r =? DICT_OK then Some (d, 1)
  else
    '(d, entry) ← dictFind d k;
    match entry with
    | None => None
    | Some _ => d ← dictSetVal_found d k v; Some (d, 0)
    end.

(** The entry [dictReplaceRaw] returns is given by its contents, as for
    [dictFind]; a new entry holds the key and no value yet. *)
Definition dictReplaceRaw (d : dict) (k : K) : option (dict * option dictEntry) :=
  '(d, entry) ← dictFind d k;
  match entry with
  | Some e => Some (d, Some e)
  | None =>
      '(d, place) ← dictAddRaw d k;
      Some (d, match place with
               | Some _ => Some (dictSetKey k)
               | None => None
               end)
  end.

(** ** Iterators *)

(** [dictIterator]; every iterator of the model refers to the one table at
    hand, so the field [d] is left out.  An entry pointer is modelled by the
    chain that starts at the entry, [[]] being [NULL]: this is what the
    pointer reaches as long as the chain is not relinked between two
    advances.  The properties below are about the position of the iterator
    and the counters, which do not depend on it. *)
Record dictIterator := mkIter {
  iter_table : Z;
  iter_index : Z;
  iter_safe : bool;
  iter_entry : chain;
  iter_nextEntry : chain
}.

Definition dictGetIterator : dictIterator := mkIter 0 (-1) false [] [].

Definition dictGetSafeIterator : dictIterator :=
  let i := dictGetIterator in
  mkIter (iter_table i) (iter_index i) true (iter_entry i) (iter_nextEntry i).

(** One pass through the body of [while (1)] in [dictNext]: [Some r] is
    [return r] (the [break] included, which returns [NULL]), [None] is the
    next pass. *)
Definition dictNext_body (d : dict) (iter : dictIterator)
    : option (dict * dictIterator * option (option dictEntry)) :=
  '(d, iter, broke) ←
    match iter_entry iter with
    | [] =>
        d ← (if iter_safe iter && (iter_index iter =? -1) && (iter_table iter =? 0)
             then i ← int_incr (iterators d); Some (set_iterators d i)
             else Some d);
        index ← int_incr (iter_index iter);
        if index >=? to_int (size (ht d (iter_table iter))) then
          if dictIsRehashing d && (iter_table iter =? 0) then
            entry ← table_get (ht1 d) 0;
            Some (d, mkIter (iter_table iter + 1) 0 (iter_safe iter)
                            entry (iter_nextEntry iter), false)
          else
            Some (d, mkIter (iter_table iter) index (iter_safe iter)
                            (iter_entry iter) (iter_nextEntry iter), true)
        else
          entry ← table_get (ht d (iter_table iter)) index;
          Some (d, mkIter (iter_table iter) index (iter_safe iter)
                          entry (iter_nextEntry iter), false)
    | _ :: _ =>
        Some (d, mkIter (iter_table iter) (iter_index iter) (iter_safe iter)
                        (iter_nextEntry iter) (iter_nextEntry iter), false)
    end;
  if (broke : bool) then Some (d, iter, Some None)
  else
    match iter_entry iter with
    | e :: next =>
        Some (d, mkIter (iter_table iter) (iter_index iter) (iter_safe iter)
                        (iter_entry iter) next, Some (Some e))
    | [] => Some (d, iter, None)
    end.

Fixpoint dictNext_loop (fuel : nat) (d : dict) (iter : dictIterator)
    : option (dict * dictIterator * option dictEntry) :=
  match fuel with
  | O => None
  | S fuel' =>
      '(d, iter, r) ← dictNext_body d iter;
      match r with
      | Some e => Some (d, iter, e)
      | None => dictNext_loop fuel' d iter
      end
  end.

(** Number of slots allocated to a bucket array. *)
Definition ht_slots (h : dictht) : nat := length (default [] (table h)).

(** Every pass but the first either returns or moves to the next slot, and
    a scan visits each slot of the two arrays at most once: three passes
    more than there are slots are enough for the loop to return (see
    [dictNext_total]). *)
Definition dictNext (d : dict) (iter : dictIterator)
    : option (dict * dictIterator * option dictEntry) :=
  dictNext_loop (3 + ht_slots (ht0 d) + ht_slots (ht1 d)) d iter.

Definition dictReleaseIterator (d : dict) (iter : dictIterator) : option dict :=
  if iter_safe iter && negb ((iter_index iter =? -1) && (iter_table iter =? 0))
  then i ← int_decr (iterators d); Some (set_iterators d i)
  else Some d.

(** ** Random sampling *)

(** [random()] is an oracle: the list of the values it returns, in order.
    The rejection loop [do ... while(he == NULL)] draws until it hits an
    occupied slot; the model is undefined when the oracle is used up. *)
Fixpoint random_slot (d : dict) (rs : list Z) : option (chain * list Z) :=
  match rs with
  | [] => None
  | r :: rs' =>
      he ←
        (if dictIsRehashing d then
           let m := to_ulong (size (ht0 d) + size (ht1 d)) in
           if m =? 0 then None
           else
             let h := to_uint (to_ulong r mod m) in
             if h >=? size (ht0 d)
             then table_get (ht1 d) (to_ulong (h - size (ht0 d)))
             else table_get (ht0 d) h
         else table_get (ht0 d) (to_uint (Z.land (to_ulong r) (sizemask (ht0 d)))));
      match he with
      | [] => random_slot d rs'
      | _ :: _ => Some (he, rs')
      end
  end.

Definition dictGetRandomKey (d : dict) (rs : list Z)
    : option (dict * option dictEntry * list Z) :=
  if dictSize d =? 0 then Some (d, None, rs)
  else
    d ← (if dictIsRehashing d then _dictRehashStep d else Some d);
    '(orighe, rs) ← random_slot d rs;
    match rs with
    | [] => None
    | r :: rs' =>
        let listlen := to_int (Z.of_nat (length orighe)) in
        if listlen =? 0 then None
        else
          let listele := to_int (Z.rem r listlen) in
          if bool_decide (0 ≤ listele) then
            he ← orighe !! Z.to_nat listele;
            Some (d, Some he, rs')
          else None
    end.

(** ** Sequences of operations *)

(** The mutating operations a caller interleaves with a scan. *)
Inductive dictOp :=
  | OpAdd (k : K) (v : V)
  | OpFind (k : K)
  | OpDelete (k : K).

Definition run_op (d : dict) (o : dictOp) : option dict :=
  match o with
  | OpAdd k v => fst <$> dictAdd d k v
  | OpFind k => fst <$> dictFind d k
  | OpDelete k => fst <$> dictDelete d k
  end.

(** The states a sequence of operations goes through, the first left out. *)
Fixpoint run_ops (d : dict) (os : list dictOp) : option (list dict) :=
  match os with
  | [] => Some []
  | o :: os' => d' ← run_op d o; ds ← run_ops d' os'; Some (d' :: ds)
  end.

(** The state a sequence of operations ends in. *)
Fixpoint exec_ops (d : dict) (os : list dictOp) : option dict :=
  match os with
  | [] => Some d
  | o :: os' => d' ← run_op d o; exec_ops d' os'
  end.

(** The loop [while ((de = dictNext(iter)) != NULL)] of a caller that walks
    the whole table with one iterator: the entries it is handed, in order.
    [fuel] bounds the number of calls. *)
Fixpoint dictNext_all (fuel : nat) (d : dict) (iter : dictIterator)
    : option (dict * dictIterator * list dictEntry) :=
  match fuel with
  | O => None
  | S fuel' =>
      '(d, iter, r) ← dictNext d iter;
      match r with
      | None => Some (d, iter, [])
      | Some e =>
          '(d, iter, es) ← dictNext_all fuel' d iter;
          Some (d, iter, e :: es)
      end
  end.

(** Iterators live in a store indexed by their handle; a released iterator
    leaves [None] behind ([zfree]).  All of them share the one table, whose
    [iterators] counter they update through [iter->d]. *)
Inductive iterEvent :=
  | EvCreate (safe : bool)
  | EvNext (i : nat)
  | EvRelease (i : nat).

Local Abbreviation iterStore := (list (option dictIterator)).

Definition run_event (st : dict * iterStore) (ev : iterEvent)
    : option (dict * iterStore) :=
  let '(d, its) := st in
  match ev with
  | EvCreate safe =>
      Some (d, its ++ [Some (if safe then dictGetSafeIterator else dictGetIterator)])
  | EvNext i =>
      it ← mjoin (its !! i);
      '(d, it, _) ← dictNext d it;
      Some (d, <[i := Some it]> its)
  | EvRelease i =>
      it ← mjoin (its !! i);
      d ← dictReleaseIterator d it;
      Some (d, <[i := None]> its)
  end.

Fixpoint run_events (st : dict * iterStore) (evs : list iterEvent)
    : option (dict * iterStore) :=
  match evs with
  | [] => Some st
  | ev :: evs' => st' ← run_event st ev; run_events st' evs'
  end.

(** ** Invariants of the data model *)

(** The entries of a bucket array, slot after slot, and those of the table. *)
Definition ht_entries (h : dictht) : list dictEntry :=
  concat (default [] (table h)).

Definition dict_entries (d : dict) : list dictEntry :=
  ht_entries (ht0 d) ++ ht_entries (ht1 d).

(** The slot a key hashes to in a bucket array. *)
Definition slot_of (h : dictht) (k : K) : Z :=
  Z.land (dictHashKey k) (sizemask h).

(** A bucket array is either unallocated, with all fields zero, or an array
    of [size] slots whose mask is [size - 1], whose [used] counts its
    entries and whose every entry sits in the slot its key hashes to.  The
    cursor and the indices are [int]s: an array has at most 2^30 slots. *)
Definition ht_wf (h : dictht) : Prop :=
  match table h with
  | None => size h = 0 ∧ sizemask h = 0 ∧ used h = 0
  | Some tbl =>
      Z.of_nat (length tbl) = size h ∧
      0 < size h ≤ 2 ^ 30 ∧
      sizemask h = size h - 1 ∧
      used h = Z.of_nat (length (concat tbl)) ∧
      ∀ (i : nat) (c : chain), tbl !! i = Some c →
        Forall (λ e, slot_of h (key e) = Z.of_nat i) c
  end.

(** Every primary slot strictly below the rehash cursor is empty.  (With the
    cursor at its sentinel -1 there is no such slot.) *)
Definition cursor_inv (d : dict) : Prop :=
  ∀ (i : Z) (c : chain),
    0 ≤ i < rehashidx d → table_get (ht0 d) i = Some c → c = [].

(** A well-formed table of at most 2^29 entries. *)
Definition dict_wf (d : dict) : Prop :=
  ht_wf (ht0 d) ∧ ht_wf (ht1 d) ∧
  used (ht0 d) + used (ht1 d) ≤ 2 ^ 29 ∧
  if dictIsRehashing d
  then 0 ≤ rehashidx d ≤ size (ht0 d) ∧
       is_Some (table (ht0 d)) ∧ is_Some (table (ht1 d)) ∧ cursor_inv d
  else table (ht1 d) = None.

(** [r] is the smallest power of two that is at least
    [DICT_HT_INITIAL_SIZE] and at least [m]. *)
Definition next_power_of (m r : Z) : Prop :=
  (∃ j, 2 ≤ j ∧ r = 2 ^ j) ∧ m ≤ r ∧ ∀ j, 2 ≤ j → m ≤ 2 ^ j → r ≤ 2 ^ j.

(** The bucket array [dictExpand] allocates for a request of [realsize] slots. *)
Definition fresh_ht (realsize : Z) : dictht :=
  mkHt (Some (zcalloc_table realsize)) realsize (to_ulong (realsize - 1)) 0.

(** What [dictExpand] leaves behind when it accepts a request that comes to
    [r] slots: the new array becomes the primary one when there is none, and
    the incoming one, with the cursor at 0, otherwise. *)
Definition expanded (d : dict) (r : Z) : dict :=
  match table (ht0 d) with
  | None => set_ht0 d (fresh_ht r)
  | Some _ => set_rehashidx (set_ht1 d (fresh_ht r)) 0
  end.

(** The completion of a rehash: the incoming array is promoted, the
    incoming slot and the cursor are reset. *)
Definition promoted (d : dict) : dict :=
  mkDict (ht1 d) _dictReset (-1) (iterators d).

(** The amortized step every operation starts with. *)
Definition amortized_step (d : dict) : option dict :=
  if dictIsRehashing d then _dictRehashStep d else Some d.

(** Laws of the type descriptor: comparison is an equivalence, and keys
    that compare equal hash alike. *)
Definition compare_refl : Prop := ∀ k : K, dictCompareKeys k k = true.

Definition compare_hash : Prop :=
  ∀ k1 k2 : K, dictCompareKeys k1 k2 = true → dictHashKey k1 = dictHashKey k2.

Definition compare_sym : Prop :=
  ∀ k1 k2 : K, dictCompareKeys k1 k2 = true → dictCompareKeys k2 k1 = true.

Definition compare_trans : Prop :=
  ∀ k1 k2 k3 : K, dictCompareKeys k1 k2 = true → dictCompareKeys k2 k3 = true →
                  dictCompareKeys k1 k3 = true.

(** A safe iterator that has been advanced holds a claim on the table's
    [iterators] counter: the condition under which [dictReleaseIterator]
    gives the claim back. *)
Definition iter_claims (iter : dictIterator) : bool :=
  iter_safe iter && negb ((iter_index iter =? -1) && (iter_table iter =? 0)).

(** The claims held by the live iterators of a store. *)
Definition claim_of (o : option dictIterator) : Z :=
  match o with
  | Some iter => if iter_claims iter then 1 else 0
  | None => 0
  end.

Definition store_claims (its : iterStore) : Z :=
  foldr (λ o n, claim_of o + n) 0 its.

(** The index of an iterator starts at -1 and only grows. *)
Definition store_ok (its : iterStore) : Prop :=
  ∀ (i : nat) iter, its !! i = Some (Some iter) → -1 ≤ iter_index iter.

(** An entry has moved between the generations from [d] to [d']: it has
    left one bucket array and appeared in the other. *)
Definition moved (d d' : dict) : Prop :=
  ∃ e : dictEntry,
    (e ∈ ht_entries (ht0 d) ∧ (e ∉ ht_entries (ht0 d')) ∧
     (e ∉ ht_entries (ht1 d)) ∧ e ∈ ht_entries (ht1 d')) ∨
    (e ∈ ht_entries (ht1 d) ∧ (e ∉ ht_entries (ht1 d')) ∧
     (e ∉ ht_entries (ht0 d)) ∧ e ∈ ht_entries (ht0 d')).

(** At most one generation's entries change from [d] to [d']. *)
Definition one_generation_changes (d d' : dict) : Prop :=
  ht_entries (ht0 d') = ht_entries (ht0 d) ∨
  ht_entries (ht1 d') = ht_entries (ht1 d).

(** Executable versions of the invariants, for concrete tables. *)
Definition ht_wfb (h : dictht) : bool :=
  match table h with
  | None => (size h =? 0) && (sizemask h =? 0) && (used h =? 0)
  | Some tbl =>
      (Z.of_nat (length tbl) =? size h) && (0 <? size h) &&
      (size h <=? 2 ^ 30) && (sizemask h =? size h - 1) &&
      (used h =? Z.of_nat (length (concat tbl))) &&
      forallb (λ ic : nat * chain,
                 forallb (λ e, slot_of h (key e) =? Z.of_nat ic.1) ic.2)
              (imap pair tbl)
  end.

Definition cursor_invb (d : dict) : bool :=
  match table (ht0 d) with
  | None => true
  | Some tbl =>
      forallb (λ c : chain, match c with [] => true | _ => false end)
              (take (Z.to_nat (rehashidx d)) tbl)
  end.

Definition dict_wfb (d : dict) : bool :=
  ht_wfb (ht0 d) && ht_wfb (ht1 d) &&
  (used (ht0 d) + used (ht1 d) <=? 2 ^ 29) &&
  (if dictIsRehashing d
   then (0 <=? rehashidx d) && (rehashidx d <=? size (ht0 d)) &&
        bool_decide (is_Some (table (ht0 d))) &&
        bool_decide (is_Some (table (ht1 d))) && cursor_invb d
   else match table (ht1 d) with None => true | Some _ => false end).

(** The entries whose key compares equal to [k]. *)
Definition matching (k : K) (es : list dictEntry) : list dictEntry :=
  filter (λ e, dictCompareKeys k (key e) = true) es.

(** No two entries of the table hold the same key: whatever the key, at
    most one entry compares equal to it. *)
Definition keys_unique (d : dict) : Prop :=
  ∀ k : K, (length (matching k (dict_entries d)) ≤ 1)%nat.

(** The sizes the table gives its arrays: none, or a power of two from 4
    on, which is what makes [size - 1] a mask. *)
Definition size_pow2 (s : Z) : Prop := s = 0 ∨ ∃ j, 2 ≤ j ∧ s = 2 ^ j.

Definition sizes_pow2 (d : dict) : Prop :=
  size_pow2 (size (ht0 d)) ∧ size_pow2 (size (ht1 d)).

(** The entries a scan that has done with slot [index] of array [t] has
    still to hand out: those of the slots that follow and, from the primary
    array of a rehashing table, those of the incoming array. *)
Definition after_slot (d : dict) (t index : Z) : list dictEntry :=
  concat (drop (Z.to_nat (index + 1)) (default [] (table (ht d t)))) ++
  (if (t =? 0) && dictIsRehashing d then ht_entries (ht1 d) else []).

(** The entries [iter] has still to hand out: the rest of the chain of the
    entry it has handed out last, then those of the slots to come. *)
Definition pending (d : dict) (iter : dictIterator) : list dictEntry :=
  match iter_entry iter with
  | [] => []
  | _ :: _ => iter_nextEntry iter
  end ++ after_slot d (iter_table iter) (iter_index iter).

(** The slots the scan of [iter] has still to visit, with one more pass
    for each bucket array it has still to leave: a bound on the passes
    through the loop of [dictNext]. *)
Definition slots_left (d : dict) (iter : dictIterator) : Z :=
  if iter_table iter =? 0
  then Z.max 0 (size (ht0 d) - 1 - iter_index iter) + 1 + (size (ht1 d) + 1)
  else Z.max 0 (size (ht1 d) - 1 - iter_index iter) + 1.

End Dict.

(** A collision chain, and the store of the live iterators. *)
Abbreviation chain := (list dictEntry).
Abbreviation iterStore := (list (option dictIterator)).

(** ** Runs under a changing gate *)

(** [dictEnableResize] and [dictDisableResize] set the gate between two
    operations of a caller: in such a run every operation comes with the
    value of the gate it meets. *)
Fixpoint exec_gated_ops {K V : Type} `{!dictType K}
    (d : @dict K V) (gos : list (bool * @dictOp K V)) : option (@dict K V) :=
  match gos with
  | [] => Some d
  | (gate, o) :: gos' => d' ← run_op gate d o; exec_gated_ops d' gos'
  end.

(** Of the operations, only [dictAdd] links an entry. *)
Definition op_adds {K V : Type} (o : @dictOp K V) : bool :=
  match o with
  | OpAdd _ _ => true
  | _ => false
  end.

(** Every [dictAdd] of the run meets a table of fewer than 2^29 entries,
    the count up to which the invariants follow the counters; lookups and
    deletions are not bounded. *)
Fixpoint adds_have_room {K V : Type} `{!dictType K}
    (d : @dict K V) (gos : list (bool * @dictOp K V)) : Prop :=
  match gos with
  | [] => True
  | (gate, o) :: gos' =>
      (op_adds o = true → Z.of_nat (length (dict_entries d)) < 2 ^ 29) ∧
      ∀ d', run_op gate d o = Some d' → adds_have_room d' gos'
  end.

(** ** A concrete table type *)

(** Integer keys hashed with [dictIntHashFunction] and compared by value. *)
Definition intDictType : dictType Z :=
  {| hashFunction := dictIntHashFunction; keyCompare := Z.eqb |}.

(** Integer keys hashed with [dictIdentityHashFunction]. *)
Definition idDictType : dictType Z :=
  {| hashFunction := dictIdentityHashFunction; keyCompare := Z.eqb |}.

(** ** Concrete runs *)

(** The runs below use integer keys and values with the identity hash, so
    that key [k] sits in slot [k land sizemask]. *)
Module Run.

Abbreviation dict := (@dict Z Z).
Abbreviation create := (@dictCreate Z Z).
Abbreviation exec := (@exec_ops Z Z idDictType).
Abbreviation trace := (@run_ops Z Z idDictType).
Abbreviation events := (@run_events Z Z).
Abbreviation resize := (@dictResize Z Z).
Abbreviation expandIfNeeded := (@_dictExpandIfNeeded Z Z).
Abbreviation rehash := (@dictRehash Z Z idDictType).
Abbreviation add := (@dictAdd Z Z idDictType).
Abbreviation addRaw := (@dictAddRaw Z Z idDictType).
Abbreviation find := (@dictFind Z Z idDictType).
Abbreviation delete := (@dictGenericDelete Z Z idDictType).
Abbreviation wf := (@dict_wf Z Z idDictType).
Abbreviation entry := (@mkEntry Z Z).
Abbreviation op := (@run_op Z Z idDictType).
Abbreviation replace := (@dictReplace Z Z idDictType).
Abbreviation replaceRaw := (@dictReplaceRaw Z Z idDictType).
Abbreviation randomKey := (@dictGetRandomKey Z Z idDictType).
Abbreviation rehashMilliseconds := (@dictRehashMilliseconds Z Z idDictType).
Abbreviation expand := (@dictExpand Z Z).
Abbreviation next_all := (@dictNext_all Z Z).
Abbreviation exec_gated := (@exec_gated_ops Z Z idDictType).

(** Five insertions into a fresh table, with the resize gate open. *)
Definition five_adds : list (@dictOp Z Z) :=
  [OpAdd 1 10; OpAdd 2 20; OpAdd 3 30; OpAdd 4 40; OpAdd 5 50].

(** The table they leave: the fifth met a full array of 4 slots, began the
    rehash into 8 slots and went to the incoming array. *)
Definition rehashing_table : dict :=
  mkDict
    (mkHt (Some [[entry 4 (Some 40)]; [entry 1 (Some 10)];
                 [entry 2 (Some 20)]; [entry 3 (Some 30)]]) 4 3 4)
    (mkHt (Some [[]; []; []; []; []; [entry 5 (Some 50)]; []; []]) 8 7 1)
    0 0.

(** The same table while a safe iterator that has been advanced is live. *)
Definition iterating_table : dict := set_iterators rehashing_table 1.

(** The same insertions, then lookups that carry the rehash to its end, then
    four deletions. *)
Definition grow_then_delete : list (@dictOp Z Z) :=
  five_adds ++ [OpFind 1; OpFind 1; OpFind 1; OpFind 1; OpFind 1]
            ++ [OpDelete 1; OpDelete 2; OpDelete 3; OpDelete 4].

(** The table they leave: stable, 8 slots, one entry. *)
Definition sparse_table : dict :=
  mkDict
    (mkHt (Some [[]; []; []; []; []; [entry 5 (Some 50)]; []; []]) 8 7 1)
    _dictReset (-1) 0.

(** Five insertions with the resize gate closed leave five entries in 4
    slots. *)
Definition crowded_table : dict :=
  mkDict
    (mkHt (Some [[entry 4 (Some 40)]; [entry 5 (Some 50); entry 1 (Some 10)];
                 [entry 2 (Some 20)]; [entry 3 (Some 30)]]) 4 3 5)
    _dictReset (-1) 0.

(** Insertions, lookups and deletions between which the caller closes and
    opens the resize gate. *)
Definition gated_run : list (bool * @dictOp Z Z) :=
  [(true, OpAdd 1 10); (false, OpAdd 2 20); (false, OpAdd 3 30);
   (false, OpAdd 4 40); (false, OpAdd 5 50); (true, OpFind 9);
   (true, OpAdd 6 60); (false, OpDelete 2); (true, OpFind 1)].

(** The table [dictExpand] makes of a fresh one at a request of 2^32 slots:
    stable and empty, its primary array as long as the range of the
    [unsigned int] hash. *)
Definition huge_table : dict := mkDict (fresh_ht (2 ^ 32)) _dictReset (-1) 0.

End Run.

(** ** Properties *)

Section Properties.

Context {K V : Type} `{!dictType K}.

Implicit Types (d : @dict K V) (h : @dictht K V) (c : list (@dictEntry K V))
  (e : @dictEntry K V) (k : K) (v : V) (gate : bool).

(** Splits the conjunctions that show in the goal, and only those. *)
Ltac splits := repeat match goal with |- _ ∧ _ => split end.

(** *** Machine integers *)

Lemma to_ulong_small x : 0 ≤ x < 2 ^ 64 → to_ulong x = x.
Proof. intros. unfold to_ulong. apply Z.mod_small. lia. Qed.

Lemma to_uint_small x : 0 ≤ x < 2 ^ 32 → to_uint x = x.
Proof. intros. unfold to_uint. apply Z.mod_small. lia. Qed.

Lemma to_int_small x : - 2 ^ 31 ≤ x < 2 ^ 31 → to_int x = x.
Proof. intros. unfold to_int. rewrite Z.mod_small; lia. Qed.

Lemma to_uint_range x : 0 ≤ to_uint x < 2 ^ 32.
Proof. unfold to_uint. apply Z.mod_pos_bound. lia. Qed.

Lemma dictHashKey_range k : 0 ≤ dictHashKey k < 2 ^ 32.
Proof. apply to_uint_range. Qed.

Lemma land_mask_range x m :
  0 ≤ x → 0 ≤ m → 0 ≤ Z.land x m ∧ Z.land x m ≤ m ∧ Z.land x m ≤ x.
Proof.
  intros Hx Hm.
  rewrite <- (Z2N.id x Hx), <- (Z2N.id m Hm), <- N2Z.inj_land.
  pose proof (N.land_le_l (Z.to_N x) (Z.to_N m)).
  pose proof (N.land_le_r (Z.to_N x) (Z.to_N m)).
  lia.
Qed.

(** *** Bucket arrays *)

Lemma table_get_Some h i c :
  table_get h i = Some c →
  ∃ tbl, table h = Some tbl ∧ 0 ≤ i < Z.of_nat (length tbl) ∧
         tbl !! Z.to_nat i = Some c.
Proof.
  unfold table_get. destruct (table h) as [tbl|]; simpl; [|done].
  case_bool_decide; [|done]. intros Hl. exists tbl.
  split; [done|]. split; [|done].
  apply lookup_lt_Some in Hl. lia.
Qed.

Lemma table_get_lookup h tbl i :
  table h = Some tbl → 0 ≤ i → table_get h i = tbl !! Z.to_nat i.
Proof.
  intros Ht Hi. unfold table_get. rewrite Ht. simpl.
  rewrite bool_decide_true; done.
Qed.

Lemma table_get_nat h tbl (n : nat) :
  table h = Some tbl → table_get h (Z.of_nat n) = tbl !! n.
Proof.
  intros Ht. rewrite (table_get_lookup h tbl); [|done|lia].
  by rewrite Nat2Z.id.
Qed.

Lemma table_set_Some h i c h' :
  table_set h i c = Some h' →
  ∃ tbl, table h = Some tbl ∧ 0 ≤ i < Z.of_nat (length tbl) ∧
         h' = mkHt (Some (<[Z.to_nat i := c]> tbl)) (size h) (sizemask h) (used h).
Proof.
  unfold table_set. destruct (table h) as [tbl|]; simpl; [|done].
  case_bool_decide; [|done]. intros [= <-]. by exists tbl.
Qed.

Lemma table_set_is_Some h tbl i c :
  table h = Some tbl → 0 ≤ i < Z.of_nat (length tbl) →
  table_set h i c =
    Some (mkHt (Some (<[Z.to_nat i := c]> tbl)) (size h) (sizemask h) (used h)).
Proof.
  intros Ht Hi. unfold table_set. rewrite Ht. simpl.
  by rewrite bool_decide_true.
Qed.

Lemma table_get_set_eq h i c h' :
  table_set h i c = Some h' → table_get h' i = Some c.
Proof.
  intros (tbl & Ht & Hi & ->)%table_set_Some.
  erewrite table_get_lookup; [|done|lia].
  apply list_lookup_insert_eq. lia.
Qed.

Lemma table_get_set_ne h i j c h' :
  table_set h i c = Some h' → i ≠ j → table_get h' j = table_get h j.
Proof.
  intros (tbl & Ht & Hi & ->)%table_set_Some Hne.
  unfold table_get. rewrite Ht. simpl.
  case_bool_decide; [|done].
  apply list_lookup_insert_ne. lia.
Qed.

(** Replacing the chain of a slot trades the old chain for the new one. *)
Lemma concat_insert_perm (tbl : list (list (@dictEntry K V))) (n : nat) old c :
  tbl !! n = Some old →
  old ++ concat (<[n := c]> tbl) ≡ₚ c ++ concat tbl.
Proof.
  intros Hl.
  rewrite <- (take_drop_middle tbl n old Hl) at 2.
  rewrite insert_take_drop; [|by eapply lookup_lt_Some].
  rewrite !concat_app. simpl.
  set (a := concat (take n tbl)). set (b := concat (drop (S n) tbl)).
  rewrite (Permutation_app_swap_app old a), (Permutation_app_swap_app c a).
  f_equiv. apply Permutation_app_swap_app.
Qed.

Lemma table_set_entries h i old c h' :
  table_get h i = Some old → table_set h i c = Some h' →
  old ++ ht_entries h' ≡ₚ c ++ ht_entries h.
Proof.
  intros (tbl & Ht & Hi & Hl)%table_get_Some (tbl' & Ht' & _ & ->)%table_set_Some.
  rewrite Ht in Ht'. injection Ht' as <-.
  unfold ht_entries. simpl. rewrite Ht. simpl.
  by apply concat_insert_perm.
Qed.

Lemma elem_of_ht_entries h e :
  e ∈ ht_entries h ↔ ∃ i c, table_get h i = Some c ∧ e ∈ c.
Proof.
  unfold ht_entries. split.
  - intros (c & Hc & He)%list_elem_of_In%in_concat.
    apply list_elem_of_In in He. apply list_elem_of_In in Hc.
    destruct (table h) as [tbl|] eqn:Ht; simpl in *; [|by apply elem_of_nil in Hc].
    apply list_elem_of_lookup in Hc as [n Hn].
    exists (Z.of_nat n), c. split; [|done].
    by rewrite (table_get_nat h tbl).
  - intros (i & c & (tbl & Ht & Hi & Hl)%table_get_Some & He).
    rewrite Ht. simpl. apply list_elem_of_In, in_concat. exists c.
    split; apply list_elem_of_In; [|done].
    by eapply list_elem_of_lookup_2.
Qed.

(** *** Sizing *)

Lemma _dictNextPower_loop_spec sz fuel j :
  2 ≤ j ≤ 63 → (Z.to_nat (64 - j) ≤ fuel)%nat → sz < 2 ^ 63 →
  (∀ j', 2 ≤ j' < j → 2 ^ j' < sz) →
  ∃ j'', j ≤ j'' ≤ 63 ∧
    _dictNextPower_loop fuel (2 ^ j) sz = Some (2 ^ j'') ∧
    sz ≤ 2 ^ j'' ∧ ∀ j', 2 ≤ j' < j'' → 2 ^ j' < sz.
Proof.
  revert j. induction fuel as [|fuel IH]; intros j Hj Hfuel Hsz Hlow; [lia|].
  simpl. destruct (2 ^ j >=? sz) eqn:Hcmp.
  - exists j. repeat split; try lia. done.
  - rewrite Z.geb_leb in Hcmp. apply Z.leb_gt in Hcmp.
    assert (j < 63).
    { destruct (Z.eq_dec j 63) as [->|]; lia. }
    assert (to_ulong (2 ^ j * 2) = 2 ^ (j + 1)) as ->.
    { rewrite Z.pow_add_r by lia. apply to_ulong_small.
      assert (2 ^ j < 2 ^ 63) by (apply Z.pow_lt_mono_r; lia). lia. }
    destruct (IH (j + 1)) as (j'' & ? & ? & ? & ?); [lia|lia|done| |].
    { intros j' Hj'. destruct (Z.eq_dec j' j) as [->|]; [done|]. apply Hlow. lia. }
    exists j''. repeat split; try lia; done.
Qed.

Lemma _dictNextPower_spec sz :
  sz < LONG_MAX →
  ∃ r, _dictNextPower sz = Some r ∧ next_power_of sz r ∧ 4 ≤ r ≤ 2 ^ 63.
Proof.
  intros Hsz. unfold _dictNextPower, LONG_MAX in *.
  destruct (sz >=? 2 ^ 63 - 1) eqn:Hcmp; [rewrite Z.geb_leb in Hcmp; lia|].
  destruct (_dictNextPower_loop_spec sz 64 2) as (j & Hj & Heq & Hge & Hlow);
    [lia|lia|lia|lia|].
  exists (2 ^ j). split; [done|]. split.
  - split; [exists j; lia|]. split; [done|].
    intros j' Hj' Hle. destruct (Z_lt_le_dec j' j).
    + specialize (Hlow j'). lia.
    + apply Z.pow_le_mono_r; lia.
  - split.
    + change 4 with (2 ^ 2). apply Z.pow_le_mono_r; lia.
    + apply Z.pow_le_mono_r; lia.
Qed.

Lemma next_power_of_pow2 j r :
  2 ≤ j → next_power_of (2 ^ j) r → r = 2 ^ j.
Proof.
  intros Hj (_ & Hge & Hmin). specialize (Hmin j Hj). lia.
Qed.

Lemma next_power_of_unique m r r' :
  next_power_of m r → next_power_of m r' → r = r'.
Proof.
  intros ((j & Hj & ->) & Hge & Hmin) ((j' & Hj' & ->) & Hge' & Hmin').
  specialize (Hmin j' Hj' Hge'). specialize (Hmin' j Hj Hge). lia.
Qed.

Lemma dictIsRehashing_false d : dictIsRehashing d = false ↔ rehashidx d = -1.
Proof. unfold dictIsRehashing. rewrite negb_false_iff. apply Z.eqb_eq. Qed.

Lemma dictIsRehashing_true d : dictIsRehashing d = true ↔ rehashidx d ≠ -1.
Proof. unfold dictIsRehashing. rewrite negb_true_iff. apply Z.eqb_neq. Qed.

Lemma dictExpand_spec d sz :
  dictIsRehashing d = false → used (ht0 d) ≤ sz → sz < LONG_MAX →
  ∃ r, next_power_of sz r ∧ 4 ≤ r ≤ 2 ^ 63 ∧
       dictExpand d sz = Some (expanded d r, DICT_OK).
Proof.
  intros Hre Hused Hsz. unfold dictExpand. rewrite Hre. simpl.
  destruct (used (ht0 d) >? sz) eqn:Hcmp; [rewrite Z.gtb_ltb in Hcmp; lia|].
  destruct (_dictNextPower_spec sz Hsz) as (r & -> & Hr & Hb). simpl.
  exists r. split; [done|]. split; [done|].
  unfold expanded, fresh_ht. by destruct (table (ht0 d)).
Qed.

Lemma dictExpand_refused d sz :
  dictIsRehashing d = true ∨ sz < used (ht0 d) →
  dictExpand d sz = Some (d, DICT_ERR).
Proof.
  intros Hc. unfold dictExpand.
  destruct Hc as [->|Hlt]; [done|].
  assert ((used (ht0 d) >? sz) = true) as -> by (rewrite Z.gtb_ltb; lia).
  by rewrite orb_true_r.
Qed.

(** *** Resize policy *)

Lemma dictResize_refused gate d :
  gate = false ∨ dictIsRehashing d = true →
  dictResize gate d = Some (d, DICT_ERR).
Proof.
  intros Hc. unfold dictResize.
  destruct Hc as [->| ->]; [done|]. by rewrite orb_true_r.
Qed.

Lemma dictResize_accepted d :
  0 ≤ used (ht0 d) < 2 ^ 31 → dictIsRehashing d = false →
  ∃ r, next_power_of (Z.max (used (ht0 d)) DICT_HT_INITIAL_SIZE) r ∧
       dictResize true d = Some (expanded d r, DICT_OK).
Proof.
  intros Hused Hre. unfold dictResize. rewrite Hre. simpl.
  rewrite (to_int_small (used (ht0 d))) by lia.
  set (minimal := if used (ht0 d) <? DICT_HT_INITIAL_SIZE
                  then DICT_HT_INITIAL_SIZE else used (ht0 d)).
  assert (minimal = Z.max (used (ht0 d)) DICT_HT_INITIAL_SIZE) as Hmin.
  { unfold minimal, DICT_HT_INITIAL_SIZE.
    destruct (used (ht0 d) <? 4) eqn:Hcmp;
      [apply Z.ltb_lt in Hcmp|apply Z.ltb_ge in Hcmp]; lia. }
  rewrite Hmin. unfold DICT_HT_INITIAL_SIZE.
  rewrite to_ulong_small by lia.
  destruct (dictExpand_spec d (Z.max (used (ht0 d)) 4)) as (r & Hr & _ & ->);
    [done|lia|unfold LONG_MAX; lia|].
  by exists r.
Qed.

Lemma expanded_rehashing d r :
  dictIsRehashing d = false → dictIsRehashing (expanded d r) = true →
  ht0 (expanded d r) = ht0 d ∧ size (ht1 (expanded d r)) = r.
Proof.
  intros Hre Hre'. unfold expanded in *. destruct (table (ht0 d)); simpl in *.
  - done.
  - rewrite dictIsRehashing_true in Hre'. simpl in Hre'.
    apply dictIsRehashing_false in Hre. done.
Qed.

(** C9, as amended.  For a table of fewer than 2^31 entries, [dictResize]
    refuses, leaving the table as it is, exactly when the table is rehashing
    or the gate is disabled.  Otherwise it succeeds with a new array whose
    size is the smallest power of two at least [max(used, 4)]: on an
    allocated table the array becomes the incoming one and rehashing begins;
    on an unallocated table it becomes the primary array and the table stays
    stable. *)
Theorem dictResize_spec gate d :
  0 ≤ used (ht0 d) < 2 ^ 31 →
  (gate = false ∨ dictIsRehashing d = true →
     dictResize gate d = Some (d, DICT_ERR)) ∧
  (gate = true → dictIsRehashing d = false →
     ∃ r, next_power_of (Z.max (used (ht0 d)) DICT_HT_INITIAL_SIZE) r ∧
          dictResize gate d = Some (expanded d r, DICT_OK)) ∧
  (∀ d' res, dictResize gate d = Some (d', res) →
     (res = DICT_ERR ↔ gate = false ∨ dictIsRehashing d = true)).
Proof.
  intros Hused.
  split; [apply dictResize_refused|]. split.
  { intros ->. by apply dictResize_accepted. }
  intros d' res Hrun. split.
  - intros ->. destruct gate; [|by left].
    destruct (dictIsRehashing d) eqn:Hre; [by right|].
    destruct (dictResize_accepted d Hused Hre) as (r & _ & Heq).
    rewrite Heq in Hrun. injection Hrun as _ Hres. discriminate Hres.
  - intros Hc. rewrite dictResize_refused in Hrun by done. congruence.
Qed.

(** C4, as amended.  However rehashing is entered, the incoming array is
    large enough for the entries of the primary one: its size is a power of
    two, at least 4 and at least the primary array's occupied count at that
    moment.  Through [dictExpand] the size is the smallest such power at
    least the request; through the grow trigger it is at least twice the
    primary array's size.  (Through [dictExpand] and [dictResize] it may be
    smaller than the primary array's size: that is how a table shrinks.) *)
Theorem rehash_entry_size gate d :
  dictIsRehashing d = false →
  0 ≤ size (ht0 d) → 0 ≤ used (ht0 d) < 2 ^ 31 →
  (∀ sz d', sz < LONG_MAX →
     dictExpand d sz = Some (d', DICT_OK) → dictIsRehashing d' = true →
     ht0 d' = ht0 d ∧ next_power_of sz (size (ht1 d')) ∧
     used (ht0 d) ≤ size (ht1 d')) ∧
  (∀ d' res,
     dictResize gate d = Some (d', res) → dictIsRehashing d' = true →
     ht0 d' = ht0 d ∧
     next_power_of (Z.max (used (ht0 d)) DICT_HT_INITIAL_SIZE) (size (ht1 d')) ∧
     used (ht0 d) ≤ size (ht1 d')) ∧
  (∀ d' res,
     _dictExpandIfNeeded gate d = Some (d', res) → dictIsRehashing d' = true →
     ht0 d' = ht0 d ∧
     (∃ j, 2 ≤ j ∧ size (ht1 d') = 2 ^ j) ∧
     used (ht0 d) ≤ size (ht1 d') ∧
     2 * size (ht0 d) ≤ size (ht1 d')).
Proof.
  intros Hre Hsize Hused.
  assert (∀ sz d' res, sz < LONG_MAX →
     dictExpand d sz = Some (d', res) → dictIsRehashing d' = true →
     ht0 d' = ht0 d ∧ next_power_of sz (size (ht1 d')) ∧
     used (ht0 d) ≤ size (ht1 d')) as Hexp.
  { intros sz d' res Hsz Hrun Hre'.
    destruct (Z_lt_le_dec sz (used (ht0 d))) as [Hlt|Hle].
    { rewrite dictExpand_refused in Hrun by auto. congruence. }
    destruct (dictExpand_spec d sz) as (r & Hr & _ & Heq); [done..|].
    rewrite Heq in Hrun. injection Hrun as <- <-.
    destruct (expanded_rehashing d r Hre Hre') as [-> ->].
    split; [done|]. split; [done|]. destruct Hr as (_ & ? & _). lia. }
  split; [|split].
  - intros sz d' Hsz Hrun Hre'. by eapply Hexp.
  - intros d' res Hrun Hre'.
    destruct gate.
    2:{ rewrite dictResize_refused in Hrun by auto. congruence. }
    destruct (dictResize_accepted d Hused Hre) as (r & Hr & Heq).
    rewrite Heq in Hrun. injection Hrun as <- <-.
    destruct (expanded_rehashing d r Hre Hre') as [-> ->].
    split; [done|]. split; [done|]. destruct Hr as (_ & ? & _). lia.
  - intros d' res. unfold _dictExpandIfNeeded. rewrite Hre.
    destruct (size (ht0 d) =? 0) eqn:Hz.
    { apply Z.eqb_eq in Hz. intros Hrun Hre'.
      destruct (Hexp DICT_HT_INITIAL_SIZE d' res) as (? & Hr & ?);
        [unfold DICT_HT_INITIAL_SIZE, LONG_MAX; lia|done..|].
      destruct Hr as (Hpow & ? & _). unfold DICT_HT_INITIAL_SIZE in *.
      split; [done|]. split; [done|]. lia. }
    destruct ((used (ht0 d) >=? size (ht0 d)) && _) eqn:Htrig.
    2:{ intros [= <- <-]. congruence. }
    apply andb_true_iff in Htrig as [Hge _].
    rewrite Z.geb_leb in Hge. apply Z.leb_le in Hge.
    assert ((size (ht0 d) >? used (ht0 d)) = false) as ->.
    { rewrite Z.gtb_ltb. apply Z.ltb_ge. lia. }
    rewrite to_ulong_small by lia.
    intros Hrun Hre'.
    destruct (Hexp (used (ht0 d) * 2) d' res) as (? & Hr & ?);
      [unfold LONG_MAX; lia|done..|].
    destruct Hr as (Hpow & ? & _).
    split; [done|]. split; [done|]. lia.
Qed.

(** C6, as amended.  On a table that is not rehashing the grow trigger
    initialises an unallocated primary array at 4 slots; on an allocated one
    with [used >= size], and the gate enabled or the integer quotient
    [used / size] above 5, it begins rehashing into an array whose size is
    the smallest power of two at least [2 * used], which is double the
    current size when [used = size]; otherwise it leaves the table alone. *)
Theorem _dictExpandIfNeeded_spec gate d :
  dictIsRehashing d = false → 0 ≤ used (ht0 d) < 2 ^ 62 →
  (ht0 d = _dictReset →
     _dictExpandIfNeeded gate d =
       Some (set_ht0 d (fresh_ht DICT_HT_INITIAL_SIZE), DICT_OK)) ∧
  (is_Some (table (ht0 d)) → size (ht0 d) ≠ 0 →
   size (ht0 d) ≤ used (ht0 d) →
   gate = true ∨ dict_force_resize_ratio < used (ht0 d) / size (ht0 d) →
     ∃ r, next_power_of (2 * used (ht0 d)) r ∧
          _dictExpandIfNeeded gate d =
            Some (set_rehashidx (set_ht1 d (fresh_ht r)) 0, DICT_OK) ∧
          (used (ht0 d) = size (ht0 d) → (∃ j, 2 ≤ j ∧ size (ht0 d) = 2 ^ j) →
             r = 2 * size (ht0 d))) ∧
  (size (ht0 d) ≠ 0 →
   ¬ (size (ht0 d) ≤ used (ht0 d) ∧
      (gate = true ∨ dict_force_resize_ratio < used (ht0 d) / size (ht0 d))) →
     _dictExpandIfNeeded gate d = Some (d, DICT_OK)).
Proof.
  intros Hre Hused. unfold _dictExpandIfNeeded. rewrite Hre.
  split; [|split].
  - intros Hreset. rewrite Hreset. simpl.
    destruct (dictExpand_spec d DICT_HT_INITIAL_SIZE) as (r & Hr & _ & ->);
      [done|rewrite Hreset; simpl; unfold DICT_HT_INITIAL_SIZE; lia
      |unfold DICT_HT_INITIAL_SIZE, LONG_MAX; lia|].
    assert (r = 2 ^ 2) as ->.
    { apply (next_power_of_pow2 2); [lia|]. exact Hr. }
    unfold expanded. rewrite Hreset. done.
  - intros [tbl Htbl] Hnz Hge Htrig.
    assert ((size (ht0 d) =? 0) = false) as -> by by apply Z.eqb_neq.
    assert ((used (ht0 d) >=? size (ht0 d)) = true) as ->.
    { rewrite Z.geb_leb. by apply Z.leb_le. }
    assert (gate || (used (ht0 d) / size (ht0 d) >? dict_force_resize_ratio) = true) as ->.
    { destruct Htrig as [->|Hlt]; [done|].
      rewrite Z.gtb_ltb. apply Z.ltb_lt in Hlt. rewrite Hlt. apply orb_true_r. }
    simpl.
    assert ((size (ht0 d) >? used (ht0 d)) = false) as ->.
    { rewrite Z.gtb_ltb. apply Z.ltb_ge. lia. }
    rewrite to_ulong_small by lia.
    destruct (dictExpand_spec d (used (ht0 d) * 2)) as (r & Hr & _ & ->);
      [done|lia|unfold LONG_MAX; lia|].
    exists r. rewrite Z.mul_comm in Hr. split; [done|]. split.
    + unfold expanded. by rewrite Htbl.
    + intros Heq (j & Hj & Hsz). rewrite Heq, Hsz in *.
      replace (2 * 2 ^ j) with (2 ^ (j + 1)) in *
        by (rewrite Z.pow_add_r by lia; lia).
      apply (next_power_of_pow2 (j + 1)); [lia|done].
  - intros Hnz Hno.
    assert ((size (ht0 d) =? 0) = false) as -> by by apply Z.eqb_neq.
    destruct ((used (ht0 d) >=? size (ht0 d)) && _) eqn:Htrig; [|done].
    exfalso. apply Hno.
    apply andb_true_iff in Htrig as [Hge Hor].
    rewrite Z.geb_leb in Hge. apply Z.leb_le in Hge. split; [done|].
    apply orb_true_iff in Hor as [->|Hgt]; [by left|right].
    rewrite Z.gtb_ltb in Hgt. by apply Z.ltb_lt.
Qed.

(** *** The rehash step *)

Lemma skip_empty_spec (rest : list (list (@dictEntry K V))) idx j :
  skip_empty rest idx = Some j →
  ∃ n : nat, j = idx + Z.of_nat n ∧
    (∀ m : nat, (m < n)%nat → rest !! m = Some []) ∧
    ∃ e c, rest !! n = Some (e :: c).
Proof.
  revert idx. induction rest as [|[|e c] rest IH]; intros idx; simpl; [done| |].
  - unfold int_incr. case_bool_decide; [|done]. simpl.
    intros (n & -> & Hempty & Hn)%IH.
    exists (S n). split; [lia|]. split; [|done].
    intros [|m] Hm; [done|]. simpl. apply Hempty. lia.
  - intros [= <-]. exists 0%nat. split; [lia|]. split; [lia|]. by exists e, c.
Qed.

Lemma skip_empty_total (rest : list (list (@dictEntry K V))) idx :
  idx + Z.of_nat (length rest) ≤ INT_MAX →
  (∃ (n : nat) e c, rest !! n = Some (e :: c)) →
  is_Some (skip_empty rest idx).
Proof.
  revert idx. induction rest as [|[|e c] rest IH]; intros idx Hb (n & e' & c' & Hn);
    simpl in *; [done| |done].
  destruct n as [|n]; [done|]. simpl in Hn.
  unfold int_incr. rewrite bool_decide_true by lia. simpl.
  apply IH; [lia|]. by exists n, e', c'.
Qed.

Lemma iter_decr_swap n u :
  Nat.iter n (λ u, to_ulong (u - 1)) (to_ulong (u - 1)) =
  to_ulong (Nat.iter n (λ u, to_ulong (u - 1)) u - 1).
Proof. apply (Nat.iter_swap n Z (λ u, to_ulong (u - 1))). Qed.

Lemma iter_incr_swap n u :
  Nat.iter n (λ u, to_ulong (u + 1)) (to_ulong (u + 1)) =
  to_ulong (Nat.iter n (λ u, to_ulong (u + 1)) u + 1).
Proof. apply (Nat.iter_swap n Z (λ u, to_ulong (u + 1))). Qed.

Lemma iter_decr_small n u :
  Z.of_nat n ≤ u < 2 ^ 64 →
  Nat.iter n (λ u, to_ulong (u - 1)) u = u - Z.of_nat n.
Proof.
  induction n as [|n IH]; intros Hu; simpl; [lia|].
  rewrite IH by lia. rewrite to_ulong_small; lia.
Qed.

Lemma iter_incr_small n u :
  0 ≤ u → u + Z.of_nat n < 2 ^ 64 →
  Nat.iter n (λ u, to_ulong (u + 1)) u = u + Z.of_nat n.
Proof.
  induction n as [|n IH]; intros Hu Hn; simpl; [lia|].
  rewrite IH by lia. rewrite to_ulong_small; lia.
Qed.

(** The chain a slot of [ht[1]] holds once the entries [de] have been
    pushed on the heads of their slots one after the other: its own entries
    of [de], last first, before what it held. *)
Lemma rehash_chain_spec de h0 h1 tbl1 :
  table h1 = Some tbl1 → Z.of_nat (length tbl1) = size h1 →
  0 < size h1 → sizemask h1 = size h1 - 1 →
  ∃ h1', rehash_chain de h0 h1 =
           Some (set_used h0 (Nat.iter (length de) (λ u, to_ulong (u - 1)) (used h0)),
                 set_used h1' (Nat.iter (length de) (λ u, to_ulong (u + 1)) (used h1))) ∧
    size h1' = size h1 ∧ sizemask h1' = sizemask h1 ∧
    (∃ tbl1', table h1' = Some tbl1' ∧ length tbl1' = length tbl1) ∧
    (∀ j c, table_get h1 j = Some c →
       table_get h1' j =
         Some (reverse (filter (λ e, slot_of h1 (key e) = j) de) ++ c)) ∧
    ht_entries h1' ≡ₚ de ++ ht_entries h1.
Proof.
  revert h0 h1 tbl1.
  induction de as [|e de IH]; intros h0 h1 tbl1 Ht Hlen Hsz Hmask.
  - exists h1. simpl. split.
    { unfold set_used. by destruct h0, h1. }
    repeat split; eauto.
  - simpl.
    pose proof (dictHashKey_range (key e)) as Hh.
    destruct (land_mask_range (dictHashKey (key e)) (sizemask h1)) as (Hl0 & Hl1 & Hl2);
      [lia..|].
    rewrite to_uint_small by lia.
    fold (slot_of h1 (key e)) in *. set (s := slot_of h1 (key e)) in *.
    assert (0 ≤ s < Z.of_nat (length tbl1)) as Hs by lia.
    destruct (lookup_lt_is_Some_2 tbl1 (Z.to_nat s)) as [c Hc]; [lia|].
    rewrite (table_get_lookup h1 tbl1) by (done || lia). rewrite Hc. simpl.
    rewrite (table_set_is_Some h1 tbl1) by done. simpl.
    set (h1a := mkHt (Some (<[Z.to_nat s:=e :: c]> tbl1)) (size h1) (sizemask h1) (used h1)).
    destruct (IH (set_used h0 (to_ulong (used h0 - 1)))
                 (set_used h1a (to_ulong (used h1a + 1)))
                 (<[Z.to_nat s:=e :: c]> tbl1))
      as (h1' & Heq & Hsz' & Hmask' & (tbl1' & Ht' & Hlen') & Hget & Hperm);
      [done|simpl; by rewrite length_insert|done|done|].
    exists h1'. split.
    { refine (eq_trans Heq _). simpl. by rewrite iter_decr_swap, iter_incr_swap. }
    split; [done|]. split; [done|]. split.
    { exists tbl1'. split; [done|]. by rewrite Hlen', length_insert. }
    split.
    + intros j cj Hj.
      assert (slot_of (set_used h1a (to_ulong (used h1a + 1))) = slot_of h1) as Hslot by done.
      rewrite filter_cons. fold s. destruct (decide (s = j)) as [<-|Hne].
      * rewrite (Hget s (e :: c)).
        -- rewrite Hslot, reverse_cons, <- app_assoc. simpl.
           rewrite (table_get_lookup h1 tbl1) in Hj by (done || lia). congruence.
        -- unfold table_get. simpl. rewrite bool_decide_true by lia.
           apply list_lookup_insert_eq. lia.
      * rewrite (Hget j cj); [by rewrite Hslot|].
        destruct (table_get_Some _ _ _ Hj) as (? & ? & ? & ?).
        unfold table_get. simpl. rewrite bool_decide_true by lia.
        rewrite list_lookup_insert_ne by lia.
        rewrite (table_get_lookup h1 tbl1) in Hj by (done || lia). done.
    + rewrite Hperm. unfold ht_entries. simpl. rewrite Ht. simpl.
      pose proof (concat_insert_perm tbl1 (Z.to_nat s) c (e :: c) Hc) as Hins.
      apply (Permutation_app_inv_l c).
      rewrite (Permutation_app_swap_app c de), Hins. simpl.
      rewrite <- !Permutation_middle. f_equiv. apply Permutation_app_swap_app.
Qed.

Lemma rehash_chain_source de h0 h1 h0' h1' :
  rehash_chain de h0 h1 = Some (h0', h1') → table h0' = table h0.
Proof.
  revert h0 h1. induction de as [|e de IH]; intros h0 h1; simpl.
  - intros [= <- <-]. done.
  - destruct (table_get _ _); simpl; [|done].
    destruct (table_set _ _ _); simpl; [|done].
    intros Hrec%IH. by rewrite Hrec.
Qed.

#[local] Arguments rehash_chain : simpl never.
#[local] Arguments skip_empty : simpl never.

Lemma concat_nonempty_slot (tbl : list (list (@dictEntry K V))) :
  length (concat tbl) ≠ 0%nat → ∃ (n : nat) e c, tbl !! n = Some (e :: c).
Proof.
  induction tbl as [|[|e c] tbl IH]; simpl; [done| |].
  - intros (n & e & c & Hn)%IH. by exists (S n), e, c.
  - intros _. by exists 0%nat, e, c.
Qed.

Lemma ht_wf_alloc h tbl :
  ht_wf h → table h = Some tbl →
  Z.of_nat (length tbl) = size h ∧ 0 < size h ≤ 2 ^ 30 ∧
  sizemask h = size h - 1 ∧ used h = Z.of_nat (length (ht_entries h)) ∧
  ∀ (i : nat) c, tbl !! i = Some c →
    Forall (λ e, slot_of h (key e) = Z.of_nat i) c.
Proof.
  unfold ht_wf, ht_entries. intros Hwf Ht. rewrite Ht in *. simpl. tauto.
Qed.

Lemma ht_wf_used h : ht_wf h → used h = Z.of_nat (length (ht_entries h)).
Proof.
  unfold ht_wf, ht_entries. destruct (table h); simpl; [tauto|]. lia.
Qed.

Lemma ht_wf_slot h i c e :
  ht_wf h → table_get h i = Some c → e ∈ c → slot_of h (key e) = i.
Proof.
  intros Hwf (tbl & Ht & Hi & Hl)%table_get_Some He.
  destruct (ht_wf_alloc h tbl Hwf Ht) as (_ & _ & _ & _ & Hslots).
  specialize (Hslots _ _ Hl). rewrite Forall_forall in Hslots.
  rewrite (Hslots e He). lia.
Qed.

(** The slot of a key lies inside an allocated array. *)
Lemma slot_of_range h tbl k :
  ht_wf h → table h = Some tbl →
  0 ≤ slot_of h k < Z.of_nat (length tbl) ∧ slot_of h k < 2 ^ 31 ∧
  to_uint (slot_of h k) = slot_of h k ∧ to_int (slot_of h k) = slot_of h k.
Proof.
  intros Hwf Ht. destruct (ht_wf_alloc h tbl Hwf Ht) as (Hlen & Hsz & Hmask & _).
  pose proof (dictHashKey_range k).
  destruct (land_mask_range (dictHashKey k) (sizemask h)) as (? & ? & ?); [lia..|].
  fold (slot_of h k) in *.
  assert (slot_of h k < 2 ^ 31) by lia.
  repeat split; try lia.
  - apply to_uint_small. lia.
  - apply to_int_small. lia.
Qed.

Lemma ht_wf_intro tbl sz mask u :
  Z.of_nat (length tbl) = sz → 0 < sz ≤ 2 ^ 30 → mask = sz - 1 →
  u = Z.of_nat (length (concat tbl)) →
  (∀ (i : nat) c, tbl !! i = Some c →
     Forall (λ e, Z.land (dictHashKey (key e)) mask = Z.of_nat i) c) →
  ht_wf (@mkHt K V (Some tbl) sz mask u).
Proof. intros. unfold ht_wf. simpl. done. Qed.

Lemma dict_wf_rehashing d :
  dict_wf d → dictIsRehashing d = true →
  ∃ tbl0 tbl1, table (ht0 d) = Some tbl0 ∧ table (ht1 d) = Some tbl1 ∧
    ht_wf (ht0 d) ∧ ht_wf (ht1 d) ∧ used (ht0 d) + used (ht1 d) ≤ 2 ^ 29 ∧
    0 ≤ rehashidx d ≤ size (ht0 d) ∧ cursor_inv d.
Proof.
  intros (Hwf0 & Hwf1 & Hsum & Hre) Hr. rewrite Hr in Hre.
  destruct Hre as (Hidx & [tbl0 Ht0] & [tbl1 Ht1] & Hcur).
  by exists tbl0, tbl1.
Qed.

Lemma ht_wf_used_nonneg h : ht_wf h → 0 ≤ used h.
Proof. intros ->%ht_wf_used. lia. Qed.

(** One pass of the loop of [dictRehash] on a well-formed table that still
    has entries in its primary array. *)
Lemma dictRehash_body_step d :
  dict_wf d → dictIsRehashing d = true → used (ht0 d) ≠ 0 →
  ∃ (j : Z) de d',
    dictRehash_body d = Some (inl d') ∧
    rehashidx d ≤ j < size (ht0 d) ∧
    (∀ i, rehashidx d ≤ i < j → table_get (ht0 d) i = Some []) ∧
    table_get (ht0 d) j = Some de ∧ de ≠ [] ∧
    rehashidx d' = j + 1 ∧ iterators d' = iterators d ∧
    size (ht0 d') = size (ht0 d) ∧ sizemask (ht0 d') = sizemask (ht0 d) ∧
    used (ht0 d') = used (ht0 d) - Z.of_nat (length de) ∧
    table_get (ht0 d') j = Some [] ∧
    (∀ i, i ≠ j → table_get (ht0 d') i = table_get (ht0 d) i) ∧
    size (ht1 d') = size (ht1 d) ∧ sizemask (ht1 d') = sizemask (ht1 d) ∧
    used (ht1 d') = used (ht1 d) + Z.of_nat (length de) ∧
    (∀ i c, table_get (ht1 d) i = Some c →
       table_get (ht1 d') i =
         Some (reverse (filter (λ e, slot_of (ht1 d) (key e) = i) de) ++ c)) ∧
    dict_wf d' ∧ dict_entries d' ≡ₚ dict_entries d.
Proof.
  intros Hwf Hre Hused.
  destruct (dict_wf_rehashing d Hwf Hre)
    as (tbl0 & tbl1 & Ht0 & Ht1 & Hwf0 & Hwf1 & Hsum & Hidx & Hcur).
  destruct (ht_wf_alloc _ _ Hwf0 Ht0) as (Hlen0 & Hsz0 & Hmask0 & Hu0 & Hslots0).
  destruct (ht_wf_alloc _ _ Hwf1 Ht1) as (Hlen1 & Hsz1 & Hmask1 & Hu1 & Hslots1).
  pose proof (ht_wf_used_nonneg _ Hwf0). pose proof (ht_wf_used_nonneg _ Hwf1).
  (* a non-empty slot, necessarily at or above the cursor *)
  destruct (concat_nonempty_slot tbl0) as (n & e0 & c0 & Hn).
  { unfold ht_entries in Hu0. rewrite Ht0 in Hu0. simpl in Hu0. lia. }
  assert (rehashidx d ≤ Z.of_nat n) as Hnidx.
  { destruct (Z_lt_le_dec (Z.of_nat n) (rehashidx d)) as [Hlt|]; [|done].
    assert (e0 :: c0 = []); [|done].
    apply (Hcur (Z.of_nat n)); [lia|]. by rewrite (table_get_nat _ tbl0). }
  pose proof (lookup_lt_Some _ _ _ Hn) as Hnlt.
  unfold dictRehash_body.
  assert ((used (ht0 d) =? 0) = false) as -> by by apply Z.eqb_neq.
  rewrite (to_uint_small (rehashidx d)) by lia.
  assert ((size (ht0 d) >? rehashidx d) = true) as ->.
  { rewrite Z.gtb_ltb. apply Z.ltb_lt. lia. }
  simpl. rewrite Ht0. simpl. rewrite bool_decide_false by lia.
  (* the scan for the first non-empty slot *)
  destruct (skip_empty_total (drop (Z.to_nat (rehashidx d)) tbl0) (rehashidx d))
    as [j Hj].
  { rewrite length_drop. unfold INT_MAX. lia. }
  { exists (n - Z.to_nat (rehashidx d))%nat, e0, c0.
    rewrite lookup_drop. rewrite <- Hn. f_equal. lia. }
  rewrite Hj. simpl.
  destruct (skip_empty_spec _ _ _ Hj) as (m & -> & Hempty & e & c & Hm).
  rewrite lookup_drop in Hm.
  pose proof (lookup_lt_Some _ _ _ Hm) as Hmlt.
  set (j := rehashidx d + Z.of_nat m) in *.
  assert (Z.to_nat j = (Z.to_nat (rehashidx d) + m)%nat) as Hjn by lia.
  rewrite <- Hjn in Hm.
  rewrite (table_get_lookup _ tbl0) by (done || lia). rewrite Hm. simpl.
  (* the chain moves to the incoming array *)
  remember (e :: c) as de eqn:Hde.
  pose proof (concat_insert_perm tbl0 (Z.to_nat j) de [] Hm) as Hp0.
  assert (Z.of_nat (length de) ≤ used (ht0 d)) as Hdele.
  { unfold ht_entries in Hu0. rewrite Ht0 in Hu0. simpl in Hu0.
    apply Permutation_length in Hp0. rewrite length_app in Hp0.
    simpl in Hp0. lia. }
  destruct (rehash_chain_spec de (ht0 d) (ht1 d) tbl1)
    as (h1' & Hrc & Hsz' & Hmask' & (tbl1' & Ht1' & Hlen1') & Hget & Hperm);
    [done..|lia|done|].
  rewrite iter_decr_small, iter_incr_small in Hrc by lia.
  rewrite Hrc. simpl.
  rewrite (table_set_is_Some _ tbl0) by (done || simpl; lia). simpl.
  unfold int_incr, INT_MAX. rewrite bool_decide_true by lia. simpl.
  eexists j, de, _. split; [reflexivity|]. simpl.
  split; [lia|]. split.
  { intros i Hi. rewrite (table_get_lookup _ tbl0) by (done || lia).
    specialize (Hempty (Z.to_nat i - Z.to_nat (rehashidx d))%nat).
    rewrite lookup_drop in Hempty. rewrite <- Hempty by lia. f_equal. lia. }
  split. { by rewrite (table_get_lookup _ tbl0) by (done || lia). }
  split; [by subst de|]. split; [done|]. split; [done|]. split; [done|].
  split; [done|]. split; [done|]. split.
  { unfold table_get. simpl. rewrite bool_decide_true by lia.
    apply list_lookup_insert_eq. lia. }
  split.
  { intros i Hi. unfold table_get. simpl. rewrite Ht0. simpl.
    case_bool_decide; [|done]. apply list_lookup_insert_ne. lia. }
  split; [done|]. split; [done|]. split; [done|]. split; [done|].
  split.
  - (* well-formedness *)
    unfold dict_wf. simpl. split; [|split; [|split]].
    + apply ht_wf_intro; [by rewrite length_insert|done|done| |].
      * unfold ht_entries in Hu0. rewrite Ht0 in Hu0. simpl in Hu0.
        apply Permutation_length in Hp0. rewrite length_app in Hp0.
        simpl in Hp0. lia.
      * intros i ci Hi. destruct (decide (i = Z.to_nat j)) as [->|Hne].
        -- rewrite list_lookup_insert_eq in Hi by lia. by injection Hi as <-.
        -- rewrite list_lookup_insert_ne in Hi by done. by apply Hslots0.
    + unfold ht_wf. simpl. rewrite Ht1'. split; [lia|]. split; [lia|].
      split; [lia|]. split.
      * apply Permutation_length in Hperm. unfold ht_entries in Hperm, Hu1.
        rewrite Ht1' in Hperm. rewrite Ht1 in Hperm, Hu1. simpl in *.
        rewrite length_app in Hperm. lia.
      * intros i ci Hi.
        destruct (lookup_lt_is_Some_2 tbl1 i) as [ci0 Hci0].
        { rewrite <- Hlen1'. by eapply lookup_lt_Some. }
        specialize (Hget (Z.of_nat i) ci0).
        rewrite (table_get_nat _ tbl1) in Hget by done.
        rewrite (table_get_nat _ tbl1') in Hget by done.
        rewrite Hget in Hi by done. injection Hi as <-.
        apply Forall_app. split.
        -- apply Forall_forall. intros x Hx. rewrite elem_of_reverse in Hx.
           apply list_elem_of_filter in Hx as [Hx _].
           unfold slot_of in *. simpl. by rewrite Hmask'.
        -- eapply Forall_impl; [by apply Hslots1|]. simpl.
           intros x Hx. unfold slot_of in *. simpl. by rewrite Hmask'.
    + lia.
    + assert (dictIsRehashing
                (mkDict (mkHt (Some (<[Z.to_nat j:=[]]> tbl0)) (size (ht0 d))
                   (sizemask (ht0 d)) (used (ht0 d) - Z.of_nat (length de)))
                   (set_used h1' (used (ht1 d) + Z.of_nat (length de)))
                   (j + 1) (iterators d)) = true) as ->.
      { apply dictIsRehashing_true. simpl. lia. }
      simpl. split; [lia|]. split; [done|]. split; [by rewrite Ht1'|].
      intros i ci Hi. unfold table_get. simpl. case_bool_decide; [|done].
      destruct (decide (i = j)) as [->|Hne].
      * rewrite list_lookup_insert_eq by lia. congruence.
      * rewrite list_lookup_insert_ne by lia. intros Hl.
        destruct (Z_lt_le_dec i (rehashidx d)).
        -- apply (Hcur i); [lia|]. by rewrite (table_get_lookup _ tbl0).
        -- specialize (Hempty (Z.to_nat i - Z.to_nat (rehashidx d))%nat).
           rewrite lookup_drop in Hempty.
           replace (Z.to_nat (rehashidx d) + (Z.to_nat i - Z.to_nat (rehashidx d)))%nat
             with (Z.to_nat i) in Hempty by lia.
           rewrite Hempty in Hl by (simpl in *; lia). congruence.
  - (* the entries are the same *)
    unfold dict_entries. simpl.
    assert (ht_entries (set_used h1' (used (ht1 d) + Z.of_nat (length de)))
            = ht_entries h1') as -> by done.
    rewrite Hperm. unfold ht_entries at 1 3. simpl. rewrite Ht0. simpl.
    simpl in Hp0. rewrite <- Hp0. by rewrite (assoc app), (comm app _ de).
Qed.

Lemma dictRehash_body_inr d d' :
  dictRehash_body d = Some (inr d') → used (ht0 d) = 0 ∧ d' = promoted d.
Proof.
  unfold dictRehash_body. destruct (used (ht0 d) =? 0) eqn:Hu.
  - intros [= <-]. by apply Z.eqb_eq in Hu.
  - destruct (negb _); [done|]. destruct (table (ht0 d)); simpl; [|done].
    case_bool_decide; [done|].
    destruct (skip_empty _ _); simpl; [|done].
    destruct (table_get _ _); simpl; [|done].
    destruct (rehash_chain _ _ _) as [[h0 h1]|]; simpl; [|done].
    destruct (table_set _ _ _); simpl; [|done].
    destruct (int_incr _); simpl; done.
Qed.

Lemma dictRehash_body_inl d d' :
  dictRehash_body d = Some (inl d') →
  used (ht0 d) ≠ 0 ∧ 0 ≤ rehashidx d < rehashidx d' ∧ iterators d' = iterators d.
Proof.
  unfold dictRehash_body. destruct (used (ht0 d) =? 0) eqn:Hu; [done|].
  apply Z.eqb_neq in Hu.
  destruct (negb _); [done|]. destruct (table (ht0 d)); simpl; [|done].
  case_bool_decide; [done|].
  destruct (skip_empty _ _) as [j|] eqn:Hj; simpl; [|done].
  destruct (table_get _ _); simpl; [|done].
  destruct (rehash_chain _ _ _) as [[h0 h1]|]; simpl; [|done].
  destruct (table_set _ _ _); simpl; [|done].
  unfold int_incr. case_bool_decide; simpl; [|done].
  intros [= <-]. simpl.
  apply skip_empty_spec in Hj as (n & -> & _).
  repeat split; try done; lia.
Qed.

Lemma dictRehash_body_done d :
  used (ht0 d) = 0 → dictRehash_body d = Some (inr (promoted d)).
Proof. intros Hu. unfold dictRehash_body. by rewrite Hu. Qed.

Lemma ht_wf_reset : ht_wf (@_dictReset K V).
Proof. by unfold ht_wf. Qed.

Lemma ht_wf_no_entries h : ht_wf h → used h = 0 → ht_entries h = [].
Proof.
  intros Hu%ht_wf_used Hz. rewrite Hz in Hu.
  apply length_zero_iff_nil. lia.
Qed.

Lemma promoted_wf d :
  dict_wf d → used (ht0 d) = 0 →
  dict_wf (promoted d) ∧ dict_entries (promoted d) = dict_entries d.
Proof.
  intros (Hwf0 & Hwf1 & Hsum & _) Hu. split.
  - unfold dict_wf, promoted. simpl. split; [done|].
    split; [apply ht_wf_reset|]. split; [lia|done].
  - unfold dict_entries, promoted. simpl.
    rewrite (ht_wf_no_entries (ht0 d)) by done.
    unfold ht_entries at 2. simpl. by rewrite app_nil_r.
Qed.

(** A single rehash step on a well-formed, rehashing table returns, keeps
    the table well formed and keeps its entries. *)
Lemma dictRehash_one_wf d :
  dict_wf d → dictIsRehashing d = true →
  ∃ d' r, dictRehash d 1 = Some (d', r) ∧
    dict_wf d' ∧ dict_entries d' ≡ₚ dict_entries d ∧
    iterators d' = iterators d.
Proof.
  intros Hwf Hre. unfold dictRehash. rewrite Hre. simpl.
  destruct (Z.eq_dec (used (ht0 d)) 0) as [Hu|Hu].
  - rewrite dictRehash_body_done by done. simpl.
    destruct (promoted_wf d Hwf Hu) as [? Heq].
    exists (promoted d), 0. by rewrite Heq.
  - destruct (dictRehash_body_step d Hwf Hre Hu)
      as (j & de & d' & -> & _ & _ & _ & _ & _ & Hit & _ & _ & _ & _ & _ & _ & _ & _ & _ & Hwf' & Hperm).
    simpl. by exists d', 1.
Qed.

Lemma _dictRehashStep_wf d :
  dict_wf d → dictIsRehashing d = true →
  ∃ d', _dictRehashStep d = Some d' ∧
    dict_wf d' ∧ dict_entries d' ≡ₚ dict_entries d ∧
    iterators d' = iterators d.
Proof.
  intros Hwf Hre. unfold _dictRehashStep.
  destruct (iterators d =? 0); [|by exists d].
  destruct (dictRehash_one_wf d Hwf Hre) as (d' & r & -> & ? & ? & ?).
  by exists d'.
Qed.

Lemma amortized_step_wf d :
  dict_wf d →
  ∃ d', amortized_step d = Some d' ∧
    dict_wf d' ∧ dict_entries d' ≡ₚ dict_entries d ∧
    iterators d' = iterators d ∧
    (size (ht0 d) ≠ 0 → size (ht0 d') ≠ 0).
Proof.
  intros Hwf. unfold amortized_step.
  destruct (dictIsRehashing d) eqn:Hre; [|by exists d].
  unfold _dictRehashStep.
  destruct (iterators d =? 0); [|by exists d].
  unfold dictRehash. rewrite Hre. simpl.
  destruct (dict_wf_rehashing d Hwf Hre)
    as (tbl0 & tbl1 & Ht0 & Ht1 & Hwf0 & Hwf1 & _).
  destruct (Z.eq_dec (used (ht0 d)) 0) as [Hu|Hu].
  - rewrite dictRehash_body_done by done. simpl.
    destruct (promoted_wf d Hwf Hu) as [? Heq].
    exists (promoted d). rewrite Heq.
    split; [done|]. split; [done|]. split; [done|]. split; [done|].
    simpl. destruct (ht_wf_alloc _ _ Hwf1 Ht1) as (_ & ? & _). lia.
  - destruct (dictRehash_body_step d Hwf Hre Hu)
      as (j & de & d' & -> & _ & _ & _ & _ & _ & Hit & Hsz & _ & _ & _ & _ & _ & _ & _ & _ & Hwf' & Hperm).
    simpl. exists d'.
    split; [done|]. split; [done|]. split; [done|]. split; [done|].
    by rewrite Hsz.
Qed.

(** *** Chains *)

#[local] Arguments dictCompareKeys : simpl never.

Lemma matching_nil_iff k (l : list (@dictEntry K V)) :
  matching k l = [] ↔ ∀ e, e ∈ l → dictCompareKeys k (key e) = false.
Proof.
  unfold matching. induction l as [|x l IH]; simpl.
  - split; [|done]. intros _ e He. by apply elem_of_nil in He.
  - rewrite filter_cons. destruct (decide _) as [Hx|Hx].
    + split; [done|]. intros Hall. specialize (Hall x (list_elem_of_here _ _)).
      congruence.
    + rewrite IH. apply not_true_is_false in Hx. split.
      * intros Hall e [->|He]%elem_of_cons; auto.
      * intros Hall e He. apply Hall. by right.
Qed.

Lemma chain_find_head k c : chain_find k c = head (matching k c).
Proof.
  unfold matching. induction c as [|e c IH]; simpl; [done|].
  rewrite filter_cons. destruct (dictCompareKeys k (key e)) eqn:He.
  - by rewrite decide_True.
  - by rewrite decide_False by congruence.
Qed.

Lemma chain_find_Some k c e :
  chain_find k c = Some e → e ∈ c ∧ dictCompareKeys k (key e) = true.
Proof.
  rewrite chain_find_head. intros He%head_Some_elem_of.
  apply list_elem_of_filter in He. tauto.
Qed.

Lemma chain_find_None k c : chain_find k c = None ↔ matching k c = [].
Proof. rewrite chain_find_head. apply head_None. Qed.

Lemma chain_unlink_None k c : chain_unlink k c = None ↔ matching k c = [].
Proof.
  unfold matching. induction c as [|e c IH]; simpl; [done|].
  rewrite filter_cons. destruct (dictCompareKeys k (key e)) eqn:He.
  - by rewrite decide_True.
  - rewrite decide_False by congruence. rewrite <- IH.
    destruct (chain_unlink k c); simpl; done.
Qed.

Lemma chain_unlink_Some k c c' :
  chain_unlink k c = Some c' →
  ∃ l1 e l2, c = l1 ++ e :: l2 ∧ c' = l1 ++ l2 ∧
    dictCompareKeys k (key e) = true ∧ matching k l1 = [].
Proof.
  revert c'. induction c as [|x c IH]; intros c'; simpl; [done|].
  destruct (dictCompareKeys k (key x)) eqn:Hx.
  - intros [= <-]. by exists [], x, c.
  - destruct (chain_unlink k c) as [c0|]; simpl; [|done].
    intros [= <-]. destruct (IH c0 eq_refl) as (l1 & e & l2 & -> & -> & He & Hl1).
    exists (x :: l1), e, l2. repeat split; try done.
    unfold matching in *. rewrite filter_cons, decide_False by congruence. done.
Qed.

Lemma matching_app k (l1 l2 : list (@dictEntry K V)) :
  matching k (l1 ++ l2) = matching k l1 ++ matching k l2.
Proof. apply filter_app. Qed.

Lemma matching_perm k (l1 l2 : list (@dictEntry K V)) :
  l1 ≡ₚ l2 → matching k l1 ≡ₚ matching k l2.
Proof. intros Hp. unfold matching. by rewrite Hp. Qed.

Lemma matching_concat_slot k (tbl : list (list (@dictEntry K V))) (s : nat) c :
  tbl !! s = Some c →
  (∀ (i : nat) ci e, tbl !! i = Some ci → e ∈ ci →
     dictCompareKeys k (key e) = true → i = s) →
  matching k (concat tbl) = matching k c.
Proof.
  intros Hs Hother.
  rewrite <- (take_drop_middle tbl s c Hs). rewrite concat_app. simpl.
  rewrite !matching_app.
  assert (matching k (concat (take s tbl)) = []) as ->.
  { apply matching_nil_iff. intros e He. apply not_true_is_false. intros Hc.
    apply list_elem_of_In, in_concat in He as (ci & Hci & He).
    apply list_elem_of_In, list_elem_of_lookup in Hci as [i Hi].
    apply list_elem_of_In in He.
    pose proof (lookup_lt_Some _ _ _ Hi) as Hlt. rewrite length_take in Hlt.
    rewrite lookup_take_lt in Hi by lia.
    specialize (Hother i ci e Hi He Hc). lia. }
  assert (matching k (concat (drop (S s) tbl)) = []) as ->.
  { apply matching_nil_iff. intros e He. apply not_true_is_false. intros Hc.
    apply list_elem_of_In, in_concat in He as (ci & Hci & He).
    apply list_elem_of_In, list_elem_of_lookup in Hci as [i Hi].
    apply list_elem_of_In in He.
    rewrite lookup_drop in Hi.
    specialize (Hother _ ci e Hi He Hc). lia. }
  by rewrite app_nil_r.
Qed.

(** In a well-formed array the chain of the slot a key hashes to holds
    every entry that compares equal to the key. *)
Lemma slot_chain h tbl k :
  ht_wf h → table h = Some tbl →
  ∃ c, table_get h (to_uint (Z.land (dictHashKey k) (sizemask h))) = Some c ∧
       table_get h (slot_of h k) = Some c ∧
       (compare_hash → matching k (ht_entries h) = matching k c).
Proof.
  intros Hwf Ht.
  destruct (slot_of_range h tbl k Hwf Ht) as (Hr & _ & Hu & _).
  fold (slot_of h k). rewrite Hu.
  destruct (lookup_lt_is_Some_2 tbl (Z.to_nat (slot_of h k))) as [c Hc]; [lia|].
  exists c. rewrite (table_get_lookup h tbl) by (done || lia).
  split; [done|]. split; [done|]. intros Hcompat.
  unfold ht_entries. rewrite Ht. simpl.
  apply (matching_concat_slot k tbl (Z.to_nat (slot_of h k))); [done|].
  intros i ci e Hi He Hcmp.
  destruct (ht_wf_alloc h tbl Hwf Ht) as (_ & _ & _ & _ & Hslots).
  specialize (Hslots i ci Hi). rewrite Forall_forall in Hslots.
  specialize (Hslots e He). unfold slot_of in *.
  rewrite (Hcompat k (key e) Hcmp). lia.
Qed.

(** *** Lookup *)

Lemma ht_wf_unallocated h : ht_wf h → size h = 0 → table h = None ∧ ht_entries h = [].
Proof.
  unfold ht_wf, ht_entries. destruct (table h); simpl; [lia|done].
Qed.

Lemma ht_wf_allocated h : ht_wf h → size h ≠ 0 → is_Some (table h).
Proof. unfold ht_wf. destruct (table h); [by eauto|]. lia. Qed.

Lemma dict_wf_stable_entries d :
  dict_wf d → dictIsRehashing d = false → ht_entries (ht1 d) = [].
Proof.
  intros (_ & _ & _ & Hre) Hr. rewrite Hr in Hre.
  unfold ht_entries. by rewrite Hre.
Qed.

(** [dictFind] on a well-formed table: it returns, after the amortized
    step, the first entry of the key's chains that compares equal. *)
Lemma dictFind_wf d k :
  dict_wf d →
  ∃ d' r, dictFind d k = Some (d', r) ∧
    dict_wf d' ∧ dict_entries d' ≡ₚ dict_entries d ∧
    iterators d' = iterators d ∧
    (size (ht0 d) = 0 → d' = d) ∧
    (size (ht0 d) ≠ 0 → amortized_step d = Some d') ∧
    (∀ e, r = Some e → e ∈ dict_entries d' ∧ dictCompareKeys k (key e) = true) ∧
    (compare_hash → r = None → matching k (dict_entries d') = []).
Proof.
  intros Hwf. unfold dictFind.
  destruct (Z.eq_dec (size (ht0 d)) 0) as [Hz|Hnz].
  { rewrite Hz. simpl. exists d, None.
    split; [done|]. split; [done|]. split; [done|]. split; [done|].
    split; [done|]. split; [done|]. split; [done|]. intros _ _.
    destruct Hwf as (Hwf0 & Hwf1 & _ & Hre).
    destruct (ht_wf_unallocated _ Hwf0 Hz) as [Ht0 He0].
    destruct (dictIsRehashing d).
    - destruct Hre as (_ & [? ?] & _). congruence.
    - unfold dict_entries. rewrite He0. unfold ht_entries. by rewrite Hre. }
  assert ((size (ht0 d) =? 0) = false) as -> by by apply Z.eqb_neq.
  change (if dictIsRehashing d then _dictRehashStep d else Some d)
    with (amortized_step d).
  destruct (amortized_step_wf d Hwf) as (d' & Hstep & Hwf' & Hperm & Hit & Hsz).
  rewrite Hstep. simpl.
  pose proof Hwf' as (Hwf0 & Hwf1 & _ & Hre).
  destruct (ht_wf_allocated _ Hwf0 (Hsz Hnz)) as [tbl0 Ht0].
  destruct (slot_chain (ht0 d') tbl0 k Hwf0 Ht0) as (c0 & Hg0 & Hg0' & Hm0).
  rewrite Hg0. simpl.
  destruct (chain_find k c0) as [e|] eqn:Hfind.
  { exists d', (Some e).
    split; [done|]. split; [done|]. split; [done|]. split; [done|].
    split; [done|]. split; [done|]. split; [|done].
    intros ? [= <-]. apply chain_find_Some in Hfind as [He Hc]. split; [|done].
    unfold dict_entries. apply elem_of_app. left.
    apply elem_of_ht_entries. by exists (slot_of (ht0 d') k), c0. }
  apply chain_find_None in Hfind.
  destruct (dictIsRehashing d') eqn:Hre'; simpl.
  - destruct Hre as (_ & _ & [tbl1 Ht1] & _).
    destruct (slot_chain (ht1 d') tbl1 k Hwf1 Ht1) as (c1 & Hg1 & Hg1' & Hm1).
    rewrite Hg1. simpl. exists d', (chain_find k c1).
    split; [done|]. split; [done|]. split; [done|]. split; [done|].
    split; [done|]. split; [done|]. split.
    + intros e [He Hc]%chain_find_Some. split; [|done].
      unfold dict_entries. apply elem_of_app. right.
      apply elem_of_ht_entries. by exists (slot_of (ht1 d') k), c1.
    + intros Hcompat Hnone%chain_find_None. unfold dict_entries.
      by rewrite matching_app, Hm0, Hm1, Hfind, Hnone.
  - exists d', None.
    split; [done|]. split; [done|]. split; [done|]. split; [done|].
    split; [done|]. split; [done|]. split; [done|].
    intros Hcompat _. unfold dict_entries.
    rewrite matching_app, Hm0, Hfind by done.
    by rewrite (dict_wf_stable_entries d').
Qed.

(** *** Updating one slot *)

Lemma ht_wf_replace h tbl (i : nat) old c :
  ht_wf h → table h = Some tbl → tbl !! i = Some old →
  Forall (λ e, slot_of h (key e) = Z.of_nat i) c →
  ht_wf (mkHt (Some (<[i := c]> tbl)) (size h) (sizemask h)
              (used h - Z.of_nat (length old) + Z.of_nat (length c))) ∧
  Z.of_nat (length old) ≤ used h.
Proof.
  intros Hwf Ht Hi Hc.
  destruct (ht_wf_alloc h tbl Hwf Ht) as (Hlen & Hsz & Hmask & Hu & Hslots).
  pose proof (concat_insert_perm tbl i old c Hi) as Hp.
  apply Permutation_length in Hp. rewrite !length_app in Hp.
  pose proof (concat_insert_perm tbl i old [] Hi) as Hp'.
  apply Permutation_length in Hp'. rewrite !length_app in Hp'. simpl in Hp'.
  unfold ht_entries in Hu. rewrite Ht in Hu. simpl in Hu.
  split; [|lia].
  apply ht_wf_intro; [by rewrite length_insert|done|done|lia|].
  intros i' ci Hi'. destruct (decide (i' = i)) as [->|Hne].
  - rewrite list_lookup_insert_eq in Hi' by by eapply lookup_lt_Some.
    by injection Hi' as <-.
  - rewrite list_lookup_insert_ne in Hi' by done. by apply Hslots.
Qed.

Lemma ht_entries_replace h tbl (i : nat) old c sz mask u :
  table h = Some tbl → tbl !! i = Some old →
  old ++ ht_entries (mkHt (Some (<[i := c]> tbl)) sz mask u) ≡ₚ c ++ ht_entries h.
Proof.
  intros Ht Hi. unfold ht_entries. simpl. rewrite Ht. simpl.
  by apply concat_insert_perm.
Qed.

(** *** Deletion *)

Lemma dictGenericDelete_wf d k nofree :
  dict_wf d →
  ∃ d' r, dictGenericDelete d k nofree = Some (d', r) ∧
    dict_wf d' ∧ iterators d' = iterators d ∧
    (size (ht0 d) = 0 → d' = d ∧ r = DICT_ERR) ∧
    (size (ht0 d) ≠ 0 → ∃ d1, amortized_step d = Some d1 ∧
       ((r = DICT_ERR ∧ d' = d1 ∧
         (compare_hash → matching k (dict_entries d1) = [])) ∨
        (r = DICT_OK ∧ rehashidx d' = rehashidx d1 ∧
         ∃ e, dictCompareKeys k (key e) = true ∧
           ((ht_entries (ht0 d1) ≡ₚ e :: ht_entries (ht0 d') ∧ ht1 d' = ht1 d1) ∨
            (ht_entries (ht1 d1) ≡ₚ e :: ht_entries (ht1 d') ∧ ht0 d' = ht0 d1))))).
Proof.
  intros Hwf. unfold dictGenericDelete.
  destruct (Z.eq_dec (size (ht0 d)) 0) as [Hz|Hnz].
  { rewrite Hz. simpl. exists d, DICT_ERR.
    split; [done|]. split; [done|]. split; [done|]. split; [done|].
    intros Hne. by destruct Hne. }
  assert ((size (ht0 d) =? 0) = false) as -> by by apply Z.eqb_neq.
  change (if dictIsRehashing d then _dictRehashStep d else Some d)
    with (amortized_step d).
  destruct (amortized_step_wf d Hwf) as (d1 & Hstep & Hwf1 & Hperm & Hit & Hsz).
  rewrite Hstep. simpl.
  pose proof Hwf1 as (Hw0 & Hw1 & Hsum & Hre).
  destruct (ht_wf_allocated _ Hw0 (Hsz Hnz)) as [tbl0 Ht0].
  destruct (slot_chain (ht0 d1) tbl0 k Hw0 Ht0) as (c0 & Hg0 & Hg0' & Hm0).
  destruct (slot_of_range (ht0 d1) tbl0 k Hw0 Ht0) as (Hr0 & _ & Hu0 & _).
  pose proof (ht_wf_used_nonneg _ Hw0). pose proof (ht_wf_used_nonneg _ Hw1).
  rewrite Hg0. simpl. fold (slot_of (ht0 d1) k). rewrite Hu0.
  rewrite (table_get_lookup _ tbl0) in Hg0' by (done || lia).
  destruct (chain_unlink k c0) as [c0'|] eqn:Hun.
  { (* unlinked from the primary array *)
    apply chain_unlink_Some in Hun as (l1 & e & l2 & -> & -> & Hc & _).
    rewrite (table_set_is_Some _ tbl0) by (done || lia). simpl.
    destruct (ht_wf_replace (ht0 d1) tbl0 (Z.to_nat (slot_of (ht0 d1) k))
                (l1 ++ e :: l2) (l1 ++ l2)) as [Hw0' Hle]; [done..| |].
    { destruct (ht_wf_alloc _ _ Hw0 Ht0) as (_ & _ & _ & _ & Hslots).
      specialize (Hslots _ _ Hg0'). rewrite Forall_app, Forall_cons in Hslots.
      apply Forall_app. tauto. }
    assert (used (ht0 d1) - Z.of_nat (length (l1 ++ e :: l2))
            + Z.of_nat (length (l1 ++ l2)) = used (ht0 d1) - 1) as Hused
      by (rewrite !length_app; simpl; lia).
    rewrite Hused in Hw0'. rewrite length_app in Hle. simpl in Hle.
    rewrite to_ulong_small by lia.
    eexists _, DICT_OK. split; [reflexivity|]. split.
    { unfold dict_wf. simpl. split; [done|]. split; [done|]. split; [lia|].
      unfold dictIsRehashing in *. simpl.
      destruct (negb (rehashidx d1 =? -1)); [|done].
      destruct Hre as (? & ? & ? & Hcur). split; [done|]. split; [by eauto|].
      split; [done|]. intros i ci Hi. unfold table_get. simpl.
      case_bool_decide; [|done].
      destruct (decide (i = slot_of (ht0 d1) k)) as [->|Hne].
      - assert (l1 ++ e :: l2 = []) as Hnil; [|by destruct l1].
        apply (Hcur (slot_of (ht0 d1) k)); [done|].
        by rewrite (table_get_lookup _ tbl0) by (done || lia).
      - rewrite list_lookup_insert_ne by lia. intros Hl. apply (Hcur i); [done|].
        by rewrite (table_get_lookup _ tbl0). }
    split; [done|]. split; [done|]. intros _. exists d1. split; [done|].
    right. split; [done|]. split; [done|]. exists e. split; [done|]. left.
    split; [|done]. simpl.
    pose proof (ht_entries_replace (ht0 d1) tbl0 _ _ (l1 ++ l2) (size (ht0 d1))
                  (sizemask (ht0 d1)) (used (ht0 d1) - 1) Ht0 Hg0') as Hp.
    apply (Permutation_app_inv_l (l1 ++ l2)).
    rewrite <- Hp. rewrite <- !app_assoc. simpl.
    rewrite <- !Permutation_middle. f_equiv.
    by rewrite !(assoc app). }
  apply chain_unlink_None in Hun.
  destruct (dictIsRehashing d1) eqn:Hre1; simpl.
  2:{ exists d1, DICT_ERR. split; [done|]. split; [done|]. split; [done|].
      split; [done|]. intros _. exists d1. split; [done|]. left.
      split; [done|]. split; [done|]. intros Hcompat. unfold dict_entries.
      rewrite matching_app, Hm0, Hun by done.
      by rewrite (dict_wf_stable_entries d1). }
  destruct Hre as (Hidx & _ & [tbl1 Ht1] & Hcur).
  destruct (slot_chain (ht1 d1) tbl1 k Hw1 Ht1) as (c1 & Hg1 & Hg1' & Hm1).
  destruct (slot_of_range (ht1 d1) tbl1 k Hw1 Ht1) as (Hr1 & _ & Hu1 & _).
  rewrite Hg1. simpl. fold (slot_of (ht1 d1) k). rewrite Hu1.
  rewrite (table_get_lookup _ tbl1) in Hg1' by (done || lia).
  destruct (chain_unlink k c1) as [c1'|] eqn:Hun1.
  2:{ apply chain_unlink_None in Hun1.
      exists d1, DICT_ERR. split; [done|]. split; [done|]. split; [done|].
      split; [done|]. intros _. exists d1. split; [done|]. left.
      split; [done|]. split; [done|]. intros Hcompat. unfold dict_entries.
      by rewrite matching_app, Hm0, Hm1, Hun, Hun1. }
  apply chain_unlink_Some in Hun1 as (l1 & e & l2 & -> & -> & Hc & _).
  rewrite (table_set_is_Some _ tbl1) by (done || lia). simpl.
  destruct (ht_wf_replace (ht1 d1) tbl1 (Z.to_nat (slot_of (ht1 d1) k))
              (l1 ++ e :: l2) (l1 ++ l2)) as [Hw1' Hle]; [done..| |].
  { destruct (ht_wf_alloc _ _ Hw1 Ht1) as (_ & _ & _ & _ & Hslots).
    specialize (Hslots _ _ Hg1'). rewrite Forall_app, Forall_cons in Hslots.
    apply Forall_app. tauto. }
  assert (used (ht1 d1) - Z.of_nat (length (l1 ++ e :: l2))
          + Z.of_nat (length (l1 ++ l2)) = used (ht1 d1) - 1) as Hused
    by (rewrite !length_app; simpl; lia).
  rewrite Hused in Hw1'. rewrite length_app in Hle. simpl in Hle.
  rewrite to_ulong_small by lia.
  eexists _, DICT_OK. split; [reflexivity|]. split.
  { unfold dict_wf. simpl. split; [done|]. split; [done|]. split; [lia|].
    unfold dictIsRehashing in *. simpl. rewrite Hre1.
    split; [done|]. split; [by eauto|]. split; [by eauto|]. done. }
  split; [done|]. split; [done|]. intros _. exists d1. split; [done|].
  right. split; [done|]. split; [done|]. exists e. split; [done|]. right.
  split; [|done]. simpl.
  pose proof (ht_entries_replace (ht1 d1) tbl1 _ _ (l1 ++ l2) (size (ht1 d1))
                (sizemask (ht1 d1)) (used (ht1 d1) - 1) Ht1 Hg1') as Hp.
  apply (Permutation_app_inv_l (l1 ++ l2)).
  rewrite <- Hp. rewrite <- !app_assoc. simpl.
  rewrite <- !Permutation_middle. f_equiv.
  by rewrite !(assoc app).
Qed.

(** *** Growing *)

Lemma concat_replicate_nil (n : nat) :
  concat (replicate n ([] : list (@dictEntry K V))) = [].
Proof. induction n as [|n IH]; simpl; done. Qed.

Lemma fresh_ht_wf r :
  4 ≤ r ≤ 2 ^ 30 →
  ht_wf (@fresh_ht K V r) ∧ ht_entries (@fresh_ht K V r) = [].
Proof.
  intros Hr. unfold fresh_ht, zcalloc_table, ht_entries. simpl.
  rewrite concat_replicate_nil. split; [|done].
  apply ht_wf_intro.
  - rewrite length_replicate. lia.
  - lia.
  - apply to_ulong_small. lia.
  - by rewrite concat_replicate_nil.
  - intros i c [-> _]%lookup_replicate. constructor.
Qed.

Lemma next_power_of_le m r j :
  next_power_of m r → 2 ≤ j → m ≤ 2 ^ j → 4 ≤ r ≤ 2 ^ j.
Proof.
  intros ((j' & Hj' & ->) & _ & Hmin) Hj Hm. split; [|by apply Hmin].
  change 4 with (2 ^ 2). apply Z.pow_le_mono_r; lia.
Qed.

Lemma _dictExpandIfNeeded_wf gate d :
  dict_wf d →
  ∃ d', _dictExpandIfNeeded gate d = Some (d', DICT_OK) ∧ dict_wf d' ∧
    ht_entries (ht0 d') = ht_entries (ht0 d) ∧
    ht_entries (ht1 d') = ht_entries (ht1 d) ∧
    used (ht0 d') = used (ht0 d) ∧ used (ht1 d') = used (ht1 d) ∧
    iterators d' = iterators d ∧ is_Some (table (ht0 d')) ∧
    (dictIsRehashing d = true → d' = d).
Proof.
  intros Hwf. pose proof Hwf as (Hw0 & Hw1 & Hsum & Hre).
  pose proof (ht_wf_used_nonneg _ Hw0). pose proof (ht_wf_used_nonneg _ Hw1).
  unfold _dictExpandIfNeeded.
  destruct (dictIsRehashing d) eqn:Hr.
  { exists d. destruct Hre as (_ & ? & _). by splits. }
  assert (ht1 d = _dictReset) as Hreset.
  { unfold ht_wf in Hw1. rewrite Hre in Hw1. destruct (ht1 d); simpl in *.
    destruct Hw1 as (-> & -> & ->). by rewrite Hre. }
  destruct (Z.eq_dec (size (ht0 d)) 0) as [Hz|Hnz].
  - rewrite Hz. simpl.
    destruct (ht_wf_unallocated _ Hw0 Hz) as [Ht0 He0].
    pose proof (ht_wf_used _ Hw0) as Hu0. rewrite He0 in Hu0. simpl in Hu0.
    destruct (dictExpand_spec d DICT_HT_INITIAL_SIZE) as (r & Hr' & _ & ->);
      [done|unfold DICT_HT_INITIAL_SIZE; lia
      |unfold DICT_HT_INITIAL_SIZE, LONG_MAX; lia|].
    assert (r = 2 ^ 2) as -> by (apply (next_power_of_pow2 2); [lia|exact Hr']).
    destruct (fresh_ht_wf (2 ^ 2)) as [Hwf' He']; [lia|].
    unfold expanded. rewrite Ht0. eexists. split; [reflexivity|].
    split.
    { unfold dict_wf. simpl. split; [done|]. split; [done|]. split; [lia|].
      unfold dictIsRehashing in *. simpl. by rewrite Hr. }
    simpl. rewrite He0, He'. splits; try done; by eauto.
  - assert ((size (ht0 d) =? 0) = false) as -> by by apply Z.eqb_neq.
    destruct (ht_wf_allocated _ Hw0 Hnz) as [tbl0 Ht0].
    destruct (ht_wf_alloc _ _ Hw0 Ht0) as (_ & Hsz0 & _).
    destruct ((used (ht0 d) >=? size (ht0 d)) && _) eqn:Htrig.
    2:{ exists d. splits; try done; by eauto. }
    apply andb_true_iff in Htrig as [Hge _].
    rewrite Z.geb_leb in Hge. apply Z.leb_le in Hge.
    assert ((size (ht0 d) >? used (ht0 d)) = false) as ->.
    { rewrite Z.gtb_ltb. apply Z.ltb_ge. lia. }
    rewrite to_ulong_small by lia.
    destruct (dictExpand_spec d (used (ht0 d) * 2)) as (r & Hr' & _ & ->);
      [done|lia|unfold LONG_MAX; lia|].
    destruct (fresh_ht_wf r) as [Hwf' He'].
    { apply (next_power_of_le (used (ht0 d) * 2) r 30); [done|lia|lia]. }
    unfold expanded. rewrite Ht0. eexists. split; [reflexivity|].
    split.
    { unfold dict_wf. simpl. split; [done|]. split; [done|]. split; [lia|].
      split; [lia|]. split; [by eauto|]. split; [by eauto|].
      intros i c Hi. simpl in Hi. lia. }
    simpl. rewrite He', Hreset. splits; try done; by eauto.
Qed.

(** *** Insertion *)

(** The generation an insertion writes to. *)
Lemma target_cases d :
  dict_wf d → is_Some (table (ht0 d)) →
  let t := if dictIsRehashing d then 1 else 0 in
  ht_wf (ht d t) ∧ is_Some (table (ht d t)) ∧
  (t = 0 ∧ dictIsRehashing d = false ∧ ht d t = ht0 d ∨
   t = 1 ∧ dictIsRehashing d = true ∧ ht d t = ht1 d).
Proof.
  intros (Hw0 & Hw1 & _ & Hre) Ht0.
  destruct (dictIsRehashing d) eqn:Hr; simpl.
  - destruct Hre as (_ & _ & ? & _). split; [done|]. split; [done|]. by right.
  - split; [done|]. split; [done|]. by left.
Qed.

Lemma dict_wf_set_target d hnew :
  dict_wf d → is_Some (table (ht0 d)) →
  let t := if dictIsRehashing d then 1 else 0 in
  ht_wf hnew → is_Some (table hnew) →
  used (ht d (1 - t)) + used hnew ≤ 2 ^ 29 →
  dict_wf (set_ht d t hnew).
Proof.
  intros (Hw0 & Hw1 & Hsum & Hre) Ht0 t Hwn Htn Hu. subst t.
  unfold dict_wf, set_ht, ht, dictIsRehashing in *.
  destruct (negb (rehashidx d =? -1)) eqn:Hr; simpl in *.
  - split; [done|]. split; [done|]. split; [lia|].
    rewrite Hr. destruct Hre as (? & ? & ? & Hcur).
    split; [done|]. split; [done|]. split; [done|]. exact Hcur.
  - split; [done|]. split; [done|]. split; [lia|]. by rewrite Hr.
Qed.

Lemma amortized_step_used d d1 :
  dict_wf d → dict_wf d1 → dict_entries d1 ≡ₚ dict_entries d →
  used (ht0 d1) + used (ht1 d1) = used (ht0 d) + used (ht1 d).
Proof.
  intros (Hw0 & Hw1 & _) (Hw0' & Hw1' & _) Hp.
  apply Permutation_length in Hp. unfold dict_entries in Hp.
  rewrite !length_app in Hp.
  rewrite (ht_wf_used _ Hw0), (ht_wf_used _ Hw1), (ht_wf_used _ Hw0'),
    (ht_wf_used _ Hw1'). lia.
Qed.

(** [dictAddRaw] on a well-formed table with room for one more entry: after
    the amortized step and the grow trigger it searches the chains of the
    key's slots and, when neither holds the key, pushes a new entry on the
    chain of the generation being written to. *)
Lemma dictAddRaw_wf gate d k :
  dict_wf d → used (ht0 d) + used (ht1 d) < 2 ^ 29 →
  ∃ d1 d2 c0 tblT cT,
    amortized_step d = Some d1 ∧
    _dictExpandIfNeeded gate d1 = Some (d2, DICT_OK) ∧
    dict_wf d2 ∧ dict_entries d2 ≡ₚ dict_entries d ∧
    iterators d2 = iterators d ∧
    ht_entries (ht0 d2) = ht_entries (ht0 d1) ∧
    ht_entries (ht1 d2) = ht_entries (ht1 d1) ∧
    let t := if dictIsRehashing d2 then 1 else 0 in
    let idx := slot_of (ht d2 t) k in
    table_get (ht0 d2) (slot_of (ht0 d2) k) = Some c0 ∧
    table (ht d2 t) = Some tblT ∧ 0 ≤ idx < Z.of_nat (length tblT) ∧
    tblT !! Z.to_nat idx = Some cT ∧
    (dictIsRehashing d2 = false → cT = c0) ∧
    (compare_hash →
       matching k (dict_entries d2) =
       matching k c0 ++ (if dictIsRehashing d2 then matching k cT else [])) ∧
    ((dictAddRaw gate d k = Some (d2, None) ∧
      (matching k c0 ≠ [] ∨ dictIsRehashing d2 = true ∧ matching k cT ≠ [])) ∨
     (matching k c0 = [] ∧ matching k cT = [] ∧
      let hnew := mkHt (Some (<[Z.to_nat idx := dictSetKey k :: cT]> tblT))
                       (size (ht d2 t)) (sizemask (ht d2 t))
                       (used (ht d2 t) + 1) in
      dictAddRaw gate d k = Some (set_ht d2 t hnew, Some (t, idx)) ∧
      ht_wf hnew ∧ dict_wf (set_ht d2 t hnew))).
Proof.
  intros Hwf Hroom. unfold dictAddRaw.
  change (if dictIsRehashing d then _dictRehashStep d else Some d)
    with (amortized_step d).
  destruct (amortized_step_wf d Hwf) as (d1 & Hstep & Hwf1 & Hperm1 & Hit1 & _).
  rewrite Hstep. simpl.
  pose proof (amortized_step_used d d1 Hwf Hwf1 Hperm1) as Hsum1.
  unfold _dictKeyIndex.
  destruct (_dictExpandIfNeeded_wf gate d1 Hwf1)
    as (d2 & Hexp & Hwf2 & He0 & He1 & Hu0 & Hu1 & Hit2 & [tbl0 Ht0] & _).
  rewrite Hexp. simpl.
  pose proof Hwf2 as (Hw0 & Hw1 & Hsum2 & Hre).
  pose proof (ht_wf_used_nonneg _ Hw0). pose proof (ht_wf_used_nonneg _ Hw1).
  destruct (slot_chain (ht0 d2) tbl0 k Hw0 Ht0) as (c0 & Hg0 & Hg0' & Hm0).
  destruct (slot_of_range (ht0 d2) tbl0 k Hw0 Ht0) as (Hr0 & _ & Hui0 & Hi0).
  rewrite Hg0. simpl. fold (slot_of (ht0 d2) k). rewrite Hui0, Hi0.
  assert (dict_entries d2 ≡ₚ dict_entries d) as Hperm2.
  { rewrite <- Hperm1. unfold dict_entries. by rewrite He0, He1. }
  destruct (dictIsRehashing d2) eqn:Hr2; simpl.
  - (* rehashing: the key's slot of the incoming array decides *)
    destruct Hre as (Hidx & _ & [tbl1 Ht1] & Hcur).
    destruct (slot_chain (ht1 d2) tbl1 k Hw1 Ht1) as (c1 & Hg1 & Hg1' & Hm1).
    destruct (slot_of_range (ht1 d2) tbl1 k Hw1 Ht1) as (Hr1 & _ & Hui1 & Hi1).
    exists d1, d2, c0, tbl1, c1. cbv zeta. rewrite !Hr2. unfold ht. simpl.
    split; [done|]. split; [done|]. split; [done|]. split; [done|].
    split; [congruence|]. split; [done|]. split; [done|].
    split; [done|]. split; [done|]. split; [done|].
    split. { by rewrite (table_get_lookup _ tbl1) in Hg1' by (done || lia). }
    split; [done|]. split.
    { intros Hcompat. unfold dict_entries. by rewrite matching_app, Hm0, Hm1. }
    destruct (chain_find k c0) as [e0|] eqn:Hf0; simpl.
    { left. split; [done|]. left.
      rewrite <- chain_find_None. congruence. }
    apply chain_find_None in Hf0.
    rewrite Hg1. simpl. fold (slot_of (ht1 d2) k). rewrite Hui1, Hi1.
    destruct (chain_find k c1) as [e1|] eqn:Hf1; simpl.
    { left. split; [done|]. right. split; [done|].
      rewrite <- chain_find_None. congruence. }
    apply chain_find_None in Hf1. right. split; [done|]. split; [done|].
    assert ((slot_of (ht1 d2) k =? -1) = false) as -> by (apply Z.eqb_neq; lia).
    rewrite !Hr2. simpl. rewrite Hg1'. simpl.
    rewrite (table_set_is_Some _ tbl1) by (done || lia). simpl.
    rewrite (table_get_lookup _ tbl1) in Hg1' by (done || lia).
    destruct (ht_wf_replace (ht1 d2) tbl1 (Z.to_nat (slot_of (ht1 d2) k)) c1
                (dictSetKey k :: c1)) as [Hwn _]; [done..| |].
    { destruct (ht_wf_alloc _ _ Hw1 Ht1) as (_ & _ & _ & _ & Hslots).
      constructor; [simpl; lia|]. by apply Hslots. }
    simpl length in Hwn.
    replace (used (ht1 d2) - Z.of_nat (length c1) + Z.of_nat (S (length c1)))
      with (used (ht1 d2) + 1) in Hwn by lia.
    rewrite to_ulong_small by lia.
    split; [done|]. split; [done|].
    pose proof (dict_wf_set_target d2 _ Hwf2 (ex_intro _ tbl0 Ht0) Hwn) as Hset.
    rewrite Hr2 in Hset. apply Hset; [by eauto|]. unfold ht. simpl. lia.
  - (* stable: the primary array is the only generation *)
    exists d1, d2, c0, tbl0, c0. cbv zeta. rewrite !Hr2. unfold ht. simpl.
    split; [done|]. split; [done|]. split; [done|]. split; [done|].
    split; [congruence|]. split; [done|]. split; [done|].
    split; [done|]. split; [done|]. split; [done|].
    split. { by rewrite (table_get_lookup _ tbl0) in Hg0' by (done || lia). }
    split; [done|]. split.
    { intros Hcompat. unfold dict_entries.
      rewrite matching_app, Hm0 by done.
      by rewrite (dict_wf_stable_entries d2). }
    destruct (chain_find k c0) as [e0|] eqn:Hf0; simpl.
    { left. split; [done|]. left.
      rewrite <- chain_find_None. congruence. }
    apply chain_find_None in Hf0. right. split; [done|]. split; [done|].
    assert ((slot_of (ht0 d2) k =? -1) = false) as -> by (apply Z.eqb_neq; lia).
    rewrite !Hr2. simpl. rewrite Hg0'. simpl.
    rewrite (table_set_is_Some _ tbl0) by (done || lia). simpl.
    rewrite (table_get_lookup _ tbl0) in Hg0' by (done || lia).
    destruct (ht_wf_replace (ht0 d2) tbl0 (Z.to_nat (slot_of (ht0 d2) k)) c0
                (dictSetKey k :: c0)) as [Hwn _]; [done..| |].
    { destruct (ht_wf_alloc _ _ Hw0 Ht0) as (_ & _ & _ & _ & Hslots).
      constructor; [simpl; lia|]. by apply Hslots. }
    simpl length in Hwn.
    replace (used (ht0 d2) - Z.of_nat (length c0) + Z.of_nat (S (length c0)))
      with (used (ht0 d2) + 1) in Hwn by lia.
    rewrite to_ulong_small by lia.
    split; [done|]. split; [done|].
    pose proof (dict_wf_set_target d2 _ Hwf2 (ex_intro _ tbl0 Ht0) Hwn) as Hset.
    rewrite Hr2 in Hset. apply Hset; [by eauto|]. unfold ht. simpl. lia.
Qed.

Lemma matching_perm_nil k (l1 l2 : list (@dictEntry K V)) :
  l1 ≡ₚ l2 → matching k l1 = [] ↔ matching k l2 = [].
Proof.
  intros Hp%(matching_perm k). split; intros Hn; rewrite Hn in Hp.
  - symmetry in Hp. by apply Permutation_nil_r in Hp.
  - by apply Permutation_nil_r in Hp.
Qed.

Lemma ht_set_ht_eq d (t : Z) h :
  t = 0 ∨ t = 1 → ht (set_ht d t h) t = h ∧ ht (set_ht d t h) (1 - t) = ht d (1 - t) ∧
  rehashidx (set_ht d t h) = rehashidx d ∧ iterators (set_ht d t h) = iterators d.
Proof. by intros [-> | ->]. Qed.

(** X25.  On a well-formed table with room for one more entry, whose type
    descriptor hashes alike the keys that compare equal, [dictAddRaw] first
    takes the amortized rehash step and runs the grow trigger, neither of
    which changes the entries of either generation beyond the step itself.
    If an entry of either generation compares equal to the key it returns
    [NULL] ("already exists") and nothing else changes.  Otherwise it links
    a new entry carrying the key at the head of the chain of the key's slot,
    in the incoming array if the table is rehashing at that point and in the
    primary array if not, increments that array's occupied count by one and
    leaves the other array, the cursor and the iterator count alone. *)
Theorem dictAddRaw_spec gate d k :
  dict_wf d → used (ht0 d) + used (ht1 d) < 2 ^ 29 → compare_hash →
  ∃ d1 d2,
    amortized_step d = Some d1 ∧
    _dictExpandIfNeeded gate d1 = Some (d2, DICT_OK) ∧
    ht_entries (ht0 d2) = ht_entries (ht0 d1) ∧
    ht_entries (ht1 d2) = ht_entries (ht1 d1) ∧
    (matching k (dict_entries d) ≠ [] →
       dictAddRaw gate d k = Some (d2, None)) ∧
    (matching k (dict_entries d) = [] →
       let t := if dictIsRehashing d2 then 1 else 0 in
       let idx := slot_of (ht d2 t) k in
       ∃ d3 c,
         dictAddRaw gate d k = Some (d3, Some (t, idx)) ∧
         table_get (ht d2 t) idx = Some c ∧
         table_get (ht d3 t) idx = Some (mkEntry k None :: c) ∧
         (∀ i, i ≠ idx → table_get (ht d3 t) i = table_get (ht d2 t) i) ∧
         used (ht d3 t) = used (ht d2 t) + 1 ∧
         ht d3 (1 - t) = ht d2 (1 - t) ∧
         rehashidx d3 = rehashidx d2 ∧ iterators d3 = iterators d2).
Proof.
  intros Hwf Hroom Hcompat.
  destruct (dictAddRaw_wf gate d k Hwf Hroom)
    as (d1 & d2 & c0 & tblT & cT & Hstep & Hexp & Hwf2 & Hperm & Hit & He0 & He1
        & Hrest).
  exists d1, d2. split; [done|]. split; [done|]. split; [done|]. split; [done|].
  cbv zeta in Hrest.
  destruct Hrest as (Hg0 & HtT & Hidx & HcT & Hstable & Hmatch & Hcases).
  specialize (Hmatch Hcompat).
  pose proof (matching_perm_nil k _ _ Hperm) as Hnil.
  assert ((if dictIsRehashing d2 then 1 else 0) = 0 ∨
          (if dictIsRehashing d2 then 1 else 0) = 1) as Ht
    by (destruct (dictIsRehashing d2); auto).
  split.
  - (* the key is there *)
    intros Hpresent. destruct Hcases as [[Hrun _]|(Hn0 & HnT & _)]; [done|].
    exfalso. apply Hpresent, Hnil. rewrite Hmatch, Hn0.
    destruct (dictIsRehashing d2); [by rewrite HnT|done].
  - (* the key is new *)
    intros Habsent. apply Hnil in Habsent. rewrite Hmatch in Habsent.
    apply app_eq_nil in Habsent as [Hn0 HnT].
    destruct Hcases as [[_ Hsome]|(_ & _ & Hrun & _ & _)].
    { exfalso. destruct Hsome as [?|[Hr ?]]; [done|]. by rewrite Hr in HnT. }
    cbv zeta. eexists _, cT. split; [exact Hrun|].
    destruct (ht_set_ht_eq d2 _
      (mkHt (Some (<[Z.to_nat (slot_of (ht d2 (if dictIsRehashing d2 then 1 else 0)) k)
                     := dictSetKey k :: cT]> tblT))
            (size (ht d2 (if dictIsRehashing d2 then 1 else 0)))
            (sizemask (ht d2 (if dictIsRehashing d2 then 1 else 0)))
            (used (ht d2 (if dictIsRehashing d2 then 1 else 0)) + 1)) Ht)
      as (-> & -> & -> & ->).
    split. { by rewrite (table_get_lookup _ tblT) by (done || lia). }
    split.
    { unfold table_get. simpl. rewrite bool_decide_true by lia.
      apply list_lookup_insert_eq. lia. }
    split; [|done].
    intros i Hi. unfold table_get. simpl. rewrite HtT. simpl.
    case_bool_decide; [|done]. apply list_lookup_insert_ne. lia.
Qed.

(** *** The index as an [int] *)

(** [_dictKeyIndex] hands the [unsigned int] slot index back as an [int],
    in which -1 stands for a key that exists.  In a primary array of 2^32
    slots the last slot has index 2^32 - 1, which is -1 as an [int]: a key
    that hashes there is refused by [dictAddRaw] on an empty table, where
    [dictFind] does not find it. *)
Lemma dictAddRaw_last_slot gate (r : Z) (k : K) (v : V) :
  r = 2 ^ 32 → dictHashKey k = r - 1 →
  let d := mkDict (fresh_ht r) _dictReset (-1) 0 in
  dictExpand (@dictCreate K V) r = Some (d, DICT_OK) ∧
  dict_entries d = [] ∧
  dictFind d k = Some (d, None) ∧
  _dictKeyIndex gate d k = Some (d, -1) ∧
  dictAddRaw gate d k = Some (d, None) ∧
  dictAdd gate d k v = Some (d, DICT_ERR).
Proof.
  intros Hr Hk d.
  assert (_dictNextPower r = Some r) as Hnext by (subst r; vm_compute; reflexivity).
  assert (to_int (r - 1) = -1) as Hint by (subst r; vm_compute; reflexivity).
  assert (0 < r < 2 ^ 64) as Hrange by (subst r; lia).
  assert (0 ≤ r - 1 < 2 ^ 32) as Hlast by (subst r; lia).
  assert (table_get (@fresh_ht K V r)
            (to_uint (Z.land (dictHashKey k) (to_ulong (r - 1)))) = Some []) as Hget.
  { unfold fresh_ht, table_get, zcalloc_table. simpl.
    rewrite Hk, (to_ulong_small (r - 1)) by lia.
    rewrite Z.land_diag, (to_uint_small (r - 1)) by lia.
    rewrite bool_decide_true by lia.
    apply lookup_replicate_2, Z2Nat.inj_lt; lia. }
  assert (_dictKeyIndex gate d k = Some (d, -1)) as Hindex.
  { unfold _dictKeyIndex, _dictExpandIfNeeded.
    change (dictIsRehashing d) with false. cbv iota.
    change (size (ht0 d)) with r. change (used (ht0 d)) with 0.
    assert ((r =? 0) = false) as -> by (apply Z.eqb_neq; lia).
    assert ((0 >=? r) = false) as -> by (rewrite Z.geb_leb; apply Z.leb_gt; lia).
    rewrite andb_false_l. simpl. rewrite Hget. simpl.
    rewrite Hk, (to_ulong_small (r - 1)) by lia.
    rewrite Z.land_diag, (to_uint_small (r - 1)) by lia.
    by rewrite Hint. }
  split.
  { unfold dictExpand. change (dictIsRehashing dictCreate) with false.
    change (used (ht0 (@dictCreate K V))) with 0.
    assert ((0 >? r) = false) as -> by (rewrite Z.gtb_ltb; apply Z.ltb_ge; lia).
    simpl. by rewrite Hnext. }
  split.
  { unfold dict_entries, ht_entries, d, fresh_ht, zcalloc_table. simpl.
    by rewrite concat_replicate_nil. }
  split.
  { unfold dictFind. change (size (ht0 d)) with r.
    assert ((r =? 0) = false) as -> by (apply Z.eqb_neq; lia).
    change (dictIsRehashing d) with false. simpl. by rewrite Hget. }
  split; [done|].
  assert (dictAddRaw gate d k = Some (d, None)) as Hraw.
  { unfold dictAddRaw. change (dictIsRehashing d) with false. simpl.
    by rewrite Hindex. }
  split; [done|]. unfold dictAdd. by rewrite Hraw.
Qed.

(** Setting the value of the entry [dictAddRaw] has just linked. *)
Lemma dictAdd_wf gate d k v :
  dict_wf d → used (ht0 d) + used (ht1 d) < 2 ^ 29 →
  ∃ d' res, dictAdd gate d k v = Some (d', res) ∧
    dict_wf d' ∧ iterators d' = iterators d ∧
    ((res = DICT_ERR ∧ dict_entries d' ≡ₚ dict_entries d ∧
      (compare_hash → matching k (dict_entries d) ≠ [])) ∨
     (res = DICT_OK ∧
      dict_entries d' ≡ₚ mkEntry k (Some v) :: dict_entries d ∧
      (compare_hash → matching k (dict_entries d) = []))).
Proof.
  intros Hwf Hroom. unfold dictAdd.
  destruct (dictAddRaw_wf gate d k Hwf Hroom)
    as (d1 & d2 & c0 & tblT & cT & Hstep & Hexp & Hwf2 & Hperm & Hit & He0 & He1
        & Hrest).
  cbv zeta in Hrest.
  destruct Hrest as (Hg0 & HtT & Hidx & HcT & Hstable & Hmatch & Hcases).
  pose proof (matching_perm_nil k _ _ Hperm) as Hnil.
  destruct Hcases as [[-> Hsome]|(Hn0 & HnT & -> & Hwn & Hwf3)].
  { simpl. exists d2, DICT_ERR. split; [done|]. split; [done|]. split; [done|].
    left. split; [done|]. split; [done|]. intros Hcompat Habs.
    apply Hnil in Habs. rewrite (Hmatch Hcompat) in Habs.
    apply app_eq_nil in Habs as [Hn0 HnT].
    destruct Hsome as [?|[Hr ?]]; [done|]. by rewrite Hr in HnT. }
  simpl.
  set (t := if dictIsRehashing d2 then 1 else 0) in *.
  set (idx := slot_of (ht d2 t) k) in *.
  set (hnew := mkHt (Some (<[Z.to_nat idx := dictSetKey k :: cT]> tblT))
                 (size (ht d2 t)) (sizemask (ht d2 t)) (used (ht d2 t) + 1)) in *.
  assert (t = 0 ∨ t = 1) as Ht by (subst t; destruct (dictIsRehashing d2); auto).
  destruct (ht_set_ht_eq d2 t hnew Ht) as (Hh & Hother & Hidx3 & Hit3).
  rewrite Hh.
  assert (table_get hnew idx = Some (dictSetKey k :: cT)) as ->.
  { unfold table_get, hnew. simpl. rewrite bool_decide_true by lia.
    apply list_lookup_insert_eq. lia. }
  simpl.
  rewrite (table_set_is_Some hnew (<[Z.to_nat idx := dictSetKey k :: cT]> tblT))
    by (done || rewrite length_insert; lia).
  simpl. rewrite list_insert_insert_eq.
  set (hfin := mkHt (Some (<[Z.to_nat idx := dictSetVal (dictSetKey k) v :: cT]> tblT))
                 (size (ht d2 t)) (sizemask (ht d2 t)) (used (ht d2 t) + 1)).
  assert (set_ht (set_ht d2 t hnew) t hfin = set_ht d2 t hfin) as ->
    by by destruct Ht as [-> | ->].
  destruct Hwf2 as (Hw0 & Hw1 & Hsum2 & Hre2).
  assert (ht_wf (ht d2 t)) as HwT by by destruct Ht as [-> | ->].
  assert (is_Some (table (ht0 d2))) as Ht0.
  { apply table_get_Some in Hg0 as (? & ? & _). by eauto. }
  assert (ht_wf hfin) as Hwfin.
  { destruct (ht_wf_replace (ht d2 t) tblT (Z.to_nat idx) cT
                (dictSetVal (dictSetKey k) v :: cT)) as [Hw _]; [done..| |].
    { destruct (ht_wf_alloc _ _ HwT HtT) as (_ & _ & _ & _ & Hslots).
      constructor; [simpl; unfold idx; lia|]. by apply Hslots. }
    simpl length in Hw.
    replace (used (ht d2 t) - Z.of_nat (length cT) + Z.of_nat (S (length cT)))
      with (used (ht d2 t) + 1) in Hw by lia.
    exact Hw. }
  exists (set_ht d2 t hfin), DICT_OK. split; [done|]. split.
  { pose proof (dict_wf_set_target d2 hfin (conj Hw0 (conj Hw1 (conj Hsum2 Hre2)))
                  Ht0) as Hset.
    cbv zeta in Hset. apply Hset; [done|by eauto|].
    destruct Hwf3 as (_ & _ & Hsum3 & _). fold t in Hsum3 |- *.
    unfold hfin, hnew, ht, set_ht in *.
    destruct Ht as [Ht|Ht]; rewrite Ht in *; simpl in *; lia. }
  split. { destruct Ht as [-> | ->]; simpl; congruence. }
  right. split; [done|]. split.
  - rewrite <- Hperm.
    pose proof (ht_entries_replace (ht d2 t) tblT (Z.to_nat idx) cT
                  (dictSetVal (dictSetKey k) v :: cT) (size (ht d2 t))
                  (sizemask (ht d2 t)) (used (ht d2 t) + 1) HtT HcT) as Hp.
    fold hfin in Hp.
    assert (ht_entries hfin ≡ₚ mkEntry k (Some v) :: ht_entries (ht d2 t)) as Hpe.
    { apply (Permutation_app_inv_l cT). rewrite Hp. simpl.
      by rewrite Permutation_middle. }
    unfold dict_entries.
    destruct Ht as [Ht|Ht]; rewrite Ht in *; simpl in *.
    + by rewrite Hpe.
    + rewrite Hpe. by rewrite Permutation_middle.
  - intros Hcompat. apply Hnil. rewrite (Hmatch Hcompat), Hn0.
    destruct (dictIsRehashing d2); [by rewrite HnT|done].
Qed.

(** *** Round trip *)

(** A successful delete has unlinked one entry whose key compares equal. *)
Lemma dictGenericDelete_unlinked d k nofree d1 :
  dict_wf d → dictGenericDelete d k nofree = Some (d1, DICT_OK) →
  dict_wf d1 ∧
  ∃ e, dictCompareKeys k (key e) = true ∧ dict_entries d ≡ₚ e :: dict_entries d1.
Proof.
  intros Hwf Hdel.
  destruct (dictGenericDelete_wf d k nofree Hwf)
    as (d1' & res & Hrun & Hwf1 & _ & Hzero & Hnz).
  rewrite Hrun in Hdel. injection Hdel as -> ->. split; [done|].
  destruct (Z.eq_dec (size (ht0 d)) 0) as [Hz|Hne].
  { destruct (Hzero Hz) as [_ Hres]. discriminate Hres. }
  destruct (Hnz Hne) as (ds & Hstep & [[Hres _]|(_ & _ & e & Hc & Hgone)]);
    [discriminate Hres|].
  destruct (amortized_step_wf d Hwf) as (ds' & Hstep' & _ & Hperms & _).
  rewrite Hstep in Hstep'. injection Hstep' as <-.
  exists e. split; [done|].
  rewrite <- Hperms. unfold dict_entries.
  destruct Hgone as [[Hp ->]|[Hp ->]]; rewrite Hp; [done|].
  by rewrite Permutation_middle.
Qed.

(** The delete of a key that some entry holds succeeds. *)
Lemma dictGenericDelete_present d k nofree :
  dict_wf d → compare_hash → matching k (dict_entries d) ≠ [] →
  ∃ d1, dictGenericDelete d k nofree = Some (d1, DICT_OK).
Proof.
  intros Hwf Hcompat Hin.
  destruct (dictGenericDelete_wf d k nofree Hwf)
    as (d1 & res & Hrun & _ & _ & Hzero & Hnz).
  destruct (Z.eq_dec (size (ht0 d)) 0) as [Hz|Hne].
  { exfalso. apply Hin.
    destruct Hwf as (Hwf0 & Hwf1 & _ & Hre).
    destruct (ht_wf_unallocated _ Hwf0 Hz) as [Ht0 He0].
    destruct (dictIsRehashing d).
    - destruct Hre as (_ & [? ?] & _). congruence.
    - unfold dict_entries. rewrite He0. unfold ht_entries. by rewrite Hre. }
  destruct (Hnz Hne) as (ds & Hstep & [(_ & _ & Habs)|(-> & _)]); [|by exists d1].
  exfalso. apply Hin.
  destruct (amortized_step_wf d Hwf) as (ds' & Hstep' & _ & Hperms & _).
  rewrite Hstep in Hstep'. injection Hstep' as <-.
  apply (matching_perm_nil k _ _ Hperms). by apply Habs.
Qed.

(** [dictFind] of a key that no entry holds returns [NULL]. *)
Lemma dictFind_absent d k :
  dict_wf d → matching k (dict_entries d) = [] →
  ∃ d2, dictFind d k = Some (d2, None).
Proof.
  intros Hwf Hnone.
  destruct (dictFind_wf d k Hwf)
    as (d2 & r & Hfind & _ & Hperm2 & _ & _ & _ & Hsound & _).
  exists d2. destruct r as [e'|]; [|done]. exfalso.
  destruct (Hsound e' eq_refl) as [He' Hc'].
  assert (e' ∈ matching k (dict_entries d2)) as Hin
    by by apply list_elem_of_filter.
  rewrite (matching_perm k _ _ Hperm2), Hnone in Hin.
  by apply elem_of_nil in Hin.
Qed.

(** One entry less of a key that one entry at most holds leaves none. *)
Lemma matching_unlinked k (es es' : list (@dictEntry K V)) e :
  (length (matching k es) ≤ 1)%nat → dictCompareKeys k (key e) = true →
  es ≡ₚ e :: es' → matching k es' = [].
Proof.
  intros Huniq Hc Hperm. rewrite (matching_perm k _ _ Hperm) in Huniq.
  unfold matching in *. rewrite filter_cons, decide_True in Huniq by done.
  simpl in Huniq. apply length_zero_iff_nil. lia.
Qed.

(** [dictFind] of the key a successful [dictAdd] has just linked returns the
    one entry that holds it, with the value added. *)
Lemma dictAdd_then_find gate d k v d1 :
  dict_wf d → used (ht0 d) + used (ht1 d) < 2 ^ 29 →
  compare_refl → compare_hash →
  dictAdd gate d k v = Some (d1, DICT_OK) →
  ∃ d2 e, dictFind d1 k = Some (d2, Some e) ∧ dictGetVal e = Some v ∧
          dict_wf d2 ∧ matching k (dict_entries d2) ≡ₚ [mkEntry k (Some v)].
Proof.
  intros Hwf Hroom Hrefl Hcompat Hadd.
  destruct (dictAdd_wf gate d k v Hwf Hroom)
    as (d1' & res & Hrun & Hwf1 & _ & Hcases).
  rewrite Hrun in Hadd. injection Hadd as -> ->.
  destruct Hcases as [[Hres _]|(_ & Hperm & Habs)]; [discriminate Hres|].
  specialize (Habs Hcompat).
  assert (matching k (dict_entries d1) ≡ₚ [mkEntry k (Some v)]) as Hm1.
  { rewrite (matching_perm k _ _ Hperm). unfold matching in *.
    rewrite filter_cons, decide_True by apply Hrefl. by rewrite Habs. }
  destruct (dictFind_wf d1 k Hwf1)
    as (d2 & r & Hfind & Hwf2 & Hperm2 & _ & _ & _ & Hsound & Hcomplete).
  specialize (Hcomplete Hcompat).
  assert (matching k (dict_entries d2) ≡ₚ [mkEntry k (Some v)]) as Hm2
    by by rewrite (matching_perm k _ _ Hperm2).
  destruct r as [e|].
  + exists d2, e. split; [done|]. split; [|done].
    destruct (Hsound e eq_refl) as [He Hc].
    assert (e ∈ matching k (dict_entries d2)) as Hin
      by by apply list_elem_of_filter.
    rewrite Hm2 in Hin. by apply list_elem_of_singleton in Hin as ->.
  + rewrite Hcomplete in Hm2 by done. by apply Permutation_nil_l in Hm2.
Qed.

(** C2.  On a well-formed table with room for one more entry, whose type
    descriptor compares every key equal to itself and hashes alike the keys
    that compare equal: after a successful [dictAdd] of a key and a value,
    [dictFind] of the key returns an entry holding that value, whether the
    table is rehashing or not.  No two entries holding the same key, after
    a successful delete of a key [dictFind] of the key returns [NULL]; and
    the delete of a key that some entry holds is successful.  The two
    halves meet: the [dictAdd] of a key that no entry holds succeeds,
    [dictFind] then returns the value, the delete of the key then succeeds,
    and [dictFind] then returns [NULL]. *)
Theorem add_find_delete_find gate d k v :
  dict_wf d → used (ht0 d) + used (ht1 d) < 2 ^ 29 →
  compare_refl → compare_hash →
  (∀ d1, dictAdd gate d k v = Some (d1, DICT_OK) →
     ∃ d2 e, dictFind d1 k = Some (d2, Some e) ∧ dictGetVal e = Some v) ∧
  (keys_unique d →
   ∀ nofree,
     (∀ d1, dictGenericDelete d k nofree = Some (d1, DICT_OK) →
        ∃ d2, dictFind d1 k = Some (d2, None)) ∧
     (matching k (dict_entries d) ≠ [] →
        ∃ d1 d2, dictGenericDelete d k nofree = Some (d1, DICT_OK) ∧
                 dictFind d1 k = Some (d2, None))) ∧
  (matching k (dict_entries d) = [] →
   ∀ nofree, ∃ d1 d2 e d3 d4,
     dictAdd gate d k v = Some (d1, DICT_OK) ∧
     dictFind d1 k = Some (d2, Some e) ∧ dictGetVal e = Some v ∧
     dictGenericDelete d2 k nofree = Some (d3, DICT_OK) ∧
     dictFind d3 k = Some (d4, None)).
Proof.
  intros Hwf Hroom Hrefl Hcompat.
  assert (∀ d0 nofree d1, dict_wf d0 →
            (length (matching k (dict_entries d0)) ≤ 1)%nat →
            dictGenericDelete d0 k nofree = Some (d1, DICT_OK) →
            ∃ d2, dictFind d1 k = Some (d2, None)) as Hdelete.
  { intros d0 nofree d1 Hwf0 Huniq Hdel.
    destruct (dictGenericDelete_unlinked d0 k nofree d1 Hwf0 Hdel)
      as (Hwf1 & e & Hc & Hperm).
    apply (dictFind_absent d1 k Hwf1).
    by apply (matching_unlinked k (dict_entries d0) _ e). }
  split; [|split].
  - intros d1 Hadd.
    destruct (dictAdd_then_find gate d k v d1 Hwf Hroom Hrefl Hcompat Hadd)
      as (d2 & e & Hfind & Hval & _).
    by exists d2, e.
  - intros Huniq nofree. split.
    + intros d1 Hdel. by apply (Hdelete d nofree d1).
    + intros Hin.
      destruct (dictGenericDelete_present d k nofree Hwf Hcompat Hin) as [d1 Hdel].
      destruct (Hdelete d nofree d1 Hwf (Huniq k) Hdel) as [d2 Hfind].
      by exists d1, d2.
  - intros Habs nofree.
    destruct (dictAdd_wf gate d k v Hwf Hroom)
      as (d1 & res & Hadd & _ & _ & Hcases).
    destruct Hcases as [(_ & _ & Hin)|(-> & _)]; [by destruct (Hin Hcompat)|].
    destruct (dictAdd_then_find gate d k v d1 Hwf Hroom Hrefl Hcompat Hadd)
      as (d2 & e & Hfind & Hval & Hwf2 & Hm2).
    assert (matching k (dict_entries d2) ≠ []) as Hin.
    { intros Hnil. rewrite Hnil in Hm2. by apply Permutation_nil_l in Hm2. }
    destruct (dictGenericDelete_present d2 k nofree Hwf2 Hcompat Hin) as [d3 Hdel].
    destruct (Hdelete d2 nofree d3 Hwf2) as [d4 Hfind4]; [|done|].
    { apply Permutation_length in Hm2. rewrite Hm2. simpl. lia. }
    by exists d1, d2, e, d3, d4.
Qed.

(** C5, as amended.  [dictGenericDelete] on a table whose primary array has
    size 0 returns [DICT_ERR] and leaves the table as it is; it returns the
    same [DICT_ERR], after the amortized step, when no entry of a
    well-formed table with an allocated primary array compares equal to
    the key. *)
Theorem dictGenericDelete_errors d k nofree :
  (size (ht0 d) = 0 → dictGenericDelete d k nofree = Some (d, DICT_ERR)) ∧
  (dict_wf d → compare_hash → size (ht0 d) ≠ 0 →
   matching k (dict_entries d) = [] →
     ∃ d', amortized_step d = Some d' ∧
           dictGenericDelete d k nofree = Some (d', DICT_ERR)).
Proof.
  split.
  - intros Hz. unfold dictGenericDelete. by rewrite Hz.
  - intros Hwf Hcompat Hnz Habs.
    destruct (dictGenericDelete_wf d k nofree Hwf)
      as (d' & res & Hrun & _ & _ & _ & Hcases).
    destruct (Hcases Hnz) as (d1 & Hstep & [(-> & -> & _)|(_ & _ & e & Hc & Hgone)]).
    { by exists d1. }
    exfalso.
    destruct (amortized_step_wf d Hwf) as (d1' & Hstep' & _ & Hperm & _).
    rewrite Hstep in Hstep'. injection Hstep' as <-.
    assert (e ∈ dict_entries d1) as Hin.
    { unfold dict_entries. apply elem_of_app.
      destruct Hgone as [[Hp _]|[Hp _]]; [left|right]; rewrite Hp; by left. }
    rewrite Hperm in Hin.
    assert (e ∈ matching k (dict_entries d)) as Hm by by apply list_elem_of_filter.
    rewrite Habs in Hm. by apply elem_of_nil in Hm.
Qed.

(** *** The cursor invariant *)

Lemma cursor_inv_ext d d' :
  ht0 d' = ht0 d → rehashidx d' = rehashidx d → cursor_inv d → cursor_inv d'.
Proof. unfold cursor_inv. intros -> ->. done. Qed.

Lemma cursor_inv_stable d : rehashidx d ≤ 0 → cursor_inv d.
Proof. unfold cursor_inv. intros Hle i c Hi. lia. Qed.

Lemma dictRehash_body_cursor d r :
  cursor_inv d → dictRehash_body d = Some r →
  match r with inl d' | inr d' => cursor_inv d' end.
Proof.
  intros Hcur. unfold dictRehash_body.
  destruct (used (ht0 d) =? 0).
  { intros [= <-]. by apply cursor_inv_stable. }
  destruct (negb _); [done|]. destruct (table (ht0 d)) as [tbl|] eqn:Ht; simpl; [|done].
  case_bool_decide as Hneg; [done|].
  destruct (skip_empty _ _) as [j|] eqn:Hj; simpl; [|done].
  destruct (table_get _ _) as [de|]; simpl; [|done].
  destruct (rehash_chain _ _ _) as [[h0 h1]|] eqn:Hrc; simpl; [|done].
  apply rehash_chain_source in Hrc.
  destruct (table_set h0 j []) as [h0'|] eqn:Hset; simpl; [|done].
  unfold int_incr. case_bool_decide; simpl; [|done].
  intros [= <-].
  apply skip_empty_spec in Hj as (n & -> & Hempty & _).
  intros i c Hi. simpl in *.
  set (j := rehashidx d + Z.of_nat n) in *.
  destruct (decide (i = j)) as [->|Hne].
  { rewrite (table_get_set_eq _ _ _ _ Hset). congruence. }
  rewrite (table_get_set_ne _ _ _ _ _ Hset) by done.
  assert (table_get h0 i = table_get (ht0 d) i) as ->.
  { unfold table_get. by rewrite Hrc. }
  destruct (Z_lt_le_dec i (rehashidx d)); [apply Hcur; lia|].
  rewrite (table_get_lookup _ tbl) by (done || lia).
  specialize (Hempty (Z.to_nat i - Z.to_nat (rehashidx d))%nat).
  rewrite lookup_drop in Hempty.
  replace (Z.to_nat (rehashidx d) + (Z.to_nat i - Z.to_nat (rehashidx d)))%nat
    with (Z.to_nat i) in Hempty by lia.
  rewrite Hempty by lia. congruence.
Qed.

Lemma dictRehash_loop_cursor n d d' r :
  cursor_inv d → dictRehash_loop n d = Some (d', r) → cursor_inv d'.
Proof.
  revert d. induction n as [|n IH]; intros d Hcur; simpl.
  - by intros [= <- <-].
  - destruct (dictRehash_body d) as [[d1|d1]|] eqn:Hbody; simpl; [| |done].
    + apply (dictRehash_body_cursor d _ Hcur) in Hbody. by apply IH.
    + apply (dictRehash_body_cursor d _ Hcur) in Hbody. by intros [= <- <-].
Qed.

Lemma dictRehash_loop_of d n d' r :
  dictIsRehashing d = true → dictRehash d n = Some (d', r) →
  ∃ m, dictRehash_loop m d = Some (d', r).
Proof.
  intros Hre. unfold dictRehash. rewrite Hre. simpl.
  destruct (0 <=? n); [by eauto|].
  destruct (dictRehash_loop _ d) as [[d1 r1]|] eqn:Hloop; simpl; [|done].
  destruct (r1 =? 0) eqn:Hr; [|done].
  apply Z.eqb_eq in Hr as ->. intros [= <- <-]. eauto.
Qed.

Lemma dictRehash_cursor d n d' r :
  cursor_inv d → dictRehash d n = Some (d', r) → cursor_inv d'.
Proof.
  intros Hcur Hrun. destruct (dictIsRehashing d) eqn:Hre.
  - destruct (dictRehash_loop_of d n d' r Hre Hrun) as [m Hloop].
    by eapply dictRehash_loop_cursor.
  - unfold dictRehash in Hrun. rewrite Hre in Hrun. simpl in Hrun.
    by injection Hrun as <- <-.
Qed.

Lemma amortized_step_cursor d d' :
  cursor_inv d → amortized_step d = Some d' → cursor_inv d'.
Proof.
  intros Hcur. unfold amortized_step, _dictRehashStep.
  destruct (dictIsRehashing d); [|by intros [= <-]].
  destruct (iterators d =? 0); [|by intros [= <-]].
  destruct (dictRehash d 1) as [[d1 r]|] eqn:Hre; simpl; [|done].
  intros [= <-]. by eapply dictRehash_cursor.
Qed.

Lemma dictExpand_cursor d sz d' r :
  cursor_inv d → dictExpand d sz = Some (d', r) → cursor_inv d'.
Proof.
  intros Hcur. unfold dictExpand.
  destruct (dictIsRehashing d) eqn:Hre; simpl; [by intros [= <- <-]|].
  destruct (used (ht0 d) >? sz); [by intros [= <- <-]|].
  destruct (_dictNextPower sz); simpl; [|done].
  apply dictIsRehashing_false in Hre.
  destruct (table (ht0 d)); intros [= <- <-]; apply cursor_inv_stable; simpl; lia.
Qed.

Lemma _dictExpandIfNeeded_cursor gate d d' r :
  cursor_inv d → _dictExpandIfNeeded gate d = Some (d', r) → cursor_inv d'.
Proof.
  intros Hcur. unfold _dictExpandIfNeeded.
  destruct (dictIsRehashing d); [by intros [= <- <-]|].
  destruct (size (ht0 d) =? 0); [by apply dictExpand_cursor|].
  destruct (_ && _); [by apply dictExpand_cursor|by intros [= <- <-]].
Qed.

Lemma _dictKeyIndex_cursor gate d k d' r :
  cursor_inv d → _dictKeyIndex gate d k = Some (d', r) → cursor_inv d'.
Proof.
  intros Hcur. unfold _dictKeyIndex.
  destruct (_dictExpandIfNeeded gate d) as [[d1 r1]|] eqn:Hexp; simpl; [|done].
  apply (_dictExpandIfNeeded_cursor _ _ _ _ Hcur) in Hexp.
  destruct (r1 =? DICT_ERR); [by intros [= <- <-]|].
  destruct (table_get (ht0 d1) _); simpl; [|done].
  destruct (chain_find k _); [by intros [= <- <-]|].
  destruct (negb _); [by intros [= <- <-]|].
  destruct (table_get (ht1 d1) _); simpl; [|done].
  destruct (chain_find k _); by intros [= <- <-].
Qed.

(** An update of the generation being written to keeps the invariant. *)
Lemma set_target_cursor d (t : Z) h :
  cursor_inv d → t = 1 ∨ dictIsRehashing d = false → cursor_inv (set_ht d t h).
Proof.
  intros Hcur [->|Hre]; [exact Hcur|].
  apply cursor_inv_stable. apply dictIsRehashing_false in Hre.
  unfold set_ht. destruct (t =? 0); simpl; lia.
Qed.

Lemma dictAddRaw_cursor gate d k d' r :
  cursor_inv d → dictAddRaw gate d k = Some (d', r) →
  cursor_inv d' ∧
  ∀ t idx, r = Some (t, idx) → t = 1 ∨ dictIsRehashing d' = false.
Proof.
  intros Hcur. unfold dictAddRaw.
  change (if dictIsRehashing d then _dictRehashStep d else Some d)
    with (amortized_step d).
  destruct (amortized_step d) as [d1|] eqn:Hstep; simpl; [|done].
  apply (amortized_step_cursor _ _ Hcur) in Hstep.
  destruct (_dictKeyIndex gate d1 k) as [[d2 index]|] eqn:Hidx; simpl; [|done].
  apply (_dictKeyIndex_cursor _ _ _ _ _ Hstep) in Hidx.
  destruct (index =? -1); [intros [= <- <-]; by split|].
  destruct (table_get _ _); simpl; [|done].
  destruct (table_set _ _ _) as [h|]; simpl; [|done].
  intros [= <- <-].
  assert ((if dictIsRehashing d2 then 1 else 0) = 1 ∨ dictIsRehashing d2 = false)
    as Ht by (destruct (dictIsRehashing d2); auto).
  split; [by apply set_target_cursor|].
  intros t idx [= <- <-]. destruct Ht as [Ht|Ht]; [by left|right].
  rewrite Ht. unfold dictIsRehashing in *. simpl. done.
Qed.

Lemma dictAdd_cursor gate d k v d' r :
  cursor_inv d → dictAdd gate d k v = Some (d', r) → cursor_inv d'.
Proof.
  intros Hcur. unfold dictAdd.
  destruct (dictAddRaw gate d k) as [[d1 entry]|] eqn:Hraw; simpl; [|done].
  destruct (dictAddRaw_cursor _ _ _ _ _ Hcur Hraw) as [Hcur1 Ht].
  destruct entry as [[t index]|]; [|by intros [= <- <-]].
  destruct (table_get _ _) as [[|e next]|]; simpl; [done| |done].
  destruct (table_set _ _ _) as [h|]; simpl; [|done].
  intros [= <- <-]. apply set_target_cursor; [done|]. by eapply Ht.
Qed.

Lemma dictFind_cursor d k d' r :
  cursor_inv d → dictFind d k = Some (d', r) → cursor_inv d'.
Proof.
  intros Hcur. unfold dictFind.
  destruct (size (ht0 d) =? 0); [by intros [= <- <-]|].
  change (if dictIsRehashing d then _dictRehashStep d else Some d)
    with (amortized_step d).
  destruct (amortized_step d) as [d1|] eqn:Hstep; simpl; [|done].
  apply (amortized_step_cursor _ _ Hcur) in Hstep.
  destruct (table_get (ht0 d1) _); simpl; [|done].
  destruct (chain_find k _); [by intros [= <- <-]|].
  destruct (negb _); [by intros [= <- <-]|].
  destruct (table_get (ht1 d1) _); simpl; [|done].
  by intros [= <- <-].
Qed.

Lemma dictGenericDelete_cursor d k nofree d' r :
  cursor_inv d → dictGenericDelete d k nofree = Some (d', r) → cursor_inv d'.
Proof.
  intros Hcur. unfold dictGenericDelete.
  destruct (size (ht0 d) =? 0); [by intros [= <- <-]|].
  change (if dictIsRehashing d then _dictRehashStep d else Some d)
    with (amortized_step d).
  destruct (amortized_step d) as [d1|] eqn:Hstep; simpl; [|done].
  apply (amortized_step_cursor _ _ Hcur) in Hstep.
  set (idx := to_uint (Z.land (dictHashKey k) (sizemask (ht0 d1)))).
  destruct (table_get (ht0 d1) idx) as [he|] eqn:Hget; simpl; [|done].
  destruct (chain_unlink k he) as [c|] eqn:Hun.
  - destruct (table_set (ht0 d1) idx c) as [h0|] eqn:Hset; simpl; [|done].
    intros [= <- <-]. intros i ci Hi. simpl in *.
    assert (table_get (set_used h0 (to_ulong (used h0 - 1))) i = table_get h0 i)
      as -> by done.
    destruct (decide (idx = i)) as [<-|Hne].
    + specialize (Hstep idx he Hi Hget). subst he. done.
    + rewrite (table_get_set_ne _ _ _ _ _ Hset) by done. by apply Hstep.
  - destruct (negb _); [by intros [= <- <-]|].
    destruct (table_get (ht1 d1) _) as [he1|]; simpl; [|done].
    destruct (chain_unlink k he1); [|by intros [= <- <-]].
    destruct (table_set _ _ _); simpl; [|done].
    by intros [= <- <-].
Qed.

(** *** Iterators *)

(** A pass of [dictNext] touches the table through its counter only, and
    the counter moves exactly with the claim of the iterator. *)
Lemma dictNext_body_frame d (iter : @dictIterator K V) d' iter' r :
  -1 ≤ iter_index iter →
  dictNext_body d iter = Some (d', iter', r) →
  ht0 d' = ht0 d ∧ ht1 d' = ht1 d ∧ rehashidx d' = rehashidx d ∧
  -1 ≤ iter_index iter' ∧ iter_safe iter' = iter_safe iter ∧
  (iter_claims iter = true → iter_claims iter' = true) ∧
  iterators d' - (if iter_claims iter' then 1 else 0) =
  iterators d - (if iter_claims iter then 1 else 0).
Proof.
  intros Hidx. unfold dictNext_body.
  destruct (iter_entry iter) as [|e next] eqn:Hentry; simpl.
  2:{ destruct (iter_nextEntry iter); intros [= <- <- <-]; by splits. }
  unfold iter_claims.
  destruct (iter_safe iter && (iter_index iter =? -1) && (iter_table iter =? 0))
    eqn:Hfresh.
  - (* first advance of a safe iterator *)
    apply andb_true_iff in Hfresh as [[Hsafe Hi]%andb_true_iff Ht].
    apply Z.eqb_eq in Hi, Ht. rewrite Hsafe, Hi, Ht. simpl.
    unfold int_incr. case_bool_decide; simpl; [|done].
    change (-1 + 1) with 0. change (0 + 1) with 1.
    destruct (_ >=? _).
    + destruct (dictIsRehashing _ && true).
      * destruct (table_get _ _) as [[|e next]|]; simpl; [| |done];
          intros [= <- <- <-]; simpl; splits; try done; lia.
      * intros [= <- <- <-]. simpl. splits; try done; lia.
    + destruct (table_get _ _) as [[|e next]|]; simpl; [| |done];
        intros [= <- <- <-]; simpl; splits; try done; lia.
  - (* a later advance, or an iterator that is not safe *)
    simpl. unfold int_incr. case_bool_decide; simpl; [|done].
    assert (iter_safe iter && negb ((iter_index iter =? -1)
                                    && (iter_table iter =? 0)) = iter_safe iter)
      as Hcl.
    { destruct (iter_safe iter); [|done]. simpl in *. by rewrite Hfresh. }
    assert (∀ t, iter_safe iter && negb ((iter_index iter + 1 =? -1) && t)
                 = iter_safe iter) as Hsame.
    { intros t. destruct (iter_safe iter); [|done]. simpl.
      by assert ((iter_index iter + 1 =? -1) = false) as ->
        by (apply Z.eqb_neq; lia). }
    rewrite !Hcl.
    destruct (_ >=? _).
    + destruct (dictIsRehashing d && _).
      * destruct (table_get _ _) as [[|e next]|]; simpl; [| |done];
          intros [= <- <- <-]; simpl; rewrite andb_true_r; splits; try done; lia.
      * intros [= <- <- <-]. simpl. rewrite Hsame.
        splits; try done; lia.
    + destruct (table_get _ _) as [[|e next]|]; simpl; [| |done];
        intros [= <- <- <-]; simpl; rewrite Hsame; splits; try done; lia.
Qed.

Lemma dictNext_loop_frame fuel d (iter : @dictIterator K V) d' iter' r :
  -1 ≤ iter_index iter →
  dictNext_loop fuel d iter = Some (d', iter', r) →
  ht0 d' = ht0 d ∧ ht1 d' = ht1 d ∧ rehashidx d' = rehashidx d ∧
  -1 ≤ iter_index iter' ∧ iter_safe iter' = iter_safe iter ∧
  (iter_claims iter = true → iter_claims iter' = true) ∧
  iterators d' - (if iter_claims iter' then 1 else 0) =
  iterators d - (if iter_claims iter then 1 else 0).
Proof.
  revert d iter. induction fuel as [|fuel IH]; intros d iter Hidx; simpl; [done|].
  destruct (dictNext_body d iter) as [[[d1 iter1] r1]|] eqn:Hbody; simpl; [|done].
  destruct (dictNext_body_frame _ _ _ _ _ Hidx Hbody)
    as (H0 & H1 & Hr & Hi & Hs & Hm & Hc).
  destruct r1 as [e|].
  - intros [= <- <- <-]. by splits.
  - intros Hrec.
    destruct (IH _ _ Hi Hrec) as (H0' & H1' & Hr' & Hi' & Hs' & Hm' & Hc').
    splits; try congruence. auto.
Qed.

Lemma dictNext_frame d (iter : @dictIterator K V) d' iter' r :
  -1 ≤ iter_index iter →
  dictNext d iter = Some (d', iter', r) →
  ht0 d' = ht0 d ∧ ht1 d' = ht1 d ∧ rehashidx d' = rehashidx d ∧
  -1 ≤ iter_index iter' ∧ iter_safe iter' = iter_safe iter ∧
  (iter_claims iter = true → iter_claims iter' = true) ∧
  iterators d' - (if iter_claims iter' then 1 else 0) =
  iterators d - (if iter_claims iter then 1 else 0).
Proof. apply dictNext_loop_frame. Qed.

Lemma dictReleaseIterator_frame d (iter : @dictIterator K V) d' :
  dictReleaseIterator d iter = Some d' →
  ht0 d' = ht0 d ∧ ht1 d' = ht1 d ∧ rehashidx d' = rehashidx d ∧
  iterators d' = iterators d - (if iter_claims iter then 1 else 0).
Proof.
  unfold dictReleaseIterator. fold (iter_claims iter).
  destruct (iter_claims iter).
  - unfold int_decr. case_bool_decide; simpl; [|done]. by intros [= <-].
  - intros [= <-]. splits; try done; lia.
Qed.

Lemma dictNext_body_tables d (iter : @dictIterator K V) d' iter' r :
  dictNext_body d iter = Some (d', iter', r) →
  ht0 d' = ht0 d ∧ ht1 d' = ht1 d ∧ rehashidx d' = rehashidx d.
Proof.
  unfold dictNext_body.
  destruct (iter_entry iter) as [|e next]; simpl.
  2:{ destruct (iter_nextEntry iter); by intros [= <- <- <-]. }
  destruct (_ && _ && _); simpl.
  - destruct (int_incr (iterators d)) as [n|]; simpl; [|done].
    destruct (int_incr (iter_index iter)) as [index|]; simpl; [|done].
    destruct (_ >=? _).
    + destruct (dictIsRehashing _ && _).
      * destruct (table_get _ _) as [[|e next]|]; simpl; [| |done];
          by intros [= <- <- <-].
      * by intros [= <- <- <-].
    + destruct (table_get _ _) as [[|e next]|]; simpl; [| |done];
        by intros [= <- <- <-].
  - destruct (int_incr (iter_index iter)) as [index|]; simpl; [|done].
    destruct (_ >=? _).
    + destruct (dictIsRehashing _ && _).
      * destruct (table_get _ _) as [[|e next]|]; simpl; [| |done];
          by intros [= <- <- <-].
      * by intros [= <- <- <-].
    + destruct (table_get _ _) as [[|e next]|]; simpl; [| |done];
        by intros [= <- <- <-].
Qed.

Lemma dictNext_tables d (iter : @dictIterator K V) d' iter' r :
  dictNext d iter = Some (d', iter', r) →
  ht0 d' = ht0 d ∧ ht1 d' = ht1 d ∧ rehashidx d' = rehashidx d.
Proof.
  unfold dictNext. generalize (3 + ht_slots (ht0 d) + ht_slots (ht1 d))%nat.
  intros fuel. revert d iter.
  induction fuel as [|fuel IH]; intros d iter; simpl; [done|].
  destruct (dictNext_body d iter) as [[[d1 iter1] r1]|] eqn:Hbody; simpl; [|done].
  destruct (dictNext_body_tables _ _ _ _ _ Hbody) as (H0 & H1 & Hr).
  destruct r1 as [e|].
  - by intros [= <- <- <-].
  - intros (H0' & H1' & Hr')%IH. splits; congruence.
Qed.

Lemma dictGetRandomKey_state d rs d' r rs' :
  dictGetRandomKey d rs = Some (d', r, rs') →
  d' = d ∨ amortized_step d = Some d'.
Proof.
  unfold dictGetRandomKey.
  destruct (dictSize d =? 0); [intros [= <- <- <-]; by left|].
  change (if dictIsRehashing d then _dictRehashStep d else Some d)
    with (amortized_step d).
  destruct (amortized_step d) as [d1|]; simpl; [|done].
  destruct (random_slot d1 rs) as [[orighe rs1]|]; simpl; [|done].
  destruct rs1 as [|x rs1]; [done|].
  destruct (_ =? 0); [done|]. case_bool_decide; [|done].
  destruct (orighe !! _); simpl; [|done].
  intros [= <- <- <-]. by right.
Qed.

(** C3.  The cursor invariant (every primary slot strictly below the rehash
    cursor is empty) is preserved by every operation: add, find, delete,
    rehash steps, advancing and releasing an iterator, and random
    sampling. *)
Theorem cursor_inv_preserved gate d :
  cursor_inv d →
  (∀ k v d' r, dictAdd gate d k v = Some (d', r) → cursor_inv d') ∧
  (∀ k d' r, dictAddRaw gate d k = Some (d', r) → cursor_inv d') ∧
  (∀ k d' r, dictFind d k = Some (d', r) → cursor_inv d') ∧
  (∀ k nofree d' r, dictGenericDelete d k nofree = Some (d', r) → cursor_inv d') ∧
  (∀ n d' r, dictRehash d n = Some (d', r) → cursor_inv d') ∧
  (∀ iter d' iter' r, dictNext d iter = Some (d', iter', r) → cursor_inv d') ∧
  (∀ iter d', dictReleaseIterator d iter = Some d' → cursor_inv d') ∧
  (∀ rs d' r rs', dictGetRandomKey d rs = Some (d', r, rs') → cursor_inv d').
Proof.
  intros Hcur. splits.
  - intros k v d' r. by apply dictAdd_cursor.
  - intros k d' r Hrun. by destruct (dictAddRaw_cursor _ _ _ _ _ Hcur Hrun).
  - intros k d' r. by apply dictFind_cursor.
  - intros k nofree d' r. by apply dictGenericDelete_cursor.
  - intros n d' r. by apply dictRehash_cursor.
  - intros iter d' iter' r (H0 & _ & Hr)%dictNext_tables.
    by apply (cursor_inv_ext d).
  - intros iter d' (H0 & _ & Hr & _)%dictReleaseIterator_frame.
    by apply (cursor_inv_ext d).
  - intros rs d' r rs' [->|Hstep]%dictGetRandomKey_state; [done|].
    by eapply amortized_step_cursor.
Qed.

(** *** The iterator counter *)

#[local] Arguments store_claims : simpl never.

Lemma store_claims_cons o (its : list (option (@dictIterator K V))) :
  store_claims (o :: its) = claim_of o + store_claims its.
Proof. done. Qed.

Lemma store_claims_app (its1 its2 : list (option (@dictIterator K V))) :
  store_claims (its1 ++ its2) = store_claims its1 + store_claims its2.
Proof.
  induction its1 as [|o its1 IH]; [done|].
  rewrite <- app_comm_cons, !store_claims_cons, IH. lia.
Qed.

Lemma store_claims_insert (its : list (option (@dictIterator K V))) i o o' :
  its !! i = Some o →
  store_claims (<[i := o']> its) = store_claims its - claim_of o + claim_of o'.
Proof.
  revert i. induction its as [|x its IH]; intros [|i]; simpl; try done.
  - intros [= ->]. rewrite !store_claims_cons. lia.
  - intros Hi. rewrite !store_claims_cons, (IH i Hi). lia.
Qed.

Lemma store_claims_released (its : list (option (@dictIterator K V))) :
  Forall (λ o, o = None) its → store_claims its = 0.
Proof.
  induction 1 as [|o its -> _ IH]; [done|]. by rewrite store_claims_cons, IH.
Qed.

Lemma run_event_balance d (its : list (option (@dictIterator K V))) ev d' its' :
  store_ok its → run_event (d, its) ev = Some (d', its') →
  store_ok its' ∧
  iterators d' - store_claims its' = iterators d - store_claims its.
Proof.
  intros Hok. destruct ev as [safe|i|i]; simpl.
  - intros [= <- <-]. split.
    + intros i iter [Hi|[_ Hi]]%lookup_app_Some; [by eapply Hok|].
      destruct (i - length its)%nat; [|done]. simpl in Hi.
      injection Hi as <-. by destruct safe.
    + rewrite store_claims_app.
      destruct safe; rewrite store_claims_cons; unfold store_claims; simpl; lia.
  - destruct (its !! i) as [[iter|]|] eqn:Hi; simpl; [|done..].
    destruct (dictNext d iter) as [[[d1 iter1] r]|] eqn:Hnext; simpl; [|done].
    intros [= <- <-].
    destruct (dictNext_frame _ _ _ _ _ (Hok _ _ Hi) Hnext)
      as (_ & _ & _ & Hidx & _ & _ & Hbal).
    split.
    + intros j it Hj. destruct (decide (i = j)) as [<-|Hne].
      * rewrite list_lookup_insert_eq in Hj by by eapply lookup_lt_Some.
        by injection Hj as <-.
      * rewrite list_lookup_insert_ne in Hj by done. by eapply Hok.
    + rewrite (store_claims_insert its i (Some iter)) by done. simpl. lia.
  - destruct (its !! i) as [[iter|]|] eqn:Hi; simpl; [|done..].
    destruct (dictReleaseIterator d iter) as [d1|] eqn:Hrel; simpl; [|done].
    intros [= <- <-].
    apply dictReleaseIterator_frame in Hrel as (_ & _ & _ & Hbal).
    split.
    + intros j it Hj. destruct (decide (i = j)) as [<-|Hne].
      * rewrite list_lookup_insert_eq in Hj by by eapply lookup_lt_Some. done.
      * rewrite list_lookup_insert_ne in Hj by done. by eapply Hok.
    + rewrite (store_claims_insert its i (Some iter)) by done. simpl. lia.
Qed.

#[local] Arguments run_event : simpl never.

Lemma run_events_balance evs d (its : list (option (@dictIterator K V))) d' its' :
  store_ok its → run_events (d, its) evs = Some (d', its') →
  iterators d' - store_claims its' = iterators d - store_claims its.
Proof.
  revert d its. induction evs as [|ev evs IH]; intros d its Hok; simpl.
  - by intros [= <- <-].
  - destruct (run_event (d, its) ev) as [[d1 its1]|] eqn:Hev; simpl; [|done].
    destruct (run_event_balance _ _ _ _ _ Hok Hev) as [Hok1 Hbal].
    intros Hrec. specialize (IH d1 its1 Hok1 Hrec). lia.
Qed.

(** C10.  The [iterators] counter is balanced.  The first advance of a
    safe iterator increments it and gives the iterator its claim; no other
    advance, and no advance of an iterator that is not safe, changes it;
    releasing an iterator decrements it exactly when the iterator holds a
    claim; in particular a safe iterator released before its first advance
    leaves the table untouched.  Hence after any sequence of creations,
    advances and releases that leaves no iterator live, the counter is back
    to its initial value. *)
Theorem iterators_balanced d :
  (∀ d' iter' r, dictNext d dictGetSafeIterator = Some (d', iter', r) →
     iterators d' = iterators d + 1 ∧ iter_claims iter' = true) ∧
  (∀ iter d' iter' r,
     -1 ≤ iter_index iter → dictNext d iter = Some (d', iter', r) →
     iter_safe iter = false ∨ iter_claims iter = true →
     iterators d' = iterators d ∧ iter_claims iter' = iter_claims iter) ∧
  (∀ iter d', dictReleaseIterator d iter = Some d' →
     iterators d' = iterators d - (if iter_claims iter then 1 else 0)) ∧
  dictReleaseIterator d dictGetSafeIterator = Some d ∧
  (∀ evs d' its',
     run_events (d, []) evs = Some (d', its') →
     Forall (λ o, o = None) its' → iterators d' = iterators d).
Proof.
  splits.
  - intros d' iter' r Hnext. unfold dictNext in Hnext.
    destruct (3 + ht_slots (ht0 d) + ht_slots (ht1 d))%nat as [|fuel]; [done|].
    simpl in Hnext.
    destruct (dictNext_body d dictGetSafeIterator) as [[[d1 iter1] r1]|] eqn:Hbody;
      simpl in Hnext; [|done].
    assert (iterators d1 = iterators d + 1 ∧ iter_claims iter1 = true
            ∧ -1 ≤ iter_index iter1) as (Hc1 & Hcl1 & Hi1).
    { destruct (dictNext_body_frame d dictGetSafeIterator d1 iter1 r1)
        as (_ & _ & _ & Hi & Hs & _ & Hbal); [simpl; lia|done|].
      revert Hbody. unfold dictNext_body. simpl.
      unfold int_incr. case_bool_decide; simpl; [|done].
      change (-1 + 1) with 0.
      destruct (0 >=? _).
      - destruct (dictIsRehashing _ && true).
        + destruct (table_get _ _) as [[|e next]|]; simpl; [| |done];
            intros [= <- <- <-]; simpl; splits; try done; lia.
        + intros [= <- <- <-]. simpl. splits; try done; lia.
      - destruct (table_get _ _) as [[|e next]|]; simpl; [| |done];
          intros [= <- <- <-]; simpl; splits; try done; lia. }
    destruct r1 as [e|].
    + by injection Hnext as <- <- <-.
    + destruct (dictNext_loop_frame _ _ _ _ _ _ Hi1 Hnext)
        as (_ & _ & _ & _ & _ & Hm & Hbal).
      rewrite (Hm Hcl1), Hcl1 in *. split; [lia|done].
  - intros iter d' iter' r Hidx Hnext Hcase.
    destruct (dictNext_frame _ _ _ _ _ Hidx Hnext)
      as (_ & _ & _ & _ & Hs & Hm & Hbal).
    destruct Hcase as [Hunsafe|Hcl].
    + unfold iter_claims in *. rewrite Hs, Hunsafe in *. simpl in *.
      split; [lia|done].
    + rewrite (Hm Hcl), Hcl in *. split; [lia|done].
  - intros iter d' Hrel. by apply dictReleaseIterator_frame in Hrel as (_ & _ & _ & ?).
  - done.
  - intros evs d' its' Hrun Hnone.
    apply run_events_balance in Hrun; [|by intros i iter Hi].
    rewrite (store_claims_released its') in Hrun by done.
    unfold store_claims in Hrun. simpl in Hrun. lia.
Qed.

(** *** Safe iteration suspends rehashing *)

Lemma amortized_step_suppressed d :
  iterators d ≠ 0 → amortized_step d = Some d.
Proof.
  intros Hit. unfold amortized_step, _dictRehashStep.
  apply Z.eqb_neq in Hit. rewrite Hit. by destruct (dictIsRehashing d).
Qed.

Lemma one_generation_not_moved d d' : one_generation_changes d d' → ¬ moved d d'.
Proof.
  intros [Heq|Heq] [e [(H1 & H2 & H3 & H4)|(H1 & H2 & H3 & H4)]];
    rewrite Heq in *; done.
Qed.

Lemma dictExpand_gens d sz d' r :
  dictExpand d sz = Some (d', r) →
  iterators d' = iterators d ∧
  (d' = d ∨
   (dictIsRehashing d' = false ∧ ht1 d' = ht1 d ∧
    ht_entries (ht0 d) = [] ∧ ht_entries (ht0 d') = []) ∨
   (dictIsRehashing d' = true ∧ ht0 d' = ht0 d)).
Proof.
  unfold dictExpand.
  destruct (dictIsRehashing d) eqn:Hre; simpl; [intros [= <- <-]; auto|].
  destruct (used (ht0 d) >? sz); [intros [= <- <-]; auto|].
  destruct (_dictNextPower sz) as [realsize|]; simpl; [|done].
  destruct (table (ht0 d)) eqn:Ht; intros [= <- <-]; simpl.
  - split; [done|]. right. right. done.
  - split; [done|]. right. left. split; [done|]. split; [done|].
    unfold ht_entries. simpl. rewrite Ht. simpl.
    unfold zcalloc_table. by rewrite concat_replicate_nil.
Qed.

Lemma _dictExpandIfNeeded_gens gate d d' r :
  _dictExpandIfNeeded gate d = Some (d', r) →
  iterators d' = iterators d ∧
  (d' = d ∨
   (dictIsRehashing d' = false ∧ ht1 d' = ht1 d ∧
    ht_entries (ht0 d) = [] ∧ ht_entries (ht0 d') = []) ∨
   (dictIsRehashing d' = true ∧ ht0 d' = ht0 d)).
Proof.
  unfold _dictExpandIfNeeded.
  destruct (dictIsRehashing d); [intros [= <- <-]; auto|].
  destruct (size (ht0 d) =? 0); [apply dictExpand_gens|].
  destruct (_ && _); [apply dictExpand_gens|intros [= <- <-]; auto].
Qed.

Lemma dictAdd_suppressed gate d k v d' r :
  iterators d ≠ 0 → dictAdd gate d k v = Some (d', r) →
  iterators d' = iterators d ∧ one_generation_changes d d'.
Proof.
  intros Hit. unfold dictAdd, dictAddRaw.
  change (if dictIsRehashing d then _dictRehashStep d else Some d)
    with (amortized_step d).
  rewrite amortized_step_suppressed by done. simpl.
  unfold _dictKeyIndex.
  destruct (_dictExpandIfNeeded gate d) as [[d2 r2]|] eqn:Hexp; simpl; [|done].
  apply _dictExpandIfNeeded_gens in Hexp as [Hit2 Hgens].
  assert (one_generation_changes d d2) as Hone.
  { destruct Hgens as [->|[(_ & H1 & _)|(_ & H0)]];
      [by left|right; by rewrite H1|left; by rewrite H0]. }
  assert (∀ index,
    (if index =? -1 then Some (d2, None)
     else
       table_get (ht d2 (if dictIsRehashing d2 then 1 else 0)) index ≫= λ next,
       table_set (ht d2 (if dictIsRehashing d2 then 1 else 0)) index
         (dictSetKey k :: next) ≫= λ h,
       Some (set_ht d2 (if dictIsRehashing d2 then 1 else 0)
                    (set_used h (to_ulong (used h + 1))),
             Some (if dictIsRehashing d2 then 1 else 0, index)))
    ≫= (λ '(d0, entry),
          match entry with
          | Some (t, index0) =>
              table_get (ht d0 t) index0 ≫= λ he,
              match he with
              | [] => None
              | e :: next =>
                  table_set (ht d0 t) index0 (dictSetVal e v :: next) ≫= λ h,
                  Some (set_ht d0 t h, DICT_OK)
              end
          | None => Some (d0, DICT_ERR)
          end) = Some (d', r) →
    iterators d' = iterators d ∧ one_generation_changes d d') as Hlink.
  { intros index. destruct (index =? -1); simpl.
    { intros [= <- <-]. done. }
    destruct (table_get _ index) as [next|]; simpl; [|done].
    destruct (table_set _ index _) as [h|]; simpl; [|done].
    destruct (dictIsRehashing d2) eqn:Hre2; simpl.
    - destruct (table_get _ index) as [[|e nx]|]; simpl; [done| |done].
      destruct (table_set _ index _) as [h'|]; simpl; [|done].
      intros [= <- <-]. unfold set_ht. simpl. split; [done|]. left. simpl.
      destruct Hgens as [->|[(Hf & _)|(_ & H0)]]; [done|congruence|].
      by rewrite H0.
    - destruct (table_get _ index) as [[|e nx]|]; simpl; [done| |done].
      destruct (table_set _ index _) as [h'|]; simpl; [|done].
      intros [= <- <-]. unfold set_ht. simpl. split; [done|]. right. simpl.
      destruct Hgens as [->|[(_ & H1 & _)|(Hf & _)]]; [done| |congruence].
      by rewrite H1. }
  destruct (r2 =? DICT_ERR); simpl.
  { intros [= <- <-]. done. }
  destruct (table_get (ht0 d2) _) as [he|]; simpl; [|done].
  destruct (chain_find k he); simpl.
  { intros [= <- <-]. done. }
  destruct (negb (dictIsRehashing d2)); simpl; [apply Hlink|].
  destruct (table_get (ht1 d2) _) as [he1|]; simpl; [|done].
  destruct (chain_find k he1); simpl; [|apply Hlink].
  intros [= <- <-]. done.
Qed.

Lemma dictFind_suppressed d k d' r :
  iterators d ≠ 0 → dictFind d k = Some (d', r) → d' = d.
Proof.
  intros Hit. unfold dictFind.
  destruct (size (ht0 d) =? 0); [by intros [= <- <-]|].
  change (if dictIsRehashing d then _dictRehashStep d else Some d)
    with (amortized_step d).
  rewrite amortized_step_suppressed by done. simpl.
  destruct (table_get (ht0 d) _) as [he|]; simpl; [|done].
  destruct (chain_find k he); [by intros [= <- <-]|].
  destruct (negb _); [by intros [= <- <-]|].
  destruct (table_get (ht1 d) _); simpl; [|done].
  by intros [= <- <-].
Qed.

Lemma dictGenericDelete_suppressed d k nofree d' r :
  iterators d ≠ 0 → dictGenericDelete d k nofree = Some (d', r) →
  iterators d' = iterators d ∧ one_generation_changes d d'.
Proof.
  intros Hit. unfold dictGenericDelete.
  destruct (size (ht0 d) =? 0); [intros [= <- <-]; split; [done|by left]|].
  change (if dictIsRehashing d then _dictRehashStep d else Some d)
    with (amortized_step d).
  rewrite amortized_step_suppressed by done. simpl.
  destruct (table_get (ht0 d) _) as [he|]; simpl; [|done].
  destruct (chain_unlink k he).
  { destruct (table_set _ _ _); simpl; [|done].
    intros [= <- <-]. split; [done|by right]. }
  destruct (negb _); [intros [= <- <-]; split; [done|by left]|].
  destruct (table_get (ht1 d) _) as [he1|]; simpl; [|done].
  destruct (chain_unlink k he1); [|intros [= <- <-]; split; [done|by left]].
  destruct (table_set _ _ _); simpl; [|done].
  intros [= <- <-]. split; [done|by left].
Qed.

Lemma run_op_suppressed gate d o d' :
  iterators d ≠ 0 → run_op gate d o = Some d' →
  iterators d' = iterators d ∧ one_generation_changes d d'.
Proof.
  intros Hit. destruct o as [k v|k|k]; simpl.
  - destruct (dictAdd gate d k v) as [[d1 r]|] eqn:Hrun; simpl; [|done].
    intros [= <-]. exact (dictAdd_suppressed _ _ _ _ _ _ Hit Hrun).
  - destruct (dictFind d k) as [[d1 r]|] eqn:Hrun; simpl; [|done].
    intros [= <-]. apply dictFind_suppressed in Hrun as ->; [|done].
    split; [done|by left].
  - destruct (dictDelete d k) as [[d1 r]|] eqn:Hrun; simpl; [|done].
    intros [= <-]. exact (dictGenericDelete_suppressed _ _ _ _ _ Hit Hrun).
Qed.

(** C8.  From a state whose [iterators] counter is not zero, along any
    sequence of add, find and delete operations the counter keeps its
    value, the amortized rehash step of every operation does nothing, each
    operation changes the entries of at most one generation, and so no
    entry moves between the primary and the incoming array. *)
Theorem no_move_while_iterating gate d os ds :
  iterators d ≠ 0 → run_ops gate d os = Some ds →
  Forall (λ d', iterators d' = iterators d ∧ amortized_step d' = Some d') ds ∧
  ∀ (i : nat) d1 d2,
    (d :: ds) !! i = Some d1 → (d :: ds) !! S i = Some d2 →
    one_generation_changes d1 d2 ∧ ¬ moved d1 d2.
Proof.
  revert d ds. induction os as [|o os IH]; intros d ds Hit; simpl.
  - intros [= <-]. split; [constructor|]. intros i d1 d2 _ Hi. by destruct i.
  - destruct (run_op gate d o) as [d'|] eqn:Hop; simpl; [|done].
    destruct (run_ops gate d' os) as [ds'|] eqn:Hrest; simpl; [|done].
    intros [= <-].
    destruct (run_op_suppressed _ _ _ _ Hit Hop) as [Hit' Hone].
    destruct (IH d' ds') as [Hall Hsteps]; [congruence|done|].
    split.
    + constructor.
      * split; [done|]. apply amortized_step_suppressed. congruence.
      * eapply Forall_impl; [exact Hall|]. simpl. intros x [Hx ?].
        split; [congruence|done].
    + intros [|i] d1 d2; simpl.
      * intros [= <-] [= <-]. split; [done|by apply one_generation_not_moved].
      * apply Hsteps.
Qed.

(** *** Leaving the rehashing state *)

Lemma dictRehash_loop_completes n d d' r :
  dictIsRehashing d = true → dictRehash_loop n d = Some (d', r) →
  dictIsRehashing d' = false →
  r = 0 ∧ ∃ d1, used (ht0 d1) = 0 ∧ d' = promoted d1.
Proof.
  revert d. induction n as [|n IH]; intros d Hre; simpl.
  - intros [= <- <-]. congruence.
  - destruct (dictRehash_body d) as [[d1|d1]|] eqn:Hbody; simpl; [| |done].
    + apply dictRehash_body_inl in Hbody as (_ & Hidx & _).
      apply IH. apply dictIsRehashing_true. lia.
    + apply dictRehash_body_inr in Hbody as [Hu ->].
      intros [= <- <-] _. split; [done|]. by exists d.
Qed.

Lemma amortized_step_completes d d1 :
  dictIsRehashing d = true → amortized_step d = Some d1 →
  dictIsRehashing d1 = false →
  iterators d = 0 ∧ used (ht0 d) = 0 ∧ d1 = promoted d.
Proof.
  intros Hre. unfold amortized_step, _dictRehashStep. rewrite Hre.
  destruct (iterators d =? 0) eqn:Hit; [|intros [= <-]; congruence].
  apply Z.eqb_eq in Hit.
  unfold dictRehash. rewrite Hre. simpl.
  destruct (dictRehash_body d) as [[d2|d2]|] eqn:Hbody; simpl; [| |done].
  - apply dictRehash_body_inl in Hbody as (_ & Hidx & _).
    intros [= <-] Hst. apply dictIsRehashing_false in Hst. lia.
  - apply dictRehash_body_inr in Hbody as [Hu ->]. by intros [= <-] _.
Qed.

Lemma _dictKeyIndex_rehashing gate d k d' r :
  dictIsRehashing d = true → _dictKeyIndex gate d k = Some (d', r) → d' = d.
Proof.
  intros Hre. unfold _dictKeyIndex, _dictExpandIfNeeded. rewrite Hre. simpl.
  destruct (table_get (ht0 d) _) as [he|]; simpl; [|done].
  destruct (chain_find k he); [by intros [= <- <-]|].
  rewrite Hre. simpl.
  destruct (table_get (ht1 d) _) as [he1|]; simpl; [|done].
  destruct (chain_find k he1); by intros [= <- <-].
Qed.

Lemma dictAddRaw_after_step gate d k d' r :
  dictAddRaw gate d k = Some (d', r) →
  ∃ d1, amortized_step d = Some d1 ∧
        (dictIsRehashing d1 = true → dictIsRehashing d' = true ∧
           ∀ t idx, r = Some (t, idx) → t = 1).
Proof.
  unfold dictAddRaw.
  change (if dictIsRehashing d then _dictRehashStep d else Some d)
    with (amortized_step d).
  destruct (amortized_step d) as [d1|]; simpl; [|done].
  intros Hrun. exists d1. split; [done|]. intros Hre. revert Hrun.
  destruct (_dictKeyIndex gate d1 k) as [[d2 index]|] eqn:Hidx; simpl; [|done].
  apply _dictKeyIndex_rehashing in Hidx as ->; [|done].
  destruct (index =? -1); [intros [= <- <-]; by split|].
  rewrite Hre.
  destruct (table_get _ _); simpl; [|done].
  destruct (table_set _ _ _); simpl; [|done].
  intros [= <- <-]. split; [done|]. by intros t idx [= <- <-].
Qed.

Lemma dictAdd_after_step gate d k v d' r :
  dictAdd gate d k v = Some (d', r) →
  ∃ d1, amortized_step d = Some d1 ∧
        (dictIsRehashing d1 = true → dictIsRehashing d' = true).
Proof.
  unfold dictAdd.
  destruct (dictAddRaw gate d k) as [[d2 entry]|] eqn:Hraw; simpl; [|done].
  apply dictAddRaw_after_step in Hraw as (d1 & Hstep & Hre).
  intros Hrun. exists d1. split; [done|]. intros [Hre2 Ht]%Hre. revert Hrun.
  destruct entry as [[t index]|]; [|by intros [= <- <-]].
  rewrite (Ht t index eq_refl).
  destruct (table_get _ _) as [[|e next]|]; simpl; [done| |done].
  destruct (table_set _ _ _); simpl; [|done].
  by intros [= <- <-].
Qed.

Lemma dictFind_after_step d k d' r :
  dictFind d k = Some (d', r) → d' = d ∨ amortized_step d = Some d'.
Proof.
  unfold dictFind.
  destruct (size (ht0 d) =? 0); [intros [= <- <-]; by left|].
  change (if dictIsRehashing d then _dictRehashStep d else Some d)
    with (amortized_step d).
  destruct (amortized_step d) as [d1|]; simpl; [|done].
  destruct (table_get (ht0 d1) _) as [he|]; simpl; [|done].
  destruct (chain_find k he); [intros [= <- <-]; by right|].
  destruct (negb _); [intros [= <- <-]; by right|].
  destruct (table_get (ht1 d1) _); simpl; [|done].
  intros [= <- <-]. by right.
Qed.

Lemma dictGenericDelete_after_step d k nofree d' r :
  dictGenericDelete d k nofree = Some (d', r) →
  d' = d ∨ ∃ d1, amortized_step d = Some d1 ∧ rehashidx d' = rehashidx d1.
Proof.
  unfold dictGenericDelete.
  destruct (size (ht0 d) =? 0); [intros [= <- <-]; by left|].
  change (if dictIsRehashing d then _dictRehashStep d else Some d)
    with (amortized_step d).
  destruct (amortized_step d) as [d1|]; simpl; [|done].
  intros Hrun. right. exists d1. split; [done|]. revert Hrun.
  destruct (table_get (ht0 d1) _) as [he|]; simpl; [|done].
  destruct (chain_unlink k he).
  { destruct (table_set _ _ _); simpl; [|done]. by intros [= <- <-]. }
  destruct (negb _); [by intros [= <- <-]|].
  destruct (table_get (ht1 d1) _) as [he1|]; simpl; [|done].
  destruct (chain_unlink k he1); [|by intros [= <- <-]].
  destruct (table_set _ _ _); simpl; [|done].
  by intros [= <- <-].
Qed.

(** C1, as amended.  On a well-formed rehashing table one rehash step
    skips the empty slots at the cursor and drains the first non-empty one:
    every entry of its chain goes to the head of the chain of the incoming
    slot its hash selects under the incoming mask, the primary count drops
    and the incoming count grows by the length of the chain, and the cursor
    moves past the slot.  When the primary count is 0 the step promotes the
    incoming array, resets the incoming slot and sets the cursor to -1.
    Among rehash steps, add, find, delete, iteration and random sampling
    this completion is the only way from rehashing back to stable. *)
Theorem dictRehash_step_spec d :
  dict_wf d → dictIsRehashing d = true →
  (used (ht0 d) ≠ 0 →
     ∃ (j : Z) de d',
       dictRehash d 1 = Some (d', 1) ∧
       rehashidx d ≤ j < size (ht0 d) ∧
       (∀ i, rehashidx d ≤ i < j → table_get (ht0 d) i = Some []) ∧
       table_get (ht0 d) j = Some de ∧ de ≠ [] ∧
       table_get (ht0 d') j = Some [] ∧
       (∀ i, i ≠ j → table_get (ht0 d') i = table_get (ht0 d) i) ∧
       (∀ i c, table_get (ht1 d) i = Some c →
          table_get (ht1 d') i =
            Some (reverse (filter (λ e, slot_of (ht1 d) (key e) = i) de) ++ c)) ∧
       used (ht0 d') = used (ht0 d) - Z.of_nat (length de) ∧
       used (ht1 d') = used (ht1 d) + Z.of_nat (length de) ∧
       rehashidx d' = j + 1 ∧ dictIsRehashing d' = true) ∧
  (used (ht0 d) = 0 →
     dictRehash d 1 = Some (promoted d, 0) ∧
     ht0 (promoted d) = ht1 d ∧ ht1 (promoted d) = _dictReset ∧
     rehashidx (promoted d) = -1) ∧
  (∀ n d' r, dictRehash d n = Some (d', r) → dictIsRehashing d' = false →
     r = 0 ∧ ∃ d1, used (ht0 d1) = 0 ∧ d' = promoted d1) ∧
  (∀ gate k v d' r, dictAdd gate d k v = Some (d', r) →
     dictIsRehashing d' = false → iterators d = 0 ∧ used (ht0 d) = 0) ∧
  (∀ k d' r, dictFind d k = Some (d', r) →
     dictIsRehashing d' = false →
     iterators d = 0 ∧ used (ht0 d) = 0 ∧ d' = promoted d) ∧
  (∀ k nofree d' r, dictGenericDelete d k nofree = Some (d', r) →
     dictIsRehashing d' = false → iterators d = 0 ∧ used (ht0 d) = 0) ∧
  (∀ rs d' r rs', dictGetRandomKey d rs = Some (d', r, rs') →
     dictIsRehashing d' = false →
     iterators d = 0 ∧ used (ht0 d) = 0 ∧ d' = promoted d) ∧
  (∀ iter d' iter' r, dictNext d iter = Some (d', iter', r) →
     dictIsRehashing d' = true) ∧
  (∀ iter d', dictReleaseIterator d iter = Some d' → dictIsRehashing d' = true).
Proof.
  intros Hwf Hre. splits.
  - intros Hu.
    destruct (dictRehash_body_step d Hwf Hre Hu)
      as (j & de & d' & Hbody & Hj & Hskip & Hde & Hne & Hidx & _ & _ & _ & Hu0
          & Hemp & Hoth & _ & _ & Hu1 & Hch & _ & _).
    exists j, de, d'. unfold dictRehash. rewrite Hre. simpl. rewrite Hbody. simpl.
    destruct (dict_wf_rehashing d Hwf Hre) as (_ & _ & _ & _ & _ & _ & _ & Hr0 & _).
    splits; try done; try lia. apply dictIsRehashing_true. lia.
  - intros Hu. unfold dictRehash. rewrite Hre. simpl.
    by rewrite dictRehash_body_done.
  - intros n d' r [m Hloop]%dictRehash_loop_of; [|done].
    by eapply dictRehash_loop_completes.
  - intros gate k v d' r (d1 & Hstep & Hkeep)%dictAdd_after_step Hst.
    destruct (dictIsRehashing d1) eqn:Hre1; [rewrite Hkeep in Hst; done|].
    by destruct (amortized_step_completes d d1 Hre Hstep Hre1) as (? & ? & _).
  - intros k d' r [->|Hstep]%dictFind_after_step Hst; [congruence|].
    by apply amortized_step_completes.
  - intros k nofree d' r [->|(d1 & Hstep & Hidx)]%dictGenericDelete_after_step Hst;
      [congruence|].
    assert (dictIsRehashing d1 = false) as Hre1.
    { apply dictIsRehashing_false. apply dictIsRehashing_false in Hst. congruence. }
    by destruct (amortized_step_completes d d1 Hre Hstep Hre1) as (? & ? & _).
  - intros rs d' r rs' [->|Hstep]%dictGetRandomKey_state Hst; [congruence|].
    by apply amortized_step_completes.
  - intros iter d' iter' r (_ & _ & Hidx)%dictNext_tables.
    apply dictIsRehashing_true. apply dictIsRehashing_true in Hre. congruence.
  - intros iter d' (_ & _ & Hidx & _)%dictReleaseIterator_frame.
    apply dictIsRehashing_true. apply dictIsRehashing_true in Hre. congruence.
Qed.

(** *** The executable invariants are sound *)

Lemma ht_wfb_sound h : ht_wfb h = true → ht_wf h.
Proof.
  unfold ht_wfb, ht_wf. destruct (table h) as [tbl|].
  - rewrite !andb_true_iff.
    intros (((((Hlen & Hpos) & Hle) & Hmask) & Hused) & Hslots).
    apply Z.eqb_eq in Hlen, Hmask, Hused. apply Z.ltb_lt in Hpos.
    apply Z.leb_le in Hle. splits; try done.
    intros i c Hi. rewrite forallb_forall in Hslots.
    specialize (Hslots (i, c)). simpl in Hslots.
    apply Forall_forall. intros e He.
    assert (forallb (λ e, slot_of h (key e) =? Z.of_nat i) c = true) as Hc.
    { apply Hslots. apply list_elem_of_In, list_elem_of_lookup.
      exists i. by rewrite list_lookup_imap, Hi. }
    rewrite forallb_forall in Hc. apply Z.eqb_eq, Hc. by apply list_elem_of_In.
  - rewrite !andb_true_iff. intros ((Hs & Hm) & Hu).
    apply Z.eqb_eq in Hs, Hm, Hu. done.
Qed.

Lemma cursor_invb_sound d : cursor_invb d = true → cursor_inv d.
Proof.
  unfold cursor_invb, cursor_inv. intros Hb i c Hi Hget.
  apply table_get_Some in Hget as (tbl & Ht & Hr & Hl). rewrite Ht in Hb.
  rewrite forallb_forall in Hb. specialize (Hb c).
  destruct c; [done|]. discriminate Hb.
  apply list_elem_of_In, list_elem_of_lookup. exists (Z.to_nat i).
  rewrite lookup_take_lt by lia. done.
Qed.

Lemma dict_wfb_sound d : dict_wfb d = true → dict_wf d.
Proof.
  unfold dict_wfb, dict_wf. rewrite !andb_true_iff.
  intros (((Hw0%ht_wfb_sound & Hw1%ht_wfb_sound) & Hsum%Z.leb_le) & Hre).
  splits; try done.
  destruct (dictIsRehashing d).
  - rewrite !andb_true_iff in Hre.
    destruct Hre as ((((H0%Z.leb_le & Hle%Z.leb_le) & Ht0%bool_decide_eq_true_1)
                      & Ht1%bool_decide_eq_true_1) & Hcur%cursor_invb_sound).
    by splits.
  - by destruct (table (ht1 d)).
Qed.

(** When comparison is equality of keys, a table whose entries hold
    pairwise distinct keys has unique keys. *)
Lemma keys_unique_NoDup d :
  (∀ k1 k2 : K, dictCompareKeys k1 k2 = true → k1 = k2) →
  NoDup (key <$> dict_entries d) → keys_unique d.
Proof.
  intros Heq Hnd k. generalize dependent (dict_entries d). intros es.
  induction es as [|e es IH]; simpl; [unfold matching; simpl; lia|].
  intros [Hnotin Hnd]%NoDup_cons. specialize (IH Hnd).
  unfold matching in *. rewrite filter_cons.
  destruct (decide _) as [Hc|]; [|done]. simpl.
  assert (filter (λ e0, dictCompareKeys k (key e0) = true) es = []) as ->; [|simpl; lia].
  apply matching_nil_iff. intros e' He'. apply not_true_is_false. intros Hc'.
  apply Heq in Hc, Hc'. apply Hnotin. rewrite <- Hc, Hc'.
  by apply list_elem_of_fmap_2.
Qed.

(** *** Reachable tables *)

Lemma dictCreate_wf :
  dict_wf (@dictCreate K V) ∧ keys_unique (@dictCreate K V) ∧
  cursor_inv (@dictCreate K V).
Proof.
  split; [|split].
  - apply dict_wfb_sound. reflexivity.
  - intros k. unfold matching. simpl. lia.
  - apply cursor_inv_stable. simpl. lia.
Qed.

Lemma dict_wf_used d :
  dict_wf d → used (ht0 d) + used (ht1 d) = Z.of_nat (length (dict_entries d)).
Proof.
  intros (Hw0 & Hw1 & _). unfold dict_entries. rewrite length_app.
  rewrite (ht_wf_used _ Hw0), (ht_wf_used _ Hw1). lia.
Qed.

Lemma keys_unique_perm d d' :
  dict_entries d' ≡ₚ dict_entries d → keys_unique d → keys_unique d'.
Proof.
  intros Hp Hu k. specialize (Hu k).
  by rewrite (Permutation_length (matching_perm k _ _ Hp)).
Qed.

Lemma keys_unique_remove d d' e :
  dict_entries d ≡ₚ e :: dict_entries d' → keys_unique d → keys_unique d'.
Proof.
  intros Hp Hu k. specialize (Hu k).
  rewrite (Permutation_length (matching_perm k _ _ Hp)) in Hu.
  unfold matching in *. rewrite filter_cons in Hu.
  destruct (decide _); simpl in Hu; lia.
Qed.

Lemma keys_unique_add d d' k e :
  compare_sym → compare_trans →
  dict_entries d' ≡ₚ e :: dict_entries d → key e = k →
  matching k (dict_entries d) = [] → keys_unique d → keys_unique d'.
Proof.
  intros Hsym Htrans Hp <- Habs Hu k'. specialize (Hu k').
  rewrite (Permutation_length (matching_perm k' _ _ Hp)).
  unfold matching in *. rewrite filter_cons.
  destruct (decide _) as [Hc|]; [|done]. simpl.
  assert (filter (λ e, dictCompareKeys k' (key e) = true) (dict_entries d) = [])
    as ->; [|simpl; lia].
  apply matching_nil_iff. intros e' He. apply not_true_is_false. intros Hc'.
  assert (e' ∈ matching (key e) (dict_entries d)) as Hin.
  { apply list_elem_of_filter. split; [|done]. eapply Htrans; [|exact Hc']. by apply Hsym. }
  unfold matching in Hin. rewrite Habs in Hin. by apply elem_of_nil in Hin.
Qed.

(** From a well-formed table without duplicate keys every add, find and
    delete returns and leaves such a table, as long as the entries stay
    below 2^29: the tables a program can reach from [dictCreate] are the
    well-formed ones. *)
Lemma run_op_wf gate d o :
  compare_sym → compare_trans → compare_hash →
  dict_wf d → keys_unique d →
  (op_adds o = true → Z.of_nat (length (dict_entries d)) < 2 ^ 29) →
  ∃ d', run_op gate d o = Some d' ∧ dict_wf d' ∧ keys_unique d' ∧
        (length (dict_entries d') ≤ S (length (dict_entries d)))%nat.
Proof.
  intros Hsym Htrans Hcompat Hwf Hu Hlen.
  destruct o as [k v|k|k]; simpl.
  - destruct (dictAdd_wf gate d k v Hwf) as (d' & res & -> & Hwf' & _ & Hcases).
    { rewrite dict_wf_used by done. by apply Hlen. }
    exists d'. simpl. split; [done|]. split; [done|].
    destruct Hcases as [(_ & Hp & _)|(_ & Hp & Habs)].
    + split; [by eapply keys_unique_perm|]. rewrite (Permutation_length Hp). lia.
    + split; [by eapply (keys_unique_add d d' k); eauto|].
      rewrite (Permutation_length Hp). simpl. lia.
  - destruct (dictFind_wf d k Hwf) as (d' & r & -> & Hwf' & Hp & _).
    exists d'. simpl. split; [done|]. split; [done|].
    split; [by eapply keys_unique_perm|]. rewrite (Permutation_length Hp). lia.
  - unfold dictDelete.
    destruct (dictGenericDelete_wf d k false Hwf)
      as (d' & res & -> & Hwf' & _ & Hzero & Hnz).
    exists d'. simpl. split; [done|]. split; [done|].
    destruct (Z.eq_dec (size (ht0 d)) 0) as [Hz|Hne].
    { destruct (Hzero Hz) as [-> _]. split; [done|lia]. }
    destruct (Hnz Hne) as (d1 & Hstep & Hcases).
    destruct (amortized_step_wf d Hwf) as (d1' & Hstep' & _ & Hp1 & _).
    rewrite Hstep in Hstep'. injection Hstep' as <-.
    destruct Hcases as [(_ & -> & _)|(_ & _ & e & _ & Hgone)].
    + split; [by eapply keys_unique_perm|]. rewrite (Permutation_length Hp1). lia.
    + assert (dict_entries d ≡ₚ e :: dict_entries d') as Hp.
      { rewrite <- Hp1. unfold dict_entries.
        destruct Hgone as [[Hp ->]|[Hp ->]]; rewrite Hp; [done|].
        by rewrite Permutation_middle. }
      split; [by eapply keys_unique_remove|].
      rewrite (Permutation_length Hp). simpl. lia.
Qed.

Lemma exec_ops_wf gate os d :
  compare_sym → compare_trans → compare_hash →
  dict_wf d → keys_unique d →
  Z.of_nat (length (dict_entries d)) + Z.of_nat (length os) ≤ 2 ^ 29 →
  ∃ d', exec_ops gate d os = Some d' ∧ dict_wf d' ∧ keys_unique d'.
Proof.
  intros Hsym Htrans Hcompat. revert d.
  induction os as [|o os IH]; intros d Hwf Hu Hlen; simpl.
  - by exists d.
  - simpl in Hlen.
    destruct (run_op_wf gate d o) as (d1 & -> & Hwf1 & Hu1 & Hlen1);
      [done..|intros _; lia|].
    simpl. apply IH; [done..|lia].
Qed.

(** The operations return on every well-formed table, whatever its keys
    and its type descriptor. *)
Lemma run_op_safe gate d o :
  dict_wf d →
  (op_adds o = true → Z.of_nat (length (dict_entries d)) < 2 ^ 29) →
  ∃ d', run_op gate d o = Some d' ∧ dict_wf d' ∧
        (length (dict_entries d') ≤ S (length (dict_entries d)))%nat.
Proof.
  intros Hwf Hlen.
  destruct o as [k v|k|k]; simpl.
  - destruct (dictAdd_wf gate d k v Hwf) as (d' & res & -> & Hwf' & _ & Hcases).
    { rewrite dict_wf_used by done. by apply Hlen. }
    exists d'. simpl. split; [done|]. split; [done|].
    destruct Hcases as [(_ & Hp & _)|(_ & Hp & _)];
      rewrite (Permutation_length Hp); simpl; lia.
  - destruct (dictFind_wf d k Hwf) as (d' & r & -> & Hwf' & Hp & _).
    exists d'. simpl. split; [done|]. split; [done|].
    rewrite (Permutation_length Hp). lia.
  - unfold dictDelete.
    destruct (dictGenericDelete_wf d k false Hwf)
      as (d' & res & Hrun & Hwf' & _ & Hzero & Hnz).
    rewrite Hrun. exists d'. simpl. split; [done|]. split; [done|].
    destruct (Z.eq_dec res DICT_OK) as [->|Hres].
    + destruct (dictGenericDelete_unlinked d k false d' Hwf Hrun)
        as (_ & e & _ & Hp).
      rewrite (Permutation_length Hp). simpl. lia.
    + destruct (Z.eq_dec (size (ht0 d)) 0) as [Hz|Hne].
      { destruct (Hzero Hz) as [-> _]. lia. }
      destruct (Hnz Hne) as (d1 & Hstep & [(_ & -> & _)|(-> & _)]); [|done].
      destruct (amortized_step_wf d Hwf) as (d1' & Hstep' & _ & Hp1 & _).
      rewrite Hstep in Hstep'. injection Hstep' as <-.
      rewrite (Permutation_length Hp1). lia.
Qed.

(** A run no longer than the room left gives every [dictAdd] room. *)
Lemma adds_have_room_short gos : ∀ d,
  dict_wf d →
  Z.of_nat (length (dict_entries d)) + Z.of_nat (length gos) ≤ 2 ^ 29 →
  adds_have_room d gos.
Proof.
  induction gos as [|[gate o] gos IH]; intros d Hwf Hlen; simpl; [done|].
  simpl in Hlen. split; [lia|]. intros d' Hrun.
  destruct (run_op_safe gate d o Hwf) as (d1 & Hrun1 & Hwf1 & Hlen1); [lia|].
  rewrite Hrun in Hrun1. injection Hrun1 as <-. apply IH; [done|lia].
Qed.

(** A run under one setting of the gate. *)
Lemma exec_gated_ops_const gate os : ∀ d,
  exec_gated_ops d (map (pair gate) os) = exec_ops gate d os.
Proof.
  induction os as [|o os IH]; intros d; simpl; [done|].
  destruct (run_op gate d o); simpl; [apply IH|done].
Qed.

(** The invariants along a run. *)
Lemma exec_gated_ops_wf gos : ∀ d,
  compare_sym → compare_trans → compare_hash →
  dict_wf d → keys_unique d → adds_have_room d gos →
  ∃ d', exec_gated_ops d gos = Some d' ∧ dict_wf d' ∧ keys_unique d'.
Proof.
  intros d Hsym Htrans Hcompat. revert d.
  induction gos as [|[gate o] gos IH]; intros d Hwf Hu Hroom; simpl.
  - by exists d.
  - destruct Hroom as [Hadd Hrest].
    destruct (run_op_wf gate d o) as (d1 & Hrun & Hwf1 & Hu1 & _); [done..|].
    rewrite Hrun. simpl. apply IH; [done..|]. by apply Hrest.
Qed.

(** *** [dictNext] returns *)

Lemma ht_wf_slots h : ht_wf h → Z.of_nat (ht_slots h) = size h ∧ 0 ≤ size h ≤ 2 ^ 30.
Proof.
  unfold ht_wf, ht_slots. destruct (table h) as [tbl|]; simpl.
  - intros (? & ? & _). lia.
  - intros (-> & _). lia.
Qed.

Lemma ht_wf_get h i : ht_wf h → 0 ≤ i < size h → is_Some (table_get h i).
Proof.
  intros Hw Hi. pose proof Hw as Hw'. unfold ht_wf in Hw'.
  destruct (table h) as [tbl|] eqn:Ht; [|lia].
  destruct Hw' as (Hlen & _).
  rewrite (table_get_lookup h tbl) by (done || lia).
  apply lookup_lt_is_Some. lia.
Qed.

Lemma dictNext_loop_total fuel : ∀ d (iter : @dictIterator K V),
  dict_wf d →
  iter_table iter = 0 ∨ iter_table iter = 1 →
  -1 ≤ iter_index iter < INT_MAX →
  (iter_index iter = -1 → iterators d < INT_MAX) →
  iter_entry iter = [] →
  slots_left d iter ≤ Z.of_nat fuel →
  is_Some (dictNext_loop fuel d iter).
Proof.
  induction fuel as [|fuel IH]; intros d iter Hwf Htab Hidx Hits Hent Hfuel.
  all: pose proof Hwf as (Hw0 & Hw1 & _ & Hre).
  all: destruct (ht_wf_slots _ Hw0) as [_ Hs0], (ht_wf_slots _ Hw1) as [_ Hs1].
  { unfold slots_left in Hfuel. destruct (iter_table iter =? 0); lia. }
  cbn [dictNext_loop]. unfold dictNext_body. rewrite Hent.
  set (d1 := if iter_safe iter && (iter_index iter =? -1) && (iter_table iter =? 0)
             then i ← int_incr (iterators d); Some (set_iterators d i)
             else Some d).
  assert (∃ d', d1 = Some d' ∧ ht0 d' = ht0 d ∧ ht1 d' = ht1 d ∧
                rehashidx d' = rehashidx d) as (d' & -> & He0 & He1 & Her).
  { subst d1. destruct (iter_safe iter && (iter_index iter =? -1) &&
                        (iter_table iter =? 0)) eqn:Hfresh; [|by exists d].
    apply andb_prop in Hfresh as [[_ Hm%Z.eqb_eq]%andb_prop _].
    unfold int_incr. rewrite bool_decide_true by auto. simpl. by eexists. }
  assert (dict_wf d') as Hwf'.
  { unfold dict_wf, dictIsRehashing, cursor_inv in *. by rewrite He0, He1, Her. }
  simpl. unfold int_incr. rewrite bool_decide_true by lia. simpl.
  unfold ht, INT_MAX in *. rewrite He0, He1.
  unfold dictIsRehashing in *. rewrite Her.
  assert (∀ h : @dictht K V, 0 ≤ size h ≤ 2 ^ 30 → to_int (size h) = size h) as Hti.
  { intros h Hh. apply to_int_small. lia. }
  destruct Htab as [Ht|Ht]; rewrite Ht; simpl.
  - rewrite (Hti _ Hs0).
    destruct (Z.geb_spec (iter_index iter + 1) (size (ht0 d))) as [Hge|Hlt].
    + destruct (negb (rehashidx d =? -1)) eqn:Hr; simpl; [|done].
      destruct Hre as (_ & _ & [tbl1 Ht1] & _).
      destruct (ht_wf_get (ht1 d) 0 Hw1) as [c Hc].
      { unfold ht_wf in Hw1. rewrite Ht1 in Hw1. lia. }
      rewrite Hc. simpl. destruct c as [|e c]; simpl; [|done].
      apply IH; simpl; try done; try lia; try (by right).
      unfold slots_left in *. rewrite Ht in Hfuel. simpl in *. rewrite He1. lia.
    + destruct (ht_wf_get (ht0 d) (iter_index iter + 1) Hw0) as [c Hc]; [lia|].
      rewrite Hc. simpl. destruct c as [|e c]; simpl; [|done].
      apply IH; simpl; try done; try lia; try (by left).
      unfold slots_left in *. rewrite Ht in Hfuel. simpl in *.
      rewrite ?Ht, ?He0, ?He1. simpl. lia.
  - rewrite (Hti _ Hs1). rewrite andb_false_r.
    destruct (Z.geb_spec (iter_index iter + 1) (size (ht1 d))) as [Hge|Hlt]; [done|].
    destruct (ht_wf_get (ht1 d) (iter_index iter + 1) Hw1) as [c Hc]; [lia|].
    rewrite Hc. simpl. destruct c as [|e c]; simpl; [|done].
    apply IH; simpl; try done; try lia; try (by right).
    unfold slots_left in *. rewrite Ht in Hfuel. simpl in *.
    rewrite ?Ht, ?He1. simpl. lia.
Qed.

(** On a well-formed table [dictNext] returns, whatever the position of
    the iterator: the passes given to the loop are enough. *)
Lemma dictNext_total d (iter : @dictIterator K V) :
  dict_wf d →
  iter_table iter = 0 ∨ iter_table iter = 1 →
  -1 ≤ iter_index iter < INT_MAX →
  iterators d < INT_MAX →
  is_Some (dictNext d iter).
Proof.
  intros Hwf Htab Hidx Hits. unfold dictNext.
  pose proof Hwf as (Hw0 & Hw1 & _).
  destruct (ht_wf_slots _ Hw0) as [Hl0 Hs0]. destruct (ht_wf_slots _ Hw1) as [Hl1 Hs1].
  assert (slots_left d iter ≤ Z.of_nat (2 + ht_slots (ht0 d) + ht_slots (ht1 d))) as Hfuel.
  { unfold slots_left. destruct (iter_table iter =? 0); lia. }
  destruct (iter_entry iter) as [|e c] eqn:Hent.
  { apply dictNext_loop_total; try done. lia. }
  change (3 + ht_slots (ht0 d) + ht_slots (ht1 d))%nat
    with (S (2 + ht_slots (ht0 d) + ht_slots (ht1 d))).
  remember (2 + ht_slots (ht0 d) + ht_slots (ht1 d))%nat as fuel.
  cbn [dictNext_loop]. unfold dictNext_body. rewrite Hent. simpl.
  destruct (iter_nextEntry iter) as [|e' c'] eqn:Hnext; simpl; [|done].
  by apply dictNext_loop_total.
Qed.

(** *** Lookups *)

Lemma matching_head_perm k (l1 l2 : list (@dictEntry K V)) :
  l1 ≡ₚ l2 → (length (matching k l1) ≤ 1)%nat →
  head (matching k l1) = head (matching k l2).
Proof.
  intros Hp%(matching_perm k) Hlen.
  destruct (matching k l1) as [|a [|b l]]; simpl in Hlen; [| |lia].
  - by apply Permutation_nil_l in Hp as <-.
  - by apply Permutation_singleton_l in Hp as <-.
Qed.

Lemma dictFind_lookup d k :
  dict_wf d → compare_hash → (length (matching k (dict_entries d)) ≤ 1)%nat →
  ∃ d', dictFind d k = Some (d', head (matching k (dict_entries d))) ∧
        dict_wf d' ∧ dict_entries d' ≡ₚ dict_entries d ∧
        iterators d' = iterators d.
Proof.
  intros Hwf Hcompat Hlen.
  destruct (dictFind_wf d k Hwf) as (d' & r & Hrun & Hwf' & Hp & Hit & _ & _ & Hsome & Hnone).
  exists d'. split; [|done]. rewrite Hrun. do 2 f_equal.
  rewrite <- (matching_head_perm k _ _ Hp) by by rewrite (Permutation_length (matching_perm k _ _ Hp)).
  destruct r as [e|].
  - destruct (Hsome e eq_refl) as [He Hc].
    assert (e ∈ matching k (dict_entries d')) as Hin by by apply list_elem_of_filter.
    rewrite <- (Permutation_length (matching_perm k _ _ Hp)) in Hlen.
    destruct (matching k (dict_entries d')) as [|a [|b l]]; simpl in Hlen; [| |lia].
    + by apply elem_of_nil in Hin.
    + by apply list_elem_of_singleton in Hin as ->.
  - by rewrite (Hnone Hcompat eq_refl).
Qed.

(** X2.  On a well-formed table whose type descriptor hashes alike the
    keys that compare equal, [dictFind] returns, leaves the entries of the
    table as they are, and its result is [NULL] exactly when no entry of the
    table has a key that compares equal; otherwise it is an entry of the
    table whose key compares equal. *)
Theorem dictFind_result d k :
  dict_wf d → compare_hash →
  ∃ d' r, dictFind d k = Some (d', r) ∧
    dict_wf d' ∧ dict_entries d' ≡ₚ dict_entries d ∧
    (r = None ↔ matching k (dict_entries d) = []) ∧
    (∀ e, r = Some e → e ∈ dict_entries d ∧ dictCompareKeys k (key e) = true).
Proof.
  intros Hwf Hcompat.
  destruct (dictFind_wf d k Hwf)
    as (d' & r & Hrun & Hwf' & Hp & _ & _ & _ & Hsome & Hnone).
  exists d', r. split; [done|]. split; [done|]. split; [done|]. split.
  - split.
    + intros ->. apply (matching_perm_nil k _ _ Hp). by apply Hnone.
    + intros Hnil. destruct r as [e|]; [|done].
      destruct (Hsome e eq_refl) as [He Hc]. rewrite Hp in He.
      assert (e ∈ matching k (dict_entries d)) as Hin by by apply list_elem_of_filter.
      rewrite Hnil in Hin. by apply elem_of_nil in Hin.
  - intros e ->. destruct (Hsome e eq_refl) as [He Hc]. by rewrite <- Hp.
Qed.

(** X3.  [dictAdd] never overwrites.  On a well-formed table without
    duplicate keys, an add of a key that an entry already holds returns
    [DICT_ERR], keeps the entries of the table and changes the result of no
    lookup: the entry of the key keeps its old value. *)
Theorem dictAdd_refused_unchanged gate d k v :
  dict_wf d → used (ht0 d) + used (ht1 d) < 2 ^ 29 →
  compare_hash → keys_unique d →
  matching k (dict_entries d) ≠ [] →
  ∃ d1, dictAdd gate d k v = Some (d1, DICT_ERR) ∧
        dict_entries d1 ≡ₚ dict_entries d ∧
        ∀ k', snd <$> dictFind d1 k' = snd <$> dictFind d k'.
Proof.
  intros Hwf Hroom Hcompat Hu Hpresent.
  destruct (dictAdd_wf gate d k v Hwf Hroom) as (d1 & res & Hrun & Hwf1 & _ & Hcases).
  destruct Hcases as [(-> & Hp & _)|(_ & _ & Habs)]; [|by destruct Hpresent; apply Habs].
  exists d1. split; [done|]. split; [done|]. intros k'.
  destruct (dictFind_lookup d k' Hwf Hcompat (Hu k')) as (d2 & -> & _).
  destruct (dictFind_lookup d1 k' Hwf1 Hcompat) as (d3 & -> & _).
  { rewrite (Permutation_length (matching_perm k' _ _ Hp)). apply Hu. }
  simpl. f_equal. apply matching_head_perm; [done|].
  rewrite (Permutation_length (matching_perm k' _ _ Hp)). apply Hu.
Qed.

(** X4.  A successful [dictAdd] stores one entry more and changes the
    result of no lookup of another key: on a well-formed table without
    duplicate keys, [dictFind] of a key that does not compare equal to the
    added one returns after the add what it returned before. *)
Theorem dictAdd_other_keys gate d k v d1 :
  dict_wf d → used (ht0 d) + used (ht1 d) < 2 ^ 29 →
  compare_hash → keys_unique d →
  dictAdd gate d k v = Some (d1, DICT_OK) →
  dict_entries d1 ≡ₚ mkEntry k (Some v) :: dict_entries d ∧
  used (ht0 d1) + used (ht1 d1) = used (ht0 d) + used (ht1 d) + 1 ∧
  ∀ k', dictCompareKeys k' k = false →
        snd <$> dictFind d1 k' = snd <$> dictFind d k'.
Proof.
  intros Hwf Hroom Hcompat Hu Hrun.
  destruct (dictAdd_wf gate d k v Hwf Hroom) as (d1' & res & Hrun' & Hwf1 & _ & Hcases).
  rewrite Hrun in Hrun'. injection Hrun' as <- <-.
  destruct Hcases as [(Hres & _)|(_ & Hp & _)]; [discriminate Hres|].
  split; [done|]. split.
  { rewrite !dict_wf_used by done. rewrite (Permutation_length Hp). simpl. lia. }
  intros k' Hne.
  assert (matching k' (dict_entries d1) ≡ₚ matching k' (dict_entries d)) as Hm.
  { rewrite (matching_perm k' _ _ Hp). unfold matching. rewrite filter_cons.
    simpl. rewrite Hne. by destruct (decide _). }
  destruct (dictFind_lookup d k' Hwf Hcompat (Hu k')) as (d2 & -> & _).
  destruct (dictFind_lookup d1 k' Hwf1 Hcompat) as (d3 & -> & _).
  { rewrite (Permutation_length Hm). apply Hu. }
  simpl. f_equal. pose proof (Hu k') as Hlen.
  destruct (matching k' (dict_entries d)) as [|a [|b l]]; simpl in Hlen; [| |lia].
  - by apply Permutation_nil_r in Hm as ->.
  - by apply Permutation_singleton_r in Hm as ->.
Qed.

(** X5.  A successful delete unlinks exactly one entry, whose key compares
    equal to the given one, and changes the result of no lookup of another
    key; a failed delete keeps every entry.  (Well-formed table without
    duplicate keys, comparison an equivalence that agrees with the hash.) *)
Theorem dictDelete_removes_one d k d1 r :
  dict_wf d → compare_hash → compare_sym → compare_trans → keys_unique d →
  dictDelete d k = Some (d1, r) →
  (r = DICT_ERR → dict_entries d1 ≡ₚ dict_entries d ∧
                  matching k (dict_entries d) = []) ∧
  (r = DICT_OK → ∃ e, dictCompareKeys k (key e) = true ∧
                      dict_entries d ≡ₚ e :: dict_entries d1 ∧
                      used (ht0 d1) + used (ht1 d1) =
                        used (ht0 d) + used (ht1 d) - 1) ∧
  ∀ k', dictCompareKeys k' k = false →
        snd <$> dictFind d1 k' = snd <$> dictFind d k'.
Proof.
  intros Hwf Hcompat Hsym Htrans Hu Hrun. unfold dictDelete in Hrun.
  destruct (dictGenericDelete_wf d k false Hwf)
    as (d1' & r' & Hrun' & Hwf1 & _ & Hzero & Hnz).
  rewrite Hrun in Hrun'. injection Hrun' as <- <-.
  assert ((r = DICT_ERR ∧ dict_entries d1 ≡ₚ dict_entries d ∧
           matching k (dict_entries d) = []) ∨
          (r = DICT_OK ∧ ∃ e, dictCompareKeys k (key e) = true ∧
             dict_entries d ≡ₚ e :: dict_entries d1)) as Hcases.
  { destruct (Z.eq_dec (size (ht0 d)) 0) as [Hz|Hne].
    { destruct (Hzero Hz) as [-> ->]. left. split; [done|]. split; [done|].
      destruct Hwf as (Hw0 & _ & _ & Hre).
      unfold dict_entries, ht_entries. unfold ht_wf in Hw0.
      destruct (table (ht0 d)) as [tbl|]; [lia|].
      destruct (dictIsRehashing d); [by destruct Hre as (_ & [? ?] & _)|].
      by rewrite Hre. }
    destruct (Hnz Hne) as (d2 & Hstep & Hc).
    destruct (amortized_step_wf d Hwf) as (d2' & Hstep' & _ & Hp2 & _).
    rewrite Hstep in Hstep'. injection Hstep' as <-.
    destruct Hc as [(-> & -> & Habs)|(-> & _ & e & Hc & Hgone)].
    - left. split; [done|]. split; [done|].
      apply (matching_perm_nil k _ _ Hp2). by apply Habs.
    - right. split; [done|]. exists e. split; [done|].
      rewrite <- Hp2. unfold dict_entries.
      destruct Hgone as [[Hp ->]|[Hp ->]]; rewrite Hp; [done|].
      by rewrite Permutation_middle. }
  split; [|split].
  - intros ->. destruct Hcases as [(_ & ? & ?)|(Hres & _)]; [done|discriminate Hres].
  - intros ->. destruct Hcases as [(Hres & _)|(_ & e & Hc & Hp)]; [discriminate Hres|].
    exists e. split; [done|]. split; [done|].
    rewrite !dict_wf_used by done. rewrite (Permutation_length Hp). simpl. lia.
  - intros k' Hne.
    assert (matching k' (dict_entries d1) = matching k' (dict_entries d)
            ∨ matching k' (dict_entries d1) ≡ₚ matching k' (dict_entries d)) as Hm.
    { right. destruct Hcases as [(_ & Hp & _)|(_ & e & Hc & Hp)].
      - by apply matching_perm.
      - rewrite (matching_perm k' _ _ Hp). unfold matching. rewrite filter_cons.
        destruct (decide _) as [Hke|]; [|done]. simpl in Hke.
        rewrite (Htrans k' (key e) k) in Hne; [done|done|by apply Hsym]. }
    assert (matching k' (dict_entries d1) ≡ₚ matching k' (dict_entries d)) as Hm'
      by (destruct Hm as [->|?]; done).
    destruct (dictFind_lookup d k' Hwf Hcompat (Hu k')) as (d2 & -> & _).
    destruct (dictFind_lookup d1 k' Hwf1 Hcompat) as (d3 & -> & _).
    { rewrite (Permutation_length Hm'). apply Hu. }
    simpl. f_equal. pose proof (Hu k') as Hlen.
    destruct (matching k' (dict_entries d)) as [|a [|b l]]; simpl in Hlen; [| |lia].
    + by apply Permutation_nil_r in Hm' as ->.
    + by apply Permutation_singleton_r in Hm' as ->.
Qed.

(** *** Replacement *)

Lemma chain_setval_None k v c : chain_setval k v c = None ↔ matching k c = [].
Proof.
  unfold matching. induction c as [|e c IH]; simpl; [done|].
  rewrite filter_cons. destruct (dictCompareKeys k (key e)) eqn:He.
  - by rewrite decide_True.
  - rewrite decide_False by congruence. rewrite <- IH.
    destruct (chain_setval k v c); simpl; done.
Qed.

Lemma chain_setval_Some k v c c' :
  chain_setval k v c = Some c' →
  ∃ l1 e l2, c = l1 ++ e :: l2 ∧ c' = l1 ++ dictSetVal e v :: l2 ∧
    dictCompareKeys k (key e) = true ∧ matching k l1 = [].
Proof.
  revert c'. induction c as [|x c IH]; intros c'; simpl; [done|].
  destruct (dictCompareKeys k (key x)) eqn:Hx.
  - intros [= <-]. by exists [], x, c.
  - destruct (chain_setval k v c) as [c0|]; simpl; [|done].
    intros [= <-]. destruct (IH c0 eq_refl) as (l1 & e & l2 & -> & -> & He & Hl1).
    exists (x :: l1), e, l2. repeat split; try done.
    unfold matching in *. rewrite filter_cons, decide_False by congruence. done.
Qed.

Lemma concat_insert_split (tbl : list (list (@dictEntry K V))) (i : nat) old c :
  tbl !! i = Some old →
  ∃ R, concat tbl ≡ₚ old ++ R ∧ concat (<[i := c]> tbl) ≡ₚ c ++ R.
Proof.
  intros Hi. exists (concat (<[i := []]> tbl)). split.
  - by rewrite (concat_insert_perm tbl i old [] Hi).
  - assert (<[i := c]> tbl !! i = Some c) as Hi'.
    { apply list_lookup_insert_eq. by eapply lookup_lt_Some. }
    rewrite <- (list_insert_insert_eq tbl i [] c).
    by rewrite (concat_insert_perm (<[i := c]> tbl) i c [] Hi').
Qed.

(** Setting the value of an entry of a slot keeps the array well formed and
    exchanges that one entry. *)
Lemma ht_setval_wf h tbl (i : nat) l1 e l2 v :
  ht_wf h → table h = Some tbl → tbl !! i = Some (l1 ++ e :: l2) →
  let h' := mkHt (Some (<[i := l1 ++ dictSetVal e v :: l2]> tbl))
                 (size h) (sizemask h) (used h) in
  ht_wf h' ∧
  ∃ rest, ht_entries h ≡ₚ e :: rest ∧ ht_entries h' ≡ₚ dictSetVal e v :: rest.
Proof.
  intros Hwf Ht Hi h'. split.
  - destruct (ht_wf_replace h tbl i (l1 ++ e :: l2) (l1 ++ dictSetVal e v :: l2))
      as [Hwf' _]; [done..| |].
    { destruct (ht_wf_alloc _ _ Hwf Ht) as (_ & _ & _ & _ & Hslots).
      specialize (Hslots _ _ Hi). rewrite Forall_app, Forall_cons in Hslots.
      rewrite Forall_app, Forall_cons. simpl. tauto. }
    replace (used h - Z.of_nat (length (l1 ++ e :: l2))
             + Z.of_nat (length (l1 ++ dictSetVal e v :: l2))) with (used h)
      in Hwf' by (rewrite !length_app; simpl; lia).
    done.
  - destruct (concat_insert_split tbl i _ (l1 ++ dictSetVal e v :: l2) Hi)
      as (R & Hp & Hp').
    exists (l1 ++ l2 ++ R). unfold ht_entries, h'. rewrite Ht. simpl.
    rewrite Hp, Hp'. rewrite <- !app_assoc. simpl.
    by rewrite <- !Permutation_middle.
Qed.

Lemma dictSetVal_found_wf d k v :
  dict_wf d → compare_hash → matching k (dict_entries d) ≠ [] →
  ∃ d' e rest, dictSetVal_found d k v = Some d' ∧ dict_wf d' ∧
    dictCompareKeys k (key e) = true ∧
    dict_entries d ≡ₚ e :: rest ∧ dict_entries d' ≡ₚ dictSetVal e v :: rest ∧
    rehashidx d' = rehashidx d ∧ iterators d' = iterators d.
Proof.
  intros Hwf Hcompat Hpresent. unfold dictSetVal_found.
  pose proof Hwf as (Hw0 & Hw1 & Hsum & Hre).
  assert (is_Some (table (ht0 d))) as [tbl0 Ht0].
  { destruct (table (ht0 d)) eqn:Ht0; [by eauto|]. exfalso. apply Hpresent.
    unfold dict_entries, ht_entries. rewrite Ht0. simpl.
    destruct (dictIsRehashing d); [by destruct Hre as (_ & [? ?] & _)|].
    by rewrite Hre. }
  destruct (slot_chain (ht0 d) tbl0 k Hw0 Ht0) as (c0 & Hg0 & Hg0' & Hm0).
  destruct (slot_of_range (ht0 d) tbl0 k Hw0 Ht0) as (Hr0 & _ & Hu0 & _).
  rewrite Hg0. simpl. fold (slot_of (ht0 d) k). rewrite Hu0.
  rewrite (table_get_lookup _ tbl0) in Hg0' by (done || lia).
  destruct (chain_setval k v c0) as [c0'|] eqn:Hset.
  { apply chain_setval_Some in Hset as (l1 & e & l2 & -> & -> & Hc & _).
    rewrite (table_set_is_Some _ tbl0) by (done || lia). simpl.
    destruct (ht_setval_wf (ht0 d) tbl0 _ l1 e l2 v Hw0 Ht0 Hg0')
      as (Hw0' & rest & Hp & Hp').
    eexists _, e, (rest ++ ht_entries (ht1 d)). split; [reflexivity|]. split.
    { unfold dict_wf. simpl. split; [done|]. split; [done|]. split; [done|].
      unfold dictIsRehashing in *. simpl.
      destruct (negb (rehashidx d =? -1)); [|done].
      destruct Hre as (? & ? & ? & Hcur). split; [done|]. split; [by eauto|].
      split; [done|]. intros i ci Hi. unfold table_get. simpl.
      case_bool_decide; [|done].
      destruct (decide (i = slot_of (ht0 d) k)) as [->|Hne].
      - assert (l1 ++ e :: l2 = []) as Hnil; [|by destruct l1].
        apply (Hcur (slot_of (ht0 d) k)); [done|].
        by rewrite (table_get_lookup _ tbl0) by (done || lia).
      - rewrite list_lookup_insert_ne by lia. intros Hl. apply (Hcur i); [done|].
        by rewrite (table_get_lookup _ tbl0). }
    split; [done|]. unfold dict_entries. simpl.
    split; [by rewrite Hp|]. split; [by rewrite Hp'|]. done. }
  apply chain_setval_None in Hset.
  assert (dictIsRehashing d = true) as Hre1.
  { destruct (dictIsRehashing d) eqn:Hre1; [done|]. exfalso. apply Hpresent.
    unfold dict_entries. rewrite matching_app, Hm0, Hset by done.
    by rewrite (dict_wf_stable_entries d). }
  rewrite Hre1 in Hre. destruct Hre as (Hidx & _ & [tbl1 Ht1] & Hcur).
  destruct (slot_chain (ht1 d) tbl1 k Hw1 Ht1) as (c1 & Hg1 & Hg1' & Hm1).
  destruct (slot_of_range (ht1 d) tbl1 k Hw1 Ht1) as (Hr1 & _ & Hu1 & _).
  rewrite Hg1. simpl. fold (slot_of (ht1 d) k). rewrite Hu1.
  rewrite (table_get_lookup _ tbl1) in Hg1' by (done || lia).
  destruct (chain_setval k v c1) as [c1'|] eqn:Hset1.
  2:{ exfalso. apply chain_setval_None in Hset1. apply Hpresent.
      unfold dict_entries. by rewrite matching_app, Hm0, Hm1, Hset, Hset1. }
  apply chain_setval_Some in Hset1 as (l1 & e & l2 & -> & -> & Hc & _). simpl.
  rewrite (table_set_is_Some _ tbl1) by (done || lia). simpl.
  destruct (ht_setval_wf (ht1 d) tbl1 _ l1 e l2 v Hw1 Ht1 Hg1')
    as (Hw1' & rest & Hp & Hp').
  eexists _, e, (ht_entries (ht0 d) ++ rest). split; [reflexivity|]. split.
  { unfold dict_wf. simpl. split; [done|]. split; [done|]. split; [done|].
    unfold dictIsRehashing in *. simpl. rewrite Hre1.
    split; [done|]. split; [by eauto|]. split; [by eauto|]. done. }
  split; [done|]. unfold dict_entries. simpl.
  split; [by rewrite Hp, Permutation_middle|].
  split; [by rewrite Hp', Permutation_middle|]. done.
Qed.

Lemma dictAddRaw_entries gate d k :
  dict_wf d → used (ht0 d) + used (ht1 d) < 2 ^ 29 →
  ∃ d' r, dictAddRaw gate d k = Some (d', r) ∧
    dict_wf d' ∧ iterators d' = iterators d ∧
    ((r = None ∧ dict_entries d' ≡ₚ dict_entries d ∧
      (compare_hash → matching k (dict_entries d) ≠ [])) ∨
     ((∃ p, r = Some p) ∧
      dict_entries d' ≡ₚ dictSetKey k :: dict_entries d ∧
      (compare_hash → matching k (dict_entries d) = []))).
Proof.
  intros Hwf Hroom.
  destruct (dictAddRaw_wf gate d k Hwf Hroom)
    as (d1 & d2 & c0 & tblT & cT & Hstep & Hexp & Hwf2 & Hperm & Hit & He0 & He1
        & Hrest).
  cbv zeta in Hrest.
  destruct Hrest as (Hg0 & HtT & Hidx & HcT & Hstable & Hmatch & Hcases).
  pose proof (matching_perm_nil k _ _ Hperm) as Hnil.
  destruct Hcases as [[-> Hsome]|(Hn0 & HnT & -> & Hwn & Hwf3)].
  { exists d2, None. split; [done|]. split; [done|]. split; [done|].
    left. split; [done|]. split; [done|]. intros Hcompat Habs.
    apply Hnil in Habs. rewrite (Hmatch Hcompat) in Habs.
    apply app_eq_nil in Habs as [Hn0 HnT].
    destruct Hsome as [?|[Hr ?]]; [done|]. by rewrite Hr in HnT. }
  set (t := if dictIsRehashing d2 then 1 else 0) in *.
  set (idx := slot_of (ht d2 t) k) in *.
  set (hnew := mkHt (Some (<[Z.to_nat idx := dictSetKey k :: cT]> tblT))
                 (size (ht d2 t)) (sizemask (ht d2 t)) (used (ht d2 t) + 1)) in *.
  assert (t = 0 ∨ t = 1) as Ht by (subst t; destruct (dictIsRehashing d2); auto).
  eexists _, _. split; [reflexivity|]. split; [done|]. split.
  { destruct Ht as [-> | ->]; simpl; congruence. }
  right. split; [by eauto|]. split.
  - rewrite <- Hperm.
    pose proof (ht_entries_replace (ht d2 t) tblT (Z.to_nat idx) cT
                  (dictSetKey k :: cT) (size (ht d2 t))
                  (sizemask (ht d2 t)) (used (ht d2 t) + 1) HtT HcT) as Hp.
    fold hnew in Hp.
    assert (ht_entries hnew ≡ₚ dictSetKey k :: ht_entries (ht d2 t)) as Hpe.
    { apply (Permutation_app_inv_l cT). rewrite Hp. simpl.
      by rewrite Permutation_middle. }
    unfold dict_entries.
    destruct Ht as [Ht|Ht]; rewrite Ht in *; simpl in *.
    + by rewrite Hpe.
    + rewrite Hpe. by rewrite Permutation_middle.
  - intros Hcompat. apply Hnil. rewrite (Hmatch Hcompat), Hn0.
    destruct (dictIsRehashing d2); [by rewrite HnT|done].
Qed.

(** X6.  [dictReplace] adds or overwrites.  On a well-formed table
    without duplicate keys it returns 1 after adding an entry for a key that
    no entry held, and 0 after setting the value of the entry that held the
    key, whose key object it keeps; no other entry changes; and in both
    cases [dictFind] of the key then returns an entry with the new value,
    which is what [dictFetchValue] returns. *)
Theorem dictReplace_spec gate d k v :
  dict_wf d → used (ht0 d) + used (ht1 d) < 2 ^ 29 →
  compare_refl → compare_hash → keys_unique d →
  ∃ d1 r, dictReplace gate d k v = Some (d1, r) ∧ dict_wf d1 ∧
    ((r = 1 ∧ matching k (dict_entries d) = [] ∧
      dict_entries d1 ≡ₚ mkEntry k (Some v) :: dict_entries d) ∨
     (r = 0 ∧ ∃ e rest, dictCompareKeys k (key e) = true ∧
        dict_entries d ≡ₚ e :: rest ∧
        dict_entries d1 ≡ₚ mkEntry (key e) (Some v) :: rest)) ∧
    ∃ d2 e, dictFind d1 k = Some (d2, Some e) ∧ dictGetVal e = Some v ∧
            dictFetchValue d1 k = Some (d2, Some v).
Proof.
  intros Hwf Hroom Hrefl Hcompat Hu. unfold dictReplace.
  assert (∀ d1 e rest, dict_wf d1 → dictCompareKeys k (key e) = true →
            dict_entries d1 ≡ₚ mkEntry (key e) (Some v) :: rest →
            matching k rest = [] →
            ∃ d2 e', dictFind d1 k = Some (d2, Some e') ∧ dictGetVal e' = Some v ∧
                     dictFetchValue d1 k = Some (d2, Some v))
    as Hfound.
  { intros d1 e rest Hwf1 Hc Hp Hrest. unfold dictFetchValue.
    destruct (dictFind_wf d1 k Hwf1)
      as (d2 & r & -> & _ & Hp2 & _ & _ & _ & Hsome & Hnone).
    exists d2. destruct r as [e'|].
    - exists e'. split; [done|]. destruct (Hsome e' eq_refl) as [He' Hc'].
      rewrite Hp2, Hp in He'. apply elem_of_cons in He' as [->|He']; [done|].
      assert (e' ∈ matching k rest) as Hin by by apply list_elem_of_filter.
      rewrite Hrest in Hin. by apply elem_of_nil in Hin.
    - exfalso. specialize (Hnone Hcompat eq_refl).
      apply (matching_perm_nil k _ _ Hp2) in Hnone.
      apply (matching_perm_nil k _ _ Hp) in Hnone.
      unfold matching in Hnone. rewrite filter_cons in Hnone. simpl in Hnone.
      by rewrite decide_True in Hnone. }
  destruct (dictAdd_wf gate d k v Hwf Hroom) as (d1 & res & -> & Hwf1 & _ & Hcases).
  simpl. destruct Hcases as [(-> & Hp & Hpresent)|(-> & Hp & Habs)]; simpl.
  - specialize (Hpresent Hcompat).
    destruct (dictFind_wf d1 k Hwf1)
      as (d2 & r & -> & Hwf2 & Hp2 & _ & _ & _ & _ & Hnone).
    simpl. destruct r as [e0|].
    2:{ exfalso. apply Hpresent. apply (matching_perm_nil k _ _ Hp).
        apply (matching_perm_nil k _ _ Hp2). by apply Hnone. }
    destruct (dictSetVal_found_wf d2 k v Hwf2 Hcompat)
      as (d3 & e & rest & -> & Hwf3 & Hc & Hpe & Hpe' & _).
    { intros Hnil. apply Hpresent. apply (matching_perm_nil k _ _ Hp).
      by apply (matching_perm_nil k _ _ Hp2). }
    simpl. exists d3, 0. split; [done|]. split; [done|].
    assert (dict_entries d ≡ₚ e :: rest) as Hd by by rewrite <- Hp, <- Hp2.
    split.
    + right. split; [done|]. by exists e, rest.
    + apply (Hfound d3 e rest); [done..|].
      pose proof (Hu k) as Hlen.
      rewrite (Permutation_length (matching_perm k _ _ Hd)) in Hlen.
      unfold matching in *. rewrite filter_cons, decide_True in Hlen by done.
      simpl in Hlen. destruct (filter _ rest); [done|simpl in Hlen; lia].
  - specialize (Habs Hcompat). exists d1, 1. split; [done|]. split; [done|]. split.
    + left. done.
    + apply (Hfound d1 (mkEntry k (Some v)) (dict_entries d)); [done| |done..].
      apply Hrefl.
Qed.

(** X7.  [dictReplaceRaw] never returns [NULL]: on a well-formed table
    with room for one more entry it returns either an entry of the table
    whose key compares equal, leaving the entries as they are, or, when no
    entry holds the key, the entry it has just added for it. *)
Theorem dictReplaceRaw_never_null gate d k :
  dict_wf d → used (ht0 d) + used (ht1 d) < 2 ^ 29 → compare_hash →
  ∃ d1 e, dictReplaceRaw gate d k = Some (d1, Some e) ∧ dict_wf d1 ∧
    ((e ∈ dict_entries d ∧ dictCompareKeys k (key e) = true ∧
      dict_entries d1 ≡ₚ dict_entries d) ∨
     (matching k (dict_entries d) = [] ∧ e = dictSetKey k ∧
      dict_entries d1 ≡ₚ e :: dict_entries d)).
Proof.
  intros Hwf Hroom Hcompat. unfold dictReplaceRaw.
  destruct (dictFind_wf d k Hwf)
    as (d1 & r & -> & Hwf1 & Hp1 & _ & _ & _ & Hsome & Hnone).
  simpl. destruct r as [e|].
  { exists d1, e. split; [done|]. split; [done|]. left.
    destruct (Hsome e eq_refl) as [He Hc]. rewrite Hp1 in He. done. }
  specialize (Hnone Hcompat eq_refl).
  destruct (dictAddRaw_entries gate d1 k Hwf1)
    as (d2 & r & -> & Hwf2 & _ & Hcases).
  { rewrite dict_wf_used in Hroom |- * by done.
    by rewrite (Permutation_length Hp1). }
  simpl. destruct Hcases as [(_ & _ & Hpresent)|([p ->] & Hp2 & _)].
  { by destruct (Hpresent Hcompat). }
  exists d2, (dictSetKey k). split; [done|]. split; [done|]. right.
  split; [by apply (matching_perm_nil k _ _ Hp1)|]. split; [done|].
  by rewrite Hp2, Hp1.
Qed.

(** *** Clearing *)

Lemma _dictClear_loop_total (rest : list (list (@dictEntry K V))) : ∀ i sz u,
  0 ≤ i → sz ≤ 2 ^ 30 → Z.of_nat (length rest) = sz - i →
  is_Some (_dictClear_loop rest i sz u).
Proof.
  induction rest as [|he rest IH]; intros i sz u Hi Hsz Hlen; simpl in *.
  - assert ((i <? sz) = false) as -> by (apply Z.ltb_ge; lia). by eauto.
  - destruct ((i <? sz) && (u >? 0)); [|by eauto].
    rewrite to_ulong_small by lia. apply IH; lia.
Qed.

Lemma _dictClear_wf h : ht_wf h → _dictClear h = Some _dictReset.
Proof.
  intros Hwf. unfold _dictClear.
  destruct (_dictClear_loop_total (default [] (table h)) 0 (size h) (used h))
    as [u ->]; [done| | |done].
  - unfold ht_wf in Hwf. destruct (table h); lia.
  - unfold ht_wf in Hwf. destruct (table h); simpl; lia.
Qed.

(** X8.  [dictEmpty] of a well-formed table, whatever its state (rehashing
    or not, iterators live or not), leaves the table as [dictCreate] makes
    it: both arrays unallocated, no entry, the cursor at -1 and the iterator
    count at 0; the clearing loops stay inside the arrays.  [dictRelease]
    runs the same loops. *)
Theorem dictEmpty_resets d :
  dict_wf d →
  dictEmpty d = Some dictCreate ∧ dictRelease d = Some () ∧
  ∀ k, dictFind (@dictCreate K V) k = Some (dictCreate, None).
Proof.
  intros (Hw0 & Hw1 & _). unfold dictEmpty, dictRelease.
  rewrite !_dictClear_wf by done. done.
Qed.

(** *** Rehashing by more than one step *)

Lemma dictRehash_loop_wf n : ∀ d,
  dict_wf d → dictIsRehashing d = true →
  ∃ d' r, dictRehash_loop n d = Some (d', r) ∧
    dict_wf d' ∧ dict_entries d' ≡ₚ dict_entries d ∧
    iterators d' = iterators d ∧
    ((r = 0 ∧ dictIsRehashing d' = false) ∨
     (r = 1 ∧ dictIsRehashing d' = true ∧
      used (ht0 d') + Z.of_nat n ≤ used (ht0 d))).
Proof.
  induction n as [|n IH]; intros d Hwf Hre.
  - exists d, 1. simpl. split; [done|]. split; [done|]. split; [done|].
    split; [done|]. right. split; [done|]. split; [done|]. lia.
  - cbn [dictRehash_loop].
    destruct (Z.eq_dec (used (ht0 d)) 0) as [Hu|Hu].
    + rewrite dictRehash_body_done by done. simpl.
      destruct (promoted_wf d Hwf Hu) as [Hwf' Hent].
      exists (promoted d), 0. split; [done|]. split; [done|].
      split; [by rewrite Hent|]. split; [done|]. by left.
    + destruct (dictRehash_body_step d Hwf Hre Hu)
        as (j & de & d1 & -> & Hj & _ & _ & Hne & Hidx & Hit & _ & _ & Hu0 & _ & _
            & _ & _ & _ & _ & Hwf1 & Hp1).
      simpl.
      assert (dictIsRehashing d1 = true) as Hre1.
      { apply dictIsRehashing_true.
        destruct (dict_wf_rehashing d Hwf Hre) as (_ & _ & _ & _ & _ & _ & _ & ? & _).
        lia. }
      destruct (IH d1 Hwf1 Hre1) as (d' & r & -> & Hwf' & Hp' & Hit' & Hcases).
      exists d', r. split; [done|]. split; [done|]. split; [by rewrite Hp'|].
      split; [congruence|].
      destruct Hcases as [?|(-> & ? & Hle)]; [by left|right].
      split; [done|]. split; [done|].
      assert (0 < Z.of_nat (length de)) by (destruct de; [done|simpl; lia]).
      lia.
Qed.

(** X9.  [dictRehash] by [n >= 0] steps on a well-formed rehashing table
    returns, keeps the table well formed and keeps its entries.  It returns
    0 exactly when it leaves the table stable; when it returns 1 the table
    is still rehashing and each of the [n] steps has taken at least one
    entry out of the primary array, so more steps than the primary array has
    entries always complete the rehash. *)
Theorem dictRehash_steps d n :
  dict_wf d → dictIsRehashing d = true → 0 ≤ n →
  ∃ d' r, dictRehash d n = Some (d', r) ∧
    dict_wf d' ∧ dict_entries d' ≡ₚ dict_entries d ∧
    iterators d' = iterators d ∧
    ((r = 0 ∧ dictIsRehashing d' = false) ∨
     (r = 1 ∧ dictIsRehashing d' = true ∧ used (ht0 d') + n ≤ used (ht0 d))) ∧
    (used (ht0 d) < n → r = 0 ∧ dictIsRehashing d' = false).
Proof.
  intros Hwf Hre Hn. unfold dictRehash. rewrite Hre. simpl.
  assert ((0 <=? n) = true) as -> by by apply Z.leb_le.
  destruct (dictRehash_loop_wf (Z.to_nat n) d Hwf Hre)
    as (d' & r & Hrun & Hwf' & Hp & Hit & Hcases).
  exists d', r. rewrite Z2Nat.id in Hcases by done.
  split; [done|]. split; [done|]. split; [done|]. split; [done|].
  split; [done|]. intros Hlt.
  destruct Hcases as [?|(_ & _ & Hle)]; [done|].
  pose proof Hwf' as (Hw0 & _). apply ht_wf_used_nonneg in Hw0. lia.
Qed.

(** X10.  Rehashing is invisible to lookups.  On a well-formed table
    without duplicate keys, whose type descriptor hashes alike the keys that
    compare equal, [dictFind] of any key returns after [dictRehash] by any
    number of steps what it returned before. *)
Theorem dictRehash_keeps_lookups d n d' r :
  dict_wf d → compare_hash → keys_unique d →
  dictRehash d n = Some (d', r) →
  ∀ k, snd <$> dictFind d' k = snd <$> dictFind d k.
Proof.
  intros Hwf Hcompat Hu Hrun k.
  assert (dict_wf d' ∧ dict_entries d' ≡ₚ dict_entries d) as [Hwf' Hp].
  { destruct (dictIsRehashing d) eqn:Hre.
    - destruct (dictRehash_loop_of d n d' r Hre Hrun) as [m Hloop].
      destruct (dictRehash_loop_wf m d Hwf Hre) as (d1 & r1 & Hrun1 & ? & ? & _).
      rewrite Hloop in Hrun1. by injection Hrun1 as <- <-.
    - unfold dictRehash in Hrun. rewrite Hre in Hrun. simpl in Hrun.
      by injection Hrun as <- <-. }
  destruct (dictFind_lookup d k Hwf Hcompat (Hu k)) as (d2 & -> & _).
  destruct (dictFind_lookup d' k Hwf' Hcompat) as (d3 & -> & _).
  { rewrite (Permutation_length (matching_perm k _ _ Hp)). apply Hu. }
  simpl. f_equal. apply matching_head_perm; [done|].
  rewrite (Permutation_length (matching_perm k _ _ Hp)). apply Hu.
Qed.

Lemma dictRehash_wf d n :
  dict_wf d → 0 ≤ n →
  ∃ d' r, dictRehash d n = Some (d', r) ∧
    dict_wf d' ∧ dict_entries d' ≡ₚ dict_entries d ∧
    iterators d' = iterators d ∧
    ((r = 0 ∧ dictIsRehashing d' = false) ∨
     (r = 1 ∧ dictIsRehashing d' = true ∧ used (ht0 d') + n ≤ used (ht0 d))).
Proof.
  intros Hwf Hn. unfold dictRehash.
  destruct (dictIsRehashing d) eqn:Hre; simpl.
  - assert ((0 <=? n) = true) as -> by by apply Z.leb_le.
    destruct (dictRehash_loop_wf (Z.to_nat n) d Hwf Hre)
      as (d' & r & Hrun & Hwf' & Hp & Hit & Hcases).
    exists d', r. by rewrite Z2Nat.id in Hcases.
  - exists d, 0. split; [done|]. split; [done|]. split; [done|].
    split; [done|]. by left.
Qed.

Lemma dictRehashMilliseconds_loop_wf clock : ∀ d start ms rehashes,
  dict_wf d → 0 ≤ rehashes → rehashes + used (ht0 d) ≤ 2 ^ 30 →
  used (ht0 d) ≤ 100 * Z.of_nat (length clock) →
  ∃ d' read rest,
    dictRehashMilliseconds_loop clock d start ms rehashes =
      Some (d', rehashes + 100 * Z.of_nat (length read), rest) ∧
    clock = read ++ rest ∧
    dict_wf d' ∧ dict_entries d' ≡ₚ dict_entries d ∧
    iterators d' = iterators d ∧
    100 * Z.of_nat (length read) ≤ used (ht0 d) ∧
    ((dictIsRehashing d' = false ∧ Forall (λ t, t - start ≤ ms) read) ∨
     (dictIsRehashing d' = true ∧
      ∃ before t, read = before ++ [t] ∧
        Forall (λ t, t - start ≤ ms) before ∧ ms < t - start)).
Proof.
  assert (∀ d, dict_wf d → 0 ≤ used (ht0 d)) as Hnonneg.
  { intros d (Hw0 & _). by apply ht_wf_used_nonneg. }
  induction clock as [|t clock IH]; intros d start ms rehashes Hwf Hr Hroom Hlen;
    cbn [dictRehashMilliseconds_loop];
    destruct (dictRehash_wf d 100 Hwf) as (d1 & r & -> & Hwf1 & Hp1 & Hit1 & Hcases);
    try lia;
    pose proof (Hnonneg d1 Hwf1); pose proof (Hnonneg d Hwf);
    (destruct Hcases as [(-> & Hst)|(-> & Hre1 & Hle)]; simpl;
     [exists d1, []; eexists; simpl; rewrite Z.add_0_r;
      split; [done|]; split; [done|]; split; [done|]; split; [done|];
      split; [done|]; split; [lia|by left]|]).
  - simpl in Hlen. lia.
  - unfold int_add. rewrite bool_decide_true by (unfold INT_MIN, INT_MAX; lia).
    simpl. destruct (Z.gtb_spec (t - start) ms) as [Hlate|Hearly].
    { exists d1, [t], clock. simpl.
      split; [done|]. split; [done|]. split; [done|]. split; [done|].
      split; [done|]. split; [lia|]. right. split; [done|].
      exists [], t. done. }
    destruct (IH d1 start ms (rehashes + 100) Hwf1) as
      (d' & read & rest & -> & -> & Hwf' & Hp' & Hit' & Hcount & Hend);
      [lia|lia|simpl in Hlen; lia|].
    exists d', (t :: read), rest. simpl length.
    split; [do 3 f_equal; lia|]. split; [done|]. split; [done|].
    split; [by rewrite Hp'|]. split; [congruence|]. split; [lia|].
    destruct Hend as [[Hst Hall]|(Hre' & before & t' & -> & Hall & Hlate)].
    + left. split; [done|]. by constructor.
    + right. split; [done|]. exists (t :: before), t'. split; [done|].
      split; [by constructor|done].
Qed.

(** X11.  [dictRehashMilliseconds] on a well-formed table, given clock
    readings enough for its loop, returns 100 times the number of readings
    it has taken after the first, never more than the primary array had
    entries; it keeps the table well formed and keeps its entries; and it
    stops either with the table stable, no reading
    having exceeded the budget, or on the first reading that lies more than
    [ms] after the start, with the table still rehashing. *)
Theorem dictRehashMilliseconds_spec d ms start clock :
  dict_wf d → used (ht0 d) ≤ 100 * Z.of_nat (length clock) →
  ∃ d' read rest,
    dictRehashMilliseconds d ms (start :: clock) =
      Some (d', 100 * Z.of_nat (length read), rest) ∧
    clock = read ++ rest ∧
    dict_wf d' ∧ dict_entries d' ≡ₚ dict_entries d ∧
    100 * Z.of_nat (length read) ≤ used (ht0 d) ∧
    ((dictIsRehashing d' = false ∧ Forall (λ t, t - start ≤ ms) read) ∨
     (dictIsRehashing d' = true ∧
      ∃ before t, read = before ++ [t] ∧
        Forall (λ t, t - start ≤ ms) before ∧ ms < t - start)).
Proof.
  intros Hwf Hlen. unfold dictRehashMilliseconds.
  destruct (dictRehashMilliseconds_loop_wf clock d start ms 0 Hwf)
    as (d' & read & rest & Hrun & Hsplit & Hwf' & Hp & _ & Hcount & Hend);
    [done| |done|].
  { destruct Hwf as (Hw0 & Hw1 & Hsum & _).
    apply ht_wf_used_nonneg in Hw1. lia. }
  exists d', read, rest. rewrite Hrun. simpl. done.
Qed.

(** *** Sizes *)

(** X12.  [_dictNextPower] returns for every request: its doubling loop
    neither wraps around nor runs forever.  Below [LONG_MAX] the result is
    the smallest power of two that is at least 4 and at least the request (a
    power of two is returned as it is); from [LONG_MAX] on the result is
    [LONG_MAX], which is not a power of two and, past [LONG_MAX], smaller
    than the request. *)
Theorem _dictNextPower_total sz :
  ∃ r, _dictNextPower sz = Some r ∧ 4 ≤ r ≤ 2 ^ 63 ∧
    (sz < LONG_MAX → next_power_of sz r) ∧
    (LONG_MAX ≤ sz → r = LONG_MAX) ∧
    (∀ j, 2 ≤ j ≤ 62 → sz = 2 ^ j → r = sz).
Proof.
  destruct (Z_lt_le_dec sz LONG_MAX) as [Hlt|Hge].
  - destruct (_dictNextPower_spec sz Hlt) as (r & Hrun & Hr & Hb).
    exists r. split; [done|]. split; [done|]. split; [done|].
    split; [lia|]. intros j Hj ->. by apply (next_power_of_pow2 j); [lia|].
  - exists LONG_MAX. unfold _dictNextPower.
    assert ((sz >=? LONG_MAX) = true) as ->.
    { rewrite Z.geb_leb. by apply Z.leb_le. }
    split; [done|]. split; [unfold LONG_MAX; lia|]. split; [lia|].
    split; [done|]. intros j Hj ->.
    assert (2 ^ j ≤ 2 ^ 62) by (apply Z.pow_le_mono_r; lia).
    unfold LONG_MAX in Hge. lia.
Qed.

(** X13.  [dictExpand] of a well-formed table to at most 2^30 slots never
    loses an entry and keeps the table well formed.  It refuses, leaving the
    table as it is, when the table is rehashing or holds more entries than
    the requested size; otherwise the new array has the smallest power of
    two at least 4 and at least the request as its size, and starts
    empty. *)
Theorem dictExpand_contract d sz :
  dict_wf d → 0 ≤ sz ≤ 2 ^ 30 →
  (dictIsRehashing d = true ∨ sz < used (ht0 d) →
     dictExpand d sz = Some (d, DICT_ERR)) ∧
  (dictIsRehashing d = false → used (ht0 d) ≤ sz →
     ∃ r d', next_power_of sz r ∧ dictExpand d sz = Some (d', DICT_OK) ∧
       dict_wf d' ∧ dict_entries d' = dict_entries d ∧
       iterators d' = iterators d ∧
       (table (ht0 d) = None →
          dictIsRehashing d' = false ∧ ht0 d' = fresh_ht r) ∧
       (is_Some (table (ht0 d)) →
          rehashidx d' = 0 ∧ ht0 d' = ht0 d ∧ ht1 d' = fresh_ht r)).
Proof.
  intros Hwf Hsz. split; [apply dictExpand_refused|].
  intros Hre Hused.
  destruct (dictExpand_spec d sz Hre Hused) as (r & Hr & _ & Hrun);
    [unfold LONG_MAX; lia|].
  exists r, (expanded d r). split; [done|]. split; [done|].
  destruct (fresh_ht_wf r) as [Hwf' He'].
  { apply (next_power_of_le sz r 30); [done|lia|lia]. }
  pose proof Hwf as (Hw0 & Hw1 & Hsum & Hst). rewrite Hre in Hst.
  assert (ht1 d = _dictReset) as Hreset.
  { unfold ht_wf in Hw1. rewrite Hst in Hw1. destruct (ht1 d); simpl in *.
    destruct Hw1 as (-> & -> & ->). by rewrite Hst. }
  pose proof (ht_wf_used_nonneg _ Hw0).
  assert (used (ht1 d) = 0) as Hu1 by by rewrite Hreset.
  unfold expanded. destruct (table (ht0 d)) as [tbl0|] eqn:Ht0.
  - split.
    { unfold dict_wf. simpl. split; [done|]. split; [done|]. split; [lia|].
      destruct (ht_wf_alloc _ _ Hw0 Ht0) as (_ & ? & _).
      split; [lia|]. split; [by eauto|]. split; [by eauto|].
      intros i c Hi. simpl in Hi. lia. }
    split. { unfold dict_entries. simpl. by rewrite He', Hreset. }
    split; [done|]. split; [done|]. done.
  - split.
    { unfold dict_wf. simpl. split; [done|]. split; [done|].
      rewrite Hreset. simpl. split; [lia|].
      unfold dictIsRehashing in *. simpl. by rewrite Hre. }
    split.
    { unfold dict_entries. simpl. rewrite He'. unfold ht_entries.
      by rewrite Ht0. }
    split; [done|]. split; [|by intros [? ?]].
    intros _. split; [|done]. unfold dictIsRehashing in *. simpl. done.
Qed.

Lemma dictAdd_counts gate d k v d' r :
  dictAdd gate d k v = Some (d', r) →
  ∃ d1 p, dictAddRaw gate d k = Some (d1, p) ∧
    (p = None → r = DICT_ERR) ∧
    rehashidx d' = rehashidx d1 ∧ iterators d' = iterators d1 ∧
    size (ht0 d') = size (ht0 d1) ∧ used (ht0 d') = used (ht0 d1) ∧
    size (ht1 d') = size (ht1 d1) ∧ used (ht1 d') = used (ht1 d1).
Proof.
  unfold dictAdd.
  destruct (dictAddRaw gate d k) as [[d1 entry]|] eqn:Hraw; simpl; [|done].
  intros Hrun. exists d1, entry. split; [done|]. revert Hrun.
  destruct entry as [[t index]|]; [|by intros [= <- <-]].
  destruct (table_get _ _) as [[|e next]|]; simpl; [done| |done].
  destruct (table_set _ _ _) as [h|] eqn:Hset; simpl; [|done].
  apply table_set_Some in Hset as (tbl & _ & _ & ->).
  intros [= <- <-]. split; [done|].
  unfold set_ht, ht. destruct (t =? 0); simpl; done.
Qed.

(** X14.  The load factor after an insertion.  When a successful
    [dictAdd] on a well-formed table leaves the table stable, the primary
    array holds at most as many entries as it has slots if the resize gate
    is enabled, and at most six times as many in any case: beyond that the
    grow trigger has begun a rehash. *)
Theorem dictAdd_load_factor gate d k v d' :
  dict_wf d → used (ht0 d) + used (ht1 d) < 2 ^ 29 →
  dictAdd gate d k v = Some (d', DICT_OK) → dictIsRehashing d' = false →
  (gate = true → used (ht0 d') ≤ size (ht0 d')) ∧
  used (ht0 d') ≤ 6 * size (ht0 d').
Proof.
  intros Hwf Hroom Hrun Hst.
  destruct (dictAdd_counts _ _ _ _ _ _ Hrun)
    as (d3 & p & Hraw & Hp & Hidx & _ & Hs0 & Hu0 & _).
  rewrite Hs0, Hu0. clear Hs0 Hu0.
  destruct (dictAddRaw_wf gate d k Hwf Hroom)
    as (d1 & d2 & c0 & tblT & cT & Hstep & Hexp & Hwf2 & Hperm & Hit & He0 & He1
        & Hrest).
  cbv zeta in Hrest.
  destruct Hrest as (Hg0 & HtT & _ & _ & _ & _ & Hcases).
  destruct Hcases as [[Hraw' _]|(_ & _ & Hraw' & _)]; rewrite Hraw in Hraw'.
  { injection Hraw' as -> ->. by specialize (Hp eq_refl). }
  injection Hraw' as -> _.
  assert (dictIsRehashing d2 = false) as Hst2.
  { apply dictIsRehashing_false in Hst. apply dictIsRehashing_false.
    rewrite <- Hst, Hidx. unfold set_ht. by destruct (_ =? 0). }
  clear Hidx Hraw. rewrite Hst2 in *. simpl. unfold ht. simpl.
  destruct (amortized_step_wf d Hwf) as (d1' & Hstep' & Hwf1 & _).
  rewrite Hstep in Hstep'. injection Hstep' as <-.
  pose proof Hwf1 as (Hw0 & _).
  pose proof (ht_wf_used_nonneg _ Hw0) as Hnn.
  revert Hexp. unfold _dictExpandIfNeeded.
  destruct (dictIsRehashing d1) eqn:Hre1; [intros [= <-]; congruence|].
  destruct (Z.eq_dec (size (ht0 d1)) 0) as [Hz|Hnz].
  - rewrite Hz. simpl.
    destruct (ht_wf_unallocated _ Hw0 Hz) as [Ht0 He0'].
    pose proof (ht_wf_used _ Hw0) as Hused0. rewrite He0' in Hused0.
    destruct (dictExpand_spec d1 DICT_HT_INITIAL_SIZE) as (r & Hr' & _ & ->);
      [done|unfold DICT_HT_INITIAL_SIZE; simpl in Hused0; lia
      |unfold DICT_HT_INITIAL_SIZE, LONG_MAX; lia|].
    assert (r = 2 ^ 2) as -> by (apply (next_power_of_pow2 2); [lia|exact Hr']).
    unfold expanded. rewrite Ht0. intros [= <-]. simpl. lia.
  - assert ((size (ht0 d1) =? 0) = false) as -> by by apply Z.eqb_neq.
    destruct (ht_wf_allocated _ Hw0 Hnz) as [tbl0 Ht0].
    destruct (ht_wf_alloc _ _ Hw0 Ht0) as (_ & Hsz0 & _).
    destruct ((used (ht0 d1) >=? size (ht0 d1)) && _) eqn:Htrig.
    + apply andb_true_iff in Htrig as [Hge _].
      rewrite Z.geb_leb in Hge. apply Z.leb_le in Hge.
      assert ((size (ht0 d1) >? used (ht0 d1)) = false) as ->.
      { rewrite Z.gtb_ltb. apply Z.ltb_ge. lia. }
      pose proof Hwf1 as (_ & Hw1 & Hsum1 & _).
      pose proof (ht_wf_used_nonneg _ Hw1).
      rewrite to_ulong_small by lia.
      destruct (dictExpand_spec d1 (used (ht0 d1) * 2)) as (r & _ & _ & ->);
        [done|lia|unfold LONG_MAX; lia|].
      unfold expanded. rewrite Ht0. intros [= <-].
      unfold dictIsRehashing in Hst2. simpl in Hst2. done.
    + intros [= <-]. apply andb_false_iff in Htrig.
      destruct Htrig as [Hlt|Hgate].
      * rewrite Z.geb_leb in Hlt. apply Z.leb_gt in Hlt. lia.
      * apply orb_false_iff in Hgate as [-> Hratio]. split; [done|].
        rewrite Z.gtb_ltb in Hratio. apply Z.ltb_ge in Hratio.
        unfold dict_force_resize_ratio in Hratio.
        pose proof (Z.div_mod (used (ht0 d1)) (size (ht0 d1)) Hnz).
        pose proof (Z.mod_pos_bound (used (ht0 d1)) (size (ht0 d1))). nia.
Qed.

(** *** Random sampling *)

Lemma random_slot_member d rs he rs' :
  random_slot d rs = Some (he, rs') →
  he ≠ [] ∧ ∀ e, e ∈ he → e ∈ dict_entries d.
Proof.
  revert he rs'. induction rs as [|r rs IH]; intros he rs'; simpl; [done|].
  set (pick := if dictIsRehashing d then _ else _).
  destruct pick as [c|] eqn:Hpick; simpl; [|done].
  destruct c as [|e0 c]; [by apply IH|].
  intros [= <- <-]. split; [done|]. intros e He.
  assert (∃ h i, (h = ht0 d ∨ h = ht1 d) ∧ table_get h i = Some (e0 :: c))
    as (h & i & Hh & Hget).
  { subst pick. destruct (dictIsRehashing d).
    - destruct (_ =? 0); [done|].
      destruct (_ >=? _); eexists _, _; (split; [|exact Hpick]); auto.
    - eexists _, _. split; [|exact Hpick]. auto. }
  unfold dict_entries. apply elem_of_app.
  destruct Hh as [-> | ->]; [left|right]; apply elem_of_ht_entries; eauto.
Qed.

(** X20.  [dictGetRandomKey] only hands out entries of the table.  When
    it returns on a well-formed table, its result is [NULL] exactly when the
    table holds no entry, and otherwise an entry of the table; the entries
    of the table are as before. *)
Theorem dictGetRandomKey_member d rs d' r rs' :
  dict_wf d → dictGetRandomKey d rs = Some (d', r, rs') →
  dict_wf d' ∧ dict_entries d' ≡ₚ dict_entries d ∧
  (r = None ↔ dict_entries d = []) ∧
  (∀ e, r = Some e → e ∈ dict_entries d).
Proof.
  intros Hwf. unfold dictGetRandomKey, dictSize.
  pose proof (dict_wf_used d Hwf) as Hused.
  pose proof Hwf as (_ & _ & Hsum & _).
  rewrite to_ulong_small by lia.
  destruct (Z.eqb_spec (used (ht0 d) + used (ht1 d)) 0) as [Hz|Hnz].
  { intros [= <- <- <-]. split; [done|]. split; [done|].
    assert (dict_entries d = []) as -> by (apply length_zero_iff_nil; lia).
    done. }
  change (if dictIsRehashing d then _dictRehashStep d else Some d)
    with (amortized_step d).
  destruct (amortized_step_wf d Hwf) as (d1 & -> & Hwf1 & Hp & _).
  simpl. destruct (random_slot d1 rs) as [[orighe rs1]|] eqn:Hslot; simpl; [|done].
  apply random_slot_member in Hslot as [_ Hin].
  destruct rs1 as [|x rs1]; [done|].
  destruct (_ =? 0); [done|]. case_bool_decide; [|done].
  destruct (orighe !! _) as [he|] eqn:Hhe; simpl; [|done].
  intros [= <- <- <-].
  assert (he ∈ dict_entries d) as Hmem.
  { rewrite <- Hp. apply Hin. by eapply list_elem_of_lookup_2. }
  split; [done|]. split; [done|]. split.
  - split; [done|]. intros Hnil. rewrite Hnil in Hmem.
    by apply elem_of_nil in Hmem.
  - by intros e [= <-].
Qed.

(** *** A whole scan *)

Lemma dict_wf_ext d d' :
  ht0 d' = ht0 d → ht1 d' = ht1 d → rehashidx d' = rehashidx d →
  dict_wf d → dict_wf d'.
Proof.
  intros He0 He1 Her. unfold dict_wf, dictIsRehashing, cursor_inv.
  by rewrite He0, He1, Her.
Qed.

Lemma after_slot_ext d d' t i :
  ht0 d' = ht0 d → ht1 d' = ht1 d → rehashidx d' = rehashidx d →
  after_slot d' t i = after_slot d t i.
Proof.
  intros He0 He1 Her. unfold after_slot, ht, dictIsRehashing.
  by rewrite He0, He1, Her.
Qed.

Lemma pending_ext d d' (iter : @dictIterator K V) :
  ht0 d' = ht0 d → ht1 d' = ht1 d → rehashidx d' = rehashidx d →
  pending d' iter = pending d iter.
Proof. intros. unfold pending. by rewrite (after_slot_ext d d'). Qed.

(** The slots after [i] begin with the chain of slot [i + 1]. *)
Lemma after_slot_next d t i c :
  -1 ≤ i → table_get (ht d t) (i + 1) = Some c →
  after_slot d t i = c ++ after_slot d t (i + 1).
Proof.
  intros Hi (tbl & Ht & Hr & Hc)%table_get_Some. unfold after_slot.
  rewrite Ht. simpl. rewrite (drop_S tbl c (Z.to_nat (i + 1))) by done.
  replace (Z.to_nat (i + 1 + 1)) with (S (Z.to_nat (i + 1))) by lia.
  simpl. by rewrite <- app_assoc.
Qed.

Lemma after_slot_end d t i :
  ht_wf (ht d t) → size (ht d t) ≤ i + 1 →
  after_slot d t i = if (t =? 0) && dictIsRehashing d then ht_entries (ht1 d) else [].
Proof.
  intros Hw Hi. unfold after_slot.
  destruct (ht_wf_slots _ Hw) as [Hlen _]. unfold ht_slots in Hlen.
  rewrite drop_ge by lia. done.
Qed.

Lemma dictNext_loop_pending fuel : ∀ d (iter : @dictIterator K V),
  dict_wf d →
  iter_table iter = 0 ∨ iter_table iter = 1 →
  -1 ≤ iter_index iter < INT_MAX →
  (iter_index iter = -1 → iterators d < INT_MAX) →
  iter_entry iter = [] →
  slots_left d iter ≤ Z.of_nat fuel →
  ∃ d' iter' r, dictNext_loop fuel d iter = Some (d', iter', r) ∧
    match r with
    | None =>
        0 ≤ iter_index iter' ∧
        after_slot d (iter_table iter) (iter_index iter) = []
    | Some e =>
        (iter_table iter' = 0 ∨ iter_table iter' = 1) ∧
        0 ≤ iter_index iter' < 2 ^ 30 ∧
        iter_entry iter' = e :: iter_nextEntry iter' ∧
        after_slot d (iter_table iter) (iter_index iter) = e :: pending d iter'
    end.
Proof.
  induction fuel as [|fuel IH]; intros d iter Hwf Htab Hidx Hits Hent Hfuel.
  all: pose proof Hwf as (Hw0 & Hw1 & _ & Hre).
  all: destruct (ht_wf_slots _ Hw0) as [_ Hs0], (ht_wf_slots _ Hw1) as [_ Hs1].
  { unfold slots_left in Hfuel. destruct (iter_table iter =? 0); lia. }
  cbn [dictNext_loop]. unfold dictNext_body. rewrite Hent.
  set (d1 := if iter_safe iter && (iter_index iter =? -1) && (iter_table iter =? 0)
             then i ← int_incr (iterators d); Some (set_iterators d i)
             else Some d).
  assert (∃ d', d1 = Some d' ∧ ht0 d' = ht0 d ∧ ht1 d' = ht1 d ∧
                rehashidx d' = rehashidx d) as (d' & -> & He0 & He1 & Her).
  { subst d1. destruct (iter_safe iter && (iter_index iter =? -1) &&
                        (iter_table iter =? 0)) eqn:Hfresh; [|by exists d].
    apply andb_prop in Hfresh as [[_ Hm%Z.eqb_eq]%andb_prop _].
    unfold int_incr. rewrite bool_decide_true by auto. simpl. by eexists. }
  pose proof (dict_wf_ext d d' He0 He1 Her Hwf) as Hwf'.
  assert (∀ t i, after_slot d' t i = after_slot d t i) as Hafter
    by (intros; by apply after_slot_ext).
  assert (∀ it, pending d' it = pending d it) as Hpend
    by (intros; by apply pending_ext).
  simpl. unfold int_incr. rewrite bool_decide_true by lia. simpl.
  assert (∀ h : @dictht K V, 0 ≤ size h ≤ 2 ^ 30 → to_int (size h) = size h) as Hti.
  { intros h Hh. apply to_int_small. lia. }
  unfold INT_MAX in *.
  destruct Htab as [Ht|Ht]; rewrite Ht; unfold ht at 1; simpl.
  - rewrite He0, (Hti _ Hs0).
    destruct (Z.geb_spec (iter_index iter + 1) (size (ht0 d))) as [Hge|Hlt].
    + rewrite (after_slot_end d 0) by (done || lia). simpl.
      unfold dictIsRehashing in *. rewrite Her.
      destruct (negb (rehashidx d =? -1)) eqn:Hr; simpl.
      2:{ eexists _, _, _. split; [reflexivity|]. simpl. split; [lia|done]. }
      destruct Hre as (_ & _ & [tbl1 Ht1] & _).
      destruct (ht_wf_get (ht1 d) 0 Hw1) as [c Hc].
      { unfold ht_wf in Hw1. rewrite Ht1 in Hw1. lia. }
      rewrite He1, Hc. simpl.
      assert (ht_entries (ht1 d) = c ++ after_slot d 1 0) as Hsplit.
      { rewrite <- (after_slot_next d 1 (-1)) by done.
        unfold after_slot, ht_entries. simpl. by rewrite app_nil_r. }
      destruct c as [|e c]; simpl.
      * destruct (IH d' (mkIter (0 + 1) 0 (iter_safe iter) [] (iter_nextEntry iter)) Hwf')
          as (d2 & iter2 & r & -> & Hr2);
          [(by left) || (by right)|simpl; lia|simpl; lia|done
          |unfold slots_left in *; rewrite Ht in Hfuel; simpl in *;
           rewrite ?He0, ?He1; lia|].
        exists d2, iter2, r. split; [done|].
        rewrite Hsplit. simpl. rewrite Hafter in Hr2.
        destruct r; [by rewrite Hpend in Hr2|done].
      * eexists _, _, _. split; [reflexivity|]. simpl. split; [by right|].
        split; [lia|]. split; [done|]. rewrite Hsplit. done.
    + destruct (ht_wf_get (ht0 d) (iter_index iter + 1) Hw0) as [c Hc]; [lia|].
      change (ht d' 0) with (ht0 d'). rewrite He0, Hc. simpl.
      rewrite (after_slot_next d 0 (iter_index iter) c) by (done || lia).
      destruct c as [|e c]; simpl.
      * destruct (IH d' (mkIter 0 (iter_index iter + 1) (iter_safe iter) []
                                (iter_nextEntry iter)) Hwf')
          as (d2 & iter2 & r & -> & Hr2);
          [(by left) || (by right)|simpl; lia|simpl; lia|done
          |unfold slots_left in *; rewrite Ht in Hfuel; simpl in *;
           rewrite ?He0, ?He1; lia|].
        exists d2, iter2, r. split; [done|].
        rewrite Hafter in Hr2. destruct r; [by rewrite Hpend in Hr2|done].
      * eexists _, _, _. split; [reflexivity|]. simpl. split; [by left|].
        split; [lia|]. done.
  - rewrite He1, (Hti _ Hs1). rewrite andb_false_r.
    destruct (Z.geb_spec (iter_index iter + 1) (size (ht1 d))) as [Hge|Hlt].
    { rewrite (after_slot_end d 1) by (done || lia). simpl.
      eexists _, _, _. split; [reflexivity|]. simpl. split; [lia|done]. }
    destruct (ht_wf_get (ht1 d) (iter_index iter + 1) Hw1) as [c Hc]; [lia|].
    change (ht d' 1) with (ht1 d'). rewrite He1, Hc. simpl.
    rewrite (after_slot_next d 1 (iter_index iter) c) by (done || lia).
    destruct c as [|e c]; simpl.
    + destruct (IH d' (mkIter 1 (iter_index iter + 1) (iter_safe iter) []
                              (iter_nextEntry iter)) Hwf')
        as (d2 & iter2 & r & -> & Hr2);
          [(by left) || (by right)|simpl; lia|simpl; lia|done
          |unfold slots_left in *; rewrite Ht in Hfuel; simpl in *;
           rewrite ?He0, ?He1; lia|].
      exists d2, iter2, r. split; [done|].
      rewrite Hafter in Hr2. destruct r; [by rewrite Hpend in Hr2|done].
    + eexists _, _, _. split; [reflexivity|]. simpl. split; [by right|].
      split; [lia|]. done.
Qed.

Lemma dictNext_pending d (iter : @dictIterator K V) :
  dict_wf d →
  iter_table iter = 0 ∨ iter_table iter = 1 →
  -1 ≤ iter_index iter < 2 ^ 30 →
  (iter_index iter = -1 → iter_entry iter = [] ∧ iterators d < INT_MAX) →
  ∃ d' iter' r, dictNext d iter = Some (d', iter', r) ∧
    match r with
    | None => 0 ≤ iter_index iter' ∧ pending d iter = []
    | Some e =>
        (iter_table iter' = 0 ∨ iter_table iter' = 1) ∧
        0 ≤ iter_index iter' < 2 ^ 30 ∧
        pending d iter = e :: pending d iter'
    end.
Proof.
  intros Hwf Htab Hidx Hits. unfold dictNext.
  pose proof Hwf as (Hw0 & Hw1 & _).
  destruct (ht_wf_slots _ Hw0) as [Hl0 Hs0]. destruct (ht_wf_slots _ Hw1) as [Hl1 Hs1].
  assert (slots_left d iter ≤ Z.of_nat (2 + ht_slots (ht0 d) + ht_slots (ht1 d))) as Hfuel.
  { unfold slots_left. destruct (iter_table iter =? 0); lia. }
  unfold pending. destruct (iter_entry iter) as [|e0 c0] eqn:Hent.
  { destruct (dictNext_loop_pending (3 + ht_slots (ht0 d) + ht_slots (ht1 d)) d iter)
      as (d' & iter' & r & Hrun & Hr); try done;
      [unfold INT_MAX; lia|by intros [_ ?]%Hits|lia|].
    exists d', iter', r. split; [done|]. simpl.
    destruct r as [e|]; [|done]. destruct Hr as (? & ? & Hent' & Hafter).
    split; [done|]. split; [done|]. fold (pending d iter'). done. }
  change (3 + ht_slots (ht0 d) + ht_slots (ht1 d))%nat
    with (S (2 + ht_slots (ht0 d) + ht_slots (ht1 d))).
  remember (2 + ht_slots (ht0 d) + ht_slots (ht1 d))%nat as fuel.
  cbn [dictNext_loop]. unfold dictNext_body. rewrite Hent. simpl.
  destruct (iter_nextEntry iter) as [|e c] eqn:Hnext; simpl.
  - destruct (dictNext_loop_pending fuel d
                (mkIter (iter_table iter) (iter_index iter) (iter_safe iter) [] []))
      as (d' & iter' & r & Hrun & Hr); try done;
      [unfold INT_MAX; simpl; lia|simpl; by intros [_ ?]%Hits|].
    exists d', iter', r. split; [done|]. simpl in Hr.
    destruct r as [e|]; [|done]. destruct Hr as (? & ? & Hent' & Hafter).
    split; [done|]. split; [done|]. fold (pending d iter'). done.
  - eexists _, _, _. split; [reflexivity|]. simpl.
    split; [done|]. split; [|done].
    destruct (Z.eq_dec (iter_index iter) (-1)) as [Hm|Hm]; [|lia].
    destruct (Hits Hm) as [Hnil _]. congruence.
Qed.

Lemma dictNext_all_pending fuel : ∀ d (iter : @dictIterator K V),
  dict_wf d →
  iter_table iter = 0 ∨ iter_table iter = 1 →
  -1 ≤ iter_index iter < 2 ^ 30 →
  (iter_index iter = -1 → iter_entry iter = [] ∧ iterators d < INT_MAX) →
  (length (pending d iter) < fuel)%nat →
  ∃ d' iter', dictNext_all fuel d iter = Some (d', iter', pending d iter) ∧
    ht0 d' = ht0 d ∧ ht1 d' = ht1 d ∧ rehashidx d' = rehashidx d ∧
    0 ≤ iter_index iter' ∧ iter_safe iter' = iter_safe iter ∧
    iterators d' - (if iter_claims iter' then 1 else 0) =
    iterators d - (if iter_claims iter then 1 else 0).
Proof.
  induction fuel as [|fuel IH]; intros d iter Hwf Htab Hidx Hits Hlen; [lia|].
  cbn [dictNext_all].
  destruct (dictNext_pending d iter Hwf Htab Hidx Hits) as (d1 & iter1 & r & Hrun & Hr).
  rewrite Hrun. simpl.
  destruct (dictNext_frame d iter d1 iter1 r) as (He0 & He1 & Her & _ & Hsafe & _ & Hbal);
    [lia|done|].
  destruct r as [e|].
  - destruct Hr as (Htab1 & Hidx1 & Hpend). rewrite Hpend in Hlen |- *.
    simpl in Hlen. rewrite <- (pending_ext d d1) in Hlen |- * by done.
    destruct (IH d1 iter1) as (d' & iter' & -> & He0' & He1' & Her' & Hi' & Hsafe' & Hbal');
      [by apply (dict_wf_ext d)|done|lia|lia|lia|].
    simpl. exists d', iter'. split; [done|].
    split; [congruence|]. split; [congruence|]. split; [congruence|].
    split; [done|]. split; [congruence|]. lia.
  - destruct Hr as [Hi1 ->]. exists d1, iter1. done.
Qed.

(** X19.  A whole scan.  On a well-formed table, calling [dictNext] on a
    fresh iterator, safe or not, until it returns [NULL] hands out every
    entry of the table exactly once: the entries of the primary array slot
    after slot and chain after chain, then those of the incoming array.  No
    call changes the arrays or the cursor, and [dictReleaseIterator] then
    leaves the table exactly as it was before the scan. *)
Theorem dictNext_all_entries d (safe : bool) :
  dict_wf d → 0 ≤ iterators d < INT_MAX →
  ∃ d' iter',
    dictNext_all (S (length (dict_entries d))) d
      (if safe then dictGetSafeIterator else dictGetIterator)
    = Some (d', iter', dict_entries d) ∧
    ht0 d' = ht0 d ∧ ht1 d' = ht1 d ∧ rehashidx d' = rehashidx d ∧
    dictReleaseIterator d' iter' = Some d.
Proof.
  intros Hwf Hits.
  set (iter := if safe then dictGetSafeIterator else dictGetIterator).
  assert (iter_table iter = 0 ∧ iter_index iter = -1 ∧ iter_entry iter = [] ∧
          iter_safe iter = safe) as (Ht & Hi & He & Hs) by by destruct safe.
  assert (pending d iter = dict_entries d) as Hpend.
  { unfold pending, after_slot, dict_entries. rewrite He, Ht, Hi. simpl.
    unfold ht_entries at 1. f_equal.
    destruct (dictIsRehashing d) eqn:Hre; [done|].
    by rewrite (dict_wf_stable_entries d). }
  destruct (dictNext_all_pending (S (length (dict_entries d))) d iter Hwf)
    as (d' & iter' & Hrun & He0 & He1 & Her & Hi' & Hsafe & Hbal);
    [by left|lia|intros _; split; [done|lia]|rewrite Hpend; lia|].
  rewrite Hpend in Hrun. exists d', iter'. split; [done|].
  split; [done|]. split; [done|]. split; [done|].
  unfold dictReleaseIterator.
  assert (iter_claims iter = false) as Hc.
  { unfold iter_claims. rewrite Ht, Hi. simpl. by rewrite andb_false_r. }
  assert (iter_claims iter' = safe) as Hc'.
  { unfold iter_claims. rewrite Hsafe, Hs.
    assert ((iter_index iter' =? -1) = false) as -> by (apply Z.eqb_neq; lia).
    simpl. by rewrite andb_true_r. }
  rewrite Hc, Hc' in Hbal. fold (iter_claims iter'). rewrite Hc'.
  clear Hrun Hpend Hwf Hc Hc' Hsafe Hs He Hi Ht. clear iter.
  destruct d as [h0 h1 idx its], d' as [h0' h1' idx' its']. simpl in *. subst.
  destruct safe; simpl.
  - unfold int_decr. rewrite bool_decide_true by (unfold INT_MIN; lia).
    simpl. unfold set_iterators. simpl. do 2 f_equal. lia.
  - do 2 f_equal. lia.
Qed.

(** *** Progress of a rehash *)

Lemma amortized_step_progress d :
  dict_wf d → dictIsRehashing d = true → used (ht0 d) ≠ 0 →
  ∃ d1, amortized_step d = Some d1 ∧ dict_wf d1 ∧
    dictIsRehashing d1 = true ∧ rehashidx d ≤ rehashidx d1 ∧
    used (ht0 d1) ≤ used (ht0 d) ∧
    size (ht0 d1) = size (ht0 d) ∧ size (ht1 d1) = size (ht1 d) ∧
    iterators d1 = iterators d.
Proof.
  intros Hwf Hre Hu. unfold amortized_step, _dictRehashStep. rewrite Hre.
  destruct (iterators d =? 0).
  2:{ exists d. split; [done|]. split; [done|]. split; [done|].
      split; [lia|]. split; [lia|]. done. }
  unfold dictRehash. rewrite Hre. simpl.
  destruct (dictRehash_body_step d Hwf Hre Hu)
    as (j & de & d1 & -> & Hj & _ & _ & _ & Hidx & Hit & Hs0 & _ & Hu0 & _ & _
        & Hs1 & _ & _ & _ & Hwf1 & _).
  destruct (dict_wf_rehashing d Hwf Hre) as (_ & _ & _ & _ & _ & _ & _ & Hr0 & _).
  simpl. exists d1. split; [done|]. split; [done|].
  split; [apply dictIsRehashing_true; lia|].
  split; [lia|]. split; [lia|]. done.
Qed.

Lemma dictGenericDelete_sizes d k nofree d' r :
  dictGenericDelete d k nofree = Some (d', r) →
  d' = d ∨ ∃ d1, amortized_step d = Some d1 ∧ rehashidx d' = rehashidx d1 ∧
    size (ht0 d') = size (ht0 d1) ∧ size (ht1 d') = size (ht1 d1) ∧
    iterators d' = iterators d1 ∧
    (ht0 d' = ht0 d1 ∨ ht1 d' = ht1 d1).
Proof.
  unfold dictGenericDelete.
  destruct (size (ht0 d) =? 0); [intros [= <- <-]; by left|].
  change (if dictIsRehashing d then _dictRehashStep d else Some d)
    with (amortized_step d).
  destruct (amortized_step d) as [d1|]; simpl; [|done].
  intros Hrun. right. exists d1. split; [done|]. revert Hrun.
  destruct (table_get (ht0 d1) _) as [he|]; simpl; [|done].
  destruct (chain_unlink k he).
  { destruct (table_set _ _ _) as [h|] eqn:Hset; simpl; [|done].
    apply table_set_Some in Hset as (tbl & _ & _ & ->).
    intros [= <- <-]. simpl. auto 10. }
  destruct (negb _); [intros [= <- <-]; auto 10|].
  destruct (table_get (ht1 d1) _) as [he1|]; simpl; [|done].
  destruct (chain_unlink k he1); [|intros [= <- <-]; auto 10].
  destruct (table_set _ _ _) as [h|] eqn:Hset; simpl; [|done].
  apply table_set_Some in Hset as (tbl & _ & _ & ->).
  intros [= <- <-]. simpl. auto 10.
Qed.

(** X21.  A rehash only moves forward.  While a well-formed table is
    rehashing and its primary array still holds entries, an add, a find or a
    delete leaves it rehashing, never moves the cursor back, never adds an
    entry to the primary array and never changes the size of either
    array. *)
Theorem rehash_moves_forward gate d o d' :
  dict_wf d → used (ht0 d) + used (ht1 d) < 2 ^ 29 →
  dictIsRehashing d = true → used (ht0 d) ≠ 0 →
  run_op gate d o = Some d' →
  dictIsRehashing d' = true ∧ rehashidx d ≤ rehashidx d' ∧
  used (ht0 d') ≤ used (ht0 d) ∧
  size (ht0 d') = size (ht0 d) ∧ size (ht1 d') = size (ht1 d).
Proof.
  intros Hwf Hroom Hre Hu Hrun.
  destruct (amortized_step_progress d Hwf Hre Hu)
    as (d1 & Hstep & Hwf1 & Hre1 & Hidx1 & Hu1 & Hs0 & Hs1 & Hit1).
  destruct o as [k v|k|k]; simpl in Hrun.
  - destruct (dictAdd gate d k v) as [[d2 r]|] eqn:Hadd; simpl in Hrun; [|done].
    injection Hrun as ->.
    destruct (dictAdd_counts _ _ _ _ _ _ Hadd)
      as (d3 & p & Hraw & _ & Hidx & _ & Hs0' & Hu0' & Hs1' & _).
    destruct (dictAddRaw_wf gate d k Hwf Hroom)
      as (d1' & d2 & c0 & tblT & cT & Hstep' & Hexp & Hwf2 & _ & _ & _ & _ & Hrest).
    rewrite Hstep in Hstep'. injection Hstep' as <-.
    assert (d2 = d1) as ->.
    { unfold _dictExpandIfNeeded in Hexp. rewrite Hre1 in Hexp. congruence. }
    cbv zeta in Hrest. rewrite Hre1 in Hrest.
    destruct Hrest as (_ & _ & _ & _ & _ & _ & Hcases).
    assert (rehashidx d3 = rehashidx d1 ∧ size (ht0 d3) = size (ht0 d1) ∧
            used (ht0 d3) = used (ht0 d1) ∧ size (ht1 d3) = size (ht1 d1))
      as (Hi3 & Hs3 & Hu3 & Hs3').
    { destruct Hcases as [[Hraw' _]|(_ & _ & Hraw' & _)]; rewrite Hraw in Hraw'.
      - by injection Hraw' as -> _.
      - injection Hraw' as -> _. done. }
    split; [apply dictIsRehashing_true; apply dictIsRehashing_true in Hre1; lia|].
    split; [lia|]. split; [lia|]. split; lia.
  - destruct (dictFind d k) as [[d2 r]|] eqn:Hfind; simpl in Hrun; [|done].
    injection Hrun as ->.
    apply dictFind_after_step in Hfind as [->|Hstep'].
    + split; [done|]. split; [lia|]. split; [lia|]. done.
    + rewrite Hstep in Hstep'. injection Hstep' as <-.
      split; [done|]. split; [done|]. split; [done|]. done.
  - destruct (dictDelete d k) as [[d2 r]|] eqn:Hdel; simpl in Hrun; [|done].
    injection Hrun as ->. unfold dictDelete in Hdel.
    destruct (dictGenericDelete_wf d k false Hwf)
      as (d2 & r2 & Hdel' & Hwf' & _ & _ & Hnz).
    rewrite Hdel in Hdel'. injection Hdel' as <- <-.
    destruct (dict_wf_rehashing d Hwf Hre) as (tbl0 & _ & Ht0 & _ & Hw0 & _).
    destruct (ht_wf_alloc _ _ Hw0 Ht0) as (_ & Hsz & _).
    destruct Hnz as (d1' & Hstep' & Hcases); [lia|].
    rewrite Hstep in Hstep'. injection Hstep' as <-.
    apply dictGenericDelete_sizes in Hdel
      as [->|(d1' & Hstep' & Hidx & Hs0' & Hs1' & _)].
    { split; [done|]. split; [lia|]. split; [lia|]. done. }
    rewrite Hstep in Hstep'. injection Hstep' as <-.
    split; [apply dictIsRehashing_true; apply dictIsRehashing_true in Hre1; lia|].
    split; [lia|]. split; [|split; lia].
    destruct Hcases as [(_ & -> & _)|(_ & _ & e & _ & [[Hp _]|[_ ->]])];
      [done| |done].
    destruct Hwf' as (Hw0' & _), Hwf1 as (Hw01 & _).
    apply ht_wf_used in Hw0', Hw01. apply Permutation_length in Hp.
    simpl in Hp. lia.
Qed.

Lemma dictRehash_loop_sizes n : ∀ d d' r,
  dict_wf d → dictIsRehashing d = true →
  dictRehash_loop n d = Some (d', r) →
  (r = 0 → size (ht0 d') = size (ht1 d) ∧ ht1 d' = _dictReset) ∧
  (r = 1 → size (ht0 d') = size (ht0 d) ∧ size (ht1 d') = size (ht1 d)).
Proof.
  induction n as [|n IH]; intros d d' r Hwf Hre; cbn [dictRehash_loop].
  - intros [= <- <-]. split; [done|]. done.
  - destruct (Z.eq_dec (used (ht0 d)) 0) as [Hu|Hu].
    + rewrite dictRehash_body_done by done. simpl. intros [= <- <-].
      split; [done|]. done.
    + destruct (dictRehash_body_step d Hwf Hre Hu)
        as (j & de & d1 & -> & Hj & _ & _ & _ & Hidx & _ & Hs0 & _ & _ & _ & _
            & Hs1 & _ & _ & _ & Hwf1 & _).
      destruct (dict_wf_rehashing d Hwf Hre) as (_ & _ & _ & _ & _ & _ & _ & Hr0 & _).
      simpl. intros Hrun.
      destruct (IH d1 d' r Hwf1) as [H0 H1]; [apply dictIsRehashing_true; lia|done|].
      rewrite <- Hs0, <- Hs1. done.
Qed.

(** X22.  Shrinking to fit.  On a well-formed stable table with an
    allocated array and the resize gate open, [dictResize] followed by
    [dictRehash] for more steps than the table has entries leaves a stable,
    well-formed table with the same entries, whose one array has the
    smallest power of two at least 4 and at least the number of entries as
    its size. *)
Theorem dictResize_then_rehash d n :
  dict_wf d → dictIsRehashing d = false → is_Some (table (ht0 d)) →
  used (ht0 d) < n →
  ∃ d1 d2,
    dictResize dictEnableResize d = Some (d1, DICT_OK) ∧
    dictRehash d1 n = Some (d2, 0) ∧
    dict_wf d2 ∧ dictIsRehashing d2 = false ∧ ht1 d2 = _dictReset ∧
    dict_entries d2 ≡ₚ dict_entries d ∧
    next_power_of (Z.max (used (ht0 d)) DICT_HT_INITIAL_SIZE) (size (ht0 d2)).
Proof.
  intros Hwf Hst [tbl0 Ht0] Hn.
  pose proof Hwf as (Hw0 & Hw1 & Hsum & Hre). rewrite Hst in Hre.
  pose proof (ht_wf_used_nonneg _ Hw0) as Hnn.
  pose proof (ht_wf_used_nonneg _ Hw1) as Hnn1.
  destruct (dictResize_accepted d) as (r & Hr & Hrun); [lia|done|].
  unfold dictEnableResize. rewrite Hrun.
  assert (ht1 d = _dictReset) as Hreset.
  { unfold ht_wf in Hw1. rewrite Hre in Hw1. destruct (ht1 d); simpl in *.
    destruct Hw1 as (-> & -> & ->). by rewrite Hre. }
  destruct (fresh_ht_wf r) as [Hwf' He'].
  { apply (next_power_of_le _ r 30 Hr); unfold DICT_HT_INITIAL_SIZE; lia. }
  assert (expanded d r = set_rehashidx (set_ht1 d (fresh_ht r)) 0) as Hexp
    by (unfold expanded; by rewrite Ht0).
  set (d1 := expanded d r) in *.
  assert (dict_wf d1) as Hwf1.
  { rewrite Hexp. unfold dict_wf. simpl. split; [done|]. split; [done|].
    split; [lia|].
    destruct (ht_wf_alloc _ _ Hw0 Ht0) as (_ & ? & _).
    split; [lia|]. split; [by eauto|]. split; [by eauto|].
    intros i c Hi. simpl in Hi. lia. }
  assert (dictIsRehashing d1 = true) as Hre1 by by rewrite Hexp.
  assert (dict_entries d1 = dict_entries d) as Hent.
  { rewrite Hexp. unfold dict_entries. simpl. by rewrite He', Hreset. }
  assert (used (ht0 d1) = used (ht0 d) ∧ size (ht1 d1) = r) as [Hu1 Hs1]
    by by rewrite Hexp.
  exists d1. unfold dictRehash. rewrite Hre1. simpl.
  assert ((0 <=? n) = true) as -> by (apply Z.leb_le; lia).
  destruct (dictRehash_loop_wf (Z.to_nat n) d1 Hwf1 Hre1)
    as (d2 & r2 & Hloop & Hwf2 & Hp2 & _ & Hcases).
  destruct Hcases as [[-> Hst2]|(_ & _ & Hle)].
  2:{ pose proof Hwf2 as (Hw02 & _). apply ht_wf_used_nonneg in Hw02. lia. }
  destruct (dictRehash_loop_sizes _ _ _ _ Hwf1 Hre1 Hloop) as [[Hs2 Hr2] _]; [done|].
  exists d2. split; [done|]. split; [done|]. split; [done|]. split; [done|].
  split; [done|]. split; [by rewrite Hp2, Hent|]. by rewrite Hs2, Hs1.
Qed.

(** X1.  Memory safety and the invariants of the table.  From a
    well-formed table without duplicate keys, whose type descriptor compares
    by an equivalence that agrees with the hash, every sequence of add, find
    and delete operations, each under the setting of the resize gate it
    meets, in which every add meets a table of fewer than 2^29 entries, runs
    without leaving an array or overflowing a counter, and ends in a
    well-formed table without duplicate keys, whose [dictSize] is the number
    of its entries.  The finds and the deletes are not bounded in number. *)
Theorem operations_keep_invariants gos d :
  compare_sym → compare_trans → compare_hash →
  dict_wf d → keys_unique d → adds_have_room d gos →
  ∃ d', exec_gated_ops d gos = Some d' ∧ dict_wf d' ∧ keys_unique d' ∧
        dictSize d' = Z.of_nat (length (dict_entries d')) ∧
        (dictIsRehashing d' = true → cursor_inv d').
Proof.
  intros Hsym Htrans Hcompat Hwf Hu Hroom.
  destruct (exec_gated_ops_wf gos d) as (d' & Hrun & Hwf' & Hu'); [done..|].
  exists d'. split; [done|]. split; [done|]. split; [done|]. split.
  - unfold dictSize. rewrite dict_wf_used by done.
    pose proof (dict_wf_used d' Hwf'). destruct Hwf' as (_ & _ & ? & _).
    apply to_ulong_small. lia.
  - intros Hre. by destruct (dict_wf_rehashing d' Hwf' Hre) as (_ & _ & _ & _ & _ & _ & _ & _ & ?).
Qed.

(** *** Array sizes *)

Lemma amortized_step_sizes d d1 :
  dict_wf d → amortized_step d = Some d1 → sizes_pow2 d → sizes_pow2 d1.
Proof.
  intros Hwf Hstep [Hp0 Hp1]. unfold amortized_step, _dictRehashStep in Hstep.
  destruct (dictIsRehashing d) eqn:Hre; [|by injection Hstep as <-].
  destruct (iterators d =? 0); [|by injection Hstep as <-].
  unfold dictRehash in Hstep. rewrite Hre in Hstep. simpl in Hstep.
  destruct (Z.eq_dec (used (ht0 d)) 0) as [Hu|Hu].
  - rewrite dictRehash_body_done in Hstep by done. simpl in Hstep.
    injection Hstep as <-. split; [done|]. by left.
  - destruct (dictRehash_body_step d Hwf Hre Hu)
      as (j & de & d' & Hbody & _ & _ & _ & _ & _ & _ & Hs0 & _ & _ & _ & _
          & Hs1 & _).
    rewrite Hbody in Hstep. simpl in Hstep. injection Hstep as <-.
    unfold sizes_pow2. by rewrite Hs0, Hs1.
Qed.

Lemma dictExpand_sizes d sz d' res :
  sz < LONG_MAX → dictExpand d sz = Some (d', res) →
  sizes_pow2 d → sizes_pow2 d'.
Proof.
  intros Hsz Hrun [Hp0 Hp1].
  destruct (dictIsRehashing d) eqn:Hre.
  { rewrite dictExpand_refused in Hrun by auto. by injection Hrun as <- _. }
  destruct (Z_lt_le_dec sz (used (ht0 d))) as [Hlt|Hle].
  { rewrite dictExpand_refused in Hrun by auto. by injection Hrun as <- _. }
  destruct (dictExpand_spec d sz Hre Hle Hsz) as (r & (Hpow & _) & _ & Heq).
  rewrite Heq in Hrun. injection Hrun as <- _.
  unfold expanded. destruct (table (ht0 d)); split; simpl; auto; by right.
Qed.

Lemma _dictExpandIfNeeded_sizes gate d d' res :
  dict_wf d → _dictExpandIfNeeded gate d = Some (d', res) →
  sizes_pow2 d → sizes_pow2 d'.
Proof.
  intros (Hw0 & Hw1 & Hsum & _) Hrun Hp.
  pose proof (ht_wf_used_nonneg _ Hw0). pose proof (ht_wf_used_nonneg _ Hw1).
  destruct (ht_wf_slots _ Hw0) as [_ Hs0].
  unfold _dictExpandIfNeeded in Hrun.
  destruct (dictIsRehashing d); [by injection Hrun as <- _|].
  destruct (size (ht0 d) =? 0).
  { eapply dictExpand_sizes; [|exact Hrun|done].
    unfold DICT_HT_INITIAL_SIZE, LONG_MAX. lia. }
  destruct (_ && _); [|by injection Hrun as <- _].
  eapply dictExpand_sizes; [|exact Hrun|done].
  destruct (size (ht0 d) >? used (ht0 d));
    rewrite to_ulong_small by lia; unfold LONG_MAX; lia.
Qed.

Lemma run_op_sizes gate d o d' :
  dict_wf d → (op_adds o = true → used (ht0 d) + used (ht1 d) < 2 ^ 29) →
  run_op gate d o = Some d' → sizes_pow2 d → sizes_pow2 d'.
Proof.
  intros Hwf Hroom Hrun Hp.
  destruct (amortized_step_wf d Hwf) as (d1 & Hstep & Hwf1 & _).
  pose proof (amortized_step_sizes d d1 Hwf Hstep Hp) as Hp1.
  destruct o as [k v|k|k]; simpl in Hrun.
  - destruct (dictAdd gate d k v) as [[d2 r]|] eqn:Hadd; simpl in Hrun; [|done].
    injection Hrun as ->.
    destruct (dictAdd_counts _ _ _ _ _ _ Hadd)
      as (d3 & p & Hraw & _ & _ & _ & Hs0 & _ & Hs1 & _).
    destruct (dictAddRaw_wf gate d k Hwf (Hroom eq_refl))
      as (d1' & d2 & c0 & tblT & cT & Hstep' & Hexp & _ & _ & _ & _ & _ & Hrest).
    rewrite Hstep in Hstep'. injection Hstep' as <-.
    pose proof (_dictExpandIfNeeded_sizes gate d1 d2 _ Hwf1 Hexp Hp1) as Hp2.
    cbv zeta in Hrest. destruct Hrest as (_ & _ & _ & _ & _ & _ & Hcases).
    unfold sizes_pow2. rewrite Hs0, Hs1.
    destruct Hcases as [[Hraw' _]|(_ & _ & Hraw' & _)]; rewrite Hraw in Hraw';
      injection Hraw' as -> _; [done|].
    unfold set_ht, ht. destruct (dictIsRehashing d2); simpl; exact Hp2.
  - destruct (dictFind d k) as [[d2 r]|] eqn:Hfind; simpl in Hrun; [|done].
    injection Hrun as ->.
    apply dictFind_after_step in Hfind as [->|Hstep']; [done|]. congruence.
  - destruct (dictDelete d k) as [[d2 r]|] eqn:Hdel; simpl in Hrun; [|done].
    injection Hrun as ->. unfold dictDelete in Hdel.
    apply dictGenericDelete_sizes in Hdel
      as [->|(d1' & Hstep' & _ & Hs0 & Hs1 & _)]; [done|].
    rewrite Hstep in Hstep'. injection Hstep' as <-.
    unfold sizes_pow2. by rewrite Hs0, Hs1.
Qed.

(** X23.  The sizes of the arrays.  A size that is 0, for an unallocated
    array, or a power of two from 4 on is what makes the mask of an array
    select every one of its slots.  The arrays of [dictCreate] have such
    sizes, and from a well-formed table whose arrays have such sizes every
    sequence of add, find and delete operations, each under the setting of
    the resize gate it meets, in which every add meets a table of fewer than
    2^29 entries, returns and leaves arrays of such sizes. *)
Theorem exec_ops_sizes gos : ∀ d,
  dict_wf d → sizes_pow2 d → adds_have_room d gos →
  ∃ d', exec_gated_ops d gos = Some d' ∧ sizes_pow2 d' ∧
        sizes_pow2 (@dictCreate K V).
Proof.
  induction gos as [|[gate o] gos IH]; intros d Hwf Hp Hroom; simpl.
  - exists d. split; [done|]. split; [done|]. split; by left.
  - destruct Hroom as [Hadd Hrest].
    destruct (run_op_safe gate d o Hwf Hadd) as (d1 & Hrun & Hwf1 & _).
    rewrite Hrun. simpl. apply IH; [done| |by apply Hrest].
    eapply run_op_sizes; [exact Hwf| |exact Hrun|exact Hp].
    rewrite dict_wf_used by done. exact Hadd.
Qed.

(** X24.  [dictRehash] does not look at the iterator count: on a
    well-formed rehashing table whose primary array still holds entries, one
    step called directly moves at least one entry out of the primary array
    even while safe iterators are live, where the amortized step of the
    operations leaves the table alone. *)
Theorem dictRehash_ignores_iterators d :
  dict_wf d → dictIsRehashing d = true → used (ht0 d) ≠ 0 → iterators d ≠ 0 →
  amortized_step d = Some d ∧
  ∃ d', dictRehash d 1 = Some (d', 1) ∧ used (ht0 d') < used (ht0 d) ∧
        used (ht1 d) < used (ht1 d') ∧ rehashidx d < rehashidx d' ∧
        iterators d' = iterators d ∧ dict_entries d' ≡ₚ dict_entries d.
Proof.
  intros Hwf Hre Hu Hit. split; [by apply amortized_step_suppressed|].
  unfold dictRehash. rewrite Hre. simpl.
  destruct (dictRehash_body_step d Hwf Hre Hu)
    as (j & de & d' & -> & Hj & _ & _ & Hne & Hidx & Hit' & _ & _ & Hu0 & _ & _
        & _ & _ & Hu1 & _ & _ & Hp).
  simpl. exists d'. split; [done|].
  assert (0 < Z.of_nat (length de)) by (destruct de; [done|simpl; lia]).
  split; [lia|]. split; [lia|]. split; [lia|]. done.
Qed.

End Properties.

(** ** Properties of the hash functions *)

Section HashFunctions.

Lemma to_uint_to_int x : to_uint (to_int x) = to_uint x.
Proof.
  unfold to_uint, to_int. rewrite Zminus_mod_idemp_l. f_equal. lia.
Qed.

(** One turn of the loop multiplies by 33 and adds, modulo 2^32. *)
Lemma bernstein_step H x :
  to_uint (to_uint (to_uint (Z.shiftl (to_uint H) 5) + to_uint H) + x)
  = to_uint (H * 33 + x).
Proof.
  unfold to_uint. rewrite Z.shiftl_mul_pow2 by lia.
  rewrite Zplus_mod_idemp_l, <- Z.add_assoc, Zplus_mod_idemp_l.
  replace (H mod 2 ^ 32 * 2 ^ 5 + (H mod 2 ^ 32 + x))
    with (H mod 2 ^ 32 * 33 + x) by lia.
  rewrite <- (Zplus_mod_idemp_l (H mod 2 ^ 32 * 33)).
  rewrite Zmult_mod_idemp_l. by rewrite Zplus_mod_idemp_l.
Qed.

Lemma dictGenHashFunction_loop_horner f (len : nat) : ∀ buf H,
  (len ≤ length buf)%nat →
  dictGenHashFunction_loop f buf len (to_uint H)
  = Some (to_uint (horner33 H (f ∘ uchar <$> take len buf))).
Proof.
  induction len as [|len IH]; intros buf H Hlen; [done|].
  destruct buf as [|c buf]; simpl in Hlen; [lia|].
  cbn [dictGenHashFunction_loop take fmap list_fmap]. rewrite bernstein_step.
  rewrite IH by lia. done.
Qed.

Lemma dictGenHashFunction_loop_past f (len : nat) : ∀ buf hash,
  (length buf < len)%nat → dictGenHashFunction_loop f buf len hash = None.
Proof.
  induction len as [|len IH]; intros buf hash Hlen; [lia|].
  destruct buf as [|c buf]; simpl in *; [done|]. apply IH. lia.
Qed.

(** X15.  [dictGenHashFunction] over the first [len] bytes of a buffer
    returns, modulo 2^32, the value at 33 of the polynomial whose leading
    coefficient is the seed and whose other coefficients are the bytes: the
    shift-and-add loop on [unsigned int] is Horner's rule for it.  With
    [len] 0 it returns the seed; with a negative [len], or one past the end
    of the buffer, it leaves the buffer. *)
Theorem dictGenHashFunction_horner seed buf len :
  (0 ≤ len ≤ Z.of_nat (length buf) →
     dictGenHashFunction seed buf len =
       Some (to_uint (horner33 seed (uchar <$> take (Z.to_nat len) buf)))) ∧
  (len < 0 ∨ Z.of_nat (length buf) < len →
     dictGenHashFunction seed buf len = None) ∧
  dictGenHashFunction seed buf 0 = Some (to_uint seed).
Proof.
  unfold dictGenHashFunction. split; [|split; [|done]].
  - intros Hlen. assert ((len <? 0) = false) as -> by (apply Z.ltb_ge; lia).
    rewrite dictGenHashFunction_loop_horner by lia. done.
  - intros [Hneg|Hpast].
    + by assert ((len <? 0) = true) as -> by by apply Z.ltb_lt.
    + destruct (len <? 0); [done|].
      apply dictGenHashFunction_loop_past. lia.
Qed.

Lemma dictGenCaseHashFunction_loop_case (n : nat) : ∀ buf1 buf2 hash,
  Forall2 (λ a b, tolower (uchar a) = tolower (uchar b)) buf1 buf2 →
  dictGenHashFunction_loop tolower buf1 n hash =
  dictGenHashFunction_loop tolower buf2 n hash.
Proof.
  induction n as [|n IH]; intros buf1 buf2 hash Hcase; [done|].
  destruct Hcase as [|a b buf1 buf2 Hab Hcase]; simpl; [done|].
  rewrite Hab. by apply IH.
Qed.

Lemma dictGenCaseHashFunction_loop_lower (n : nat) : ∀ buf hash,
  Forall (λ b, ¬ (65 ≤ uchar b ≤ 90)) buf →
  dictGenHashFunction_loop tolower buf n hash =
  dictGenHashFunction_loop id buf n hash.
Proof.
  induction n as [|n IH]; intros buf hash Hlow; [done|].
  destruct Hlow as [|b buf Hb Hlow]; simpl; [done|].
  assert (tolower (uchar b) = uchar b) as ->.
  { unfold tolower. destruct (Z.leb_spec 65 (uchar b)), (Z.leb_spec (uchar b) 90);
      simpl; try done. lia. }
  by apply IH.
Qed.

(** X16.  [dictGenCaseHashFunction] does not see the case of letters: two
    buffers whose bytes agree up to [tolower] get the same hash, for every
    seed and length; and when the second holds no upper-case letter, this
    hash is its plain [dictGenHashFunction]. *)
Theorem dictGenCaseHashFunction_case seed buf1 buf2 len :
  Forall2 (λ a b, tolower (uchar a) = tolower (uchar b)) buf1 buf2 →
  dictGenCaseHashFunction seed buf1 len = dictGenCaseHashFunction seed buf2 len ∧
  (Forall (λ b, ¬ (65 ≤ uchar b ≤ 90)) buf2 →
   dictGenCaseHashFunction seed buf1 len = dictGenHashFunction seed buf2 len).
Proof.
  intros Hcase. unfold dictGenCaseHashFunction, dictGenHashFunction.
  destruct (len <? 0); [done|].
  rewrite (dictGenCaseHashFunction_loop_case _ buf1 buf2) by done.
  split; [done|]. intros Hlow. by apply dictGenCaseHashFunction_loop_lower.
Qed.

(** X18.  The seed survives its stay in the [int] static: after
    [dictSetHashFunctionSeed] of any [unsigned int], [dictGetHashFunctionSeed]
    returns it and the hash functions start from it. *)
Theorem dictSetHashFunctionSeed_get seed :
  0 ≤ seed < 2 ^ 32 →
  dictGetHashFunctionSeed (dictSetHashFunctionSeed seed) = seed ∧
  (∀ buf len, dictGenHashFunction (dictSetHashFunctionSeed seed) buf len =
              dictGenHashFunction seed buf len) ∧
  (∀ buf len, dictGenCaseHashFunction (dictSetHashFunctionSeed seed) buf len =
              dictGenCaseHashFunction seed buf len).
Proof.
  intros Hseed.
  unfold dictGetHashFunctionSeed, dictSetHashFunctionSeed,
    dictGenHashFunction, dictGenCaseHashFunction.
  rewrite to_uint_to_int. split; [by apply to_uint_small|]. done.
Qed.

(** *** The integer hash function *)

Lemma affine_mod_inj c c' b x y :
  (c * c') mod 2 ^ 32 = 1 →
  (x * c + b) mod 2 ^ 32 = (y * c + b) mod 2 ^ 32 →
  x mod 2 ^ 32 = y mod 2 ^ 32.
Proof.
  intros Hinv Heq.
  assert (∀ z, (((z * c + b) mod 2 ^ 32 - b) * c') mod 2 ^ 32 = z mod 2 ^ 32) as Hback.
  { intros z. rewrite <- Zmult_mod_idemp_l, Zminus_mod_idemp_l, Zmult_mod_idemp_l.
    replace ((z * c + b - b) * c') with (z * (c * c')) by lia.
    rewrite <- Zmult_mod_idemp_r, Hinv. f_equal. lia. }
  rewrite <- (Hback x), <- (Hback y). by rewrite Heq.
Qed.

(** [key += ~(key << s)] multiplies by [1 - 2^s] and subtracts 1. *)
Lemma add_lnot_shiftl key s :
  0 ≤ s →
  to_uint (key + to_uint (Z.lnot (to_uint (Z.shiftl key s))))
  = (key * (1 - 2 ^ s) + -1) mod 2 ^ 32.
Proof.
  intros Hs. unfold to_uint. rewrite Z.shiftl_mul_pow2 by done.
  rewrite Z.lnot_eq_pred_opp. rewrite Zplus_mod_idemp_r.
  replace (key + (- ((key * 2 ^ s) mod 2 ^ 32) - 1))
    with (key - 1 - (key * 2 ^ s) mod 2 ^ 32) by lia.
  rewrite Zminus_mod_idemp_r. f_equal. lia.
Qed.

(** [key += (key << s)] multiplies by [1 + 2^s]. *)
Lemma add_shiftl key s :
  0 ≤ s →
  to_uint (key + to_uint (Z.shiftl key s)) = (key * (1 + 2 ^ s) + 0) mod 2 ^ 32.
Proof.
  intros Hs. unfold to_uint. rewrite Z.shiftl_mul_pow2 by done.
  rewrite Zplus_mod_idemp_r. f_equal. lia.
Qed.

Lemma testbit_above x n : 0 ≤ x < 2 ^ 32 → 32 ≤ n → Z.testbit x n = false.
Proof.
  intros Hx Hn. destruct (Z.eq_dec x 0) as [->|Hne]; [apply Z.bits_0|].
  apply Z.bits_above_log2; [lia|].
  assert (Z.log2 x < 32) by (apply Z.log2_lt_pow2; lia). lia.
Qed.

Lemma lxor_shiftr_range x s :
  0 ≤ s → 0 ≤ x < 2 ^ 32 → 0 ≤ Z.lxor x (Z.shiftr x s) < 2 ^ 32.
Proof.
  intros Hs Hx.
  assert (0 ≤ Z.shiftr x s) as Hsh by (apply Z.shiftr_nonneg; lia).
  assert (0 ≤ Z.lxor x (Z.shiftr x s)) as Hnn by (apply Z.lxor_nonneg; lia).
  split; [done|].
  destruct (Z.eq_dec (Z.lxor x (Z.shiftr x s)) 0) as [->|Hne]; [lia|].
  apply Z.log2_lt_pow2; [lia|].
  pose proof (Z.log2_lxor x (Z.shiftr x s) (proj1 Hx) Hsh) as Hle.
  assert (Z.log2 x < 32).
  { destruct (Z.eq_dec x 0) as [->|?]; [simpl; lia|]. apply Z.log2_lt_pow2; lia. }
  assert (Z.log2 (Z.shiftr x s) ≤ Z.log2 x).
  { apply Z.log2_le_mono. rewrite Z.shiftr_div_pow2 by done.
    apply Z.div_le_upper_bound; [lia|].
    assert (1 ≤ 2 ^ s) by (apply Z.pow_le_mono_r with (b := 0) (a := 2) (c := s) in Hs; lia || lia).
    nia. }
  lia.
Qed.

(** [key ^= (key >> s)] can be undone from the top bits down. *)
Lemma lxor_shiftr_inj x y s :
  0 < s → 0 ≤ x < 2 ^ 32 → 0 ≤ y < 2 ^ 32 →
  Z.lxor x (Z.shiftr x s) = Z.lxor y (Z.shiftr y s) → x = y.
Proof.
  intros Hs Hx Hy Heq. apply Z.bits_inj'. intros n Hn.
  assert (∀ k : nat, ∀ n, 0 ≤ n → 32 ≤ n + Z.of_nat k →
            Z.testbit x n = Z.testbit y n) as Hbits.
  { induction k as [|k IH]; intros m Hm Hk.
    - rewrite !testbit_above by lia. done.
    - assert (Z.testbit (Z.lxor x (Z.shiftr x s)) m
              = Z.testbit (Z.lxor y (Z.shiftr y s)) m) as Hb by by rewrite Heq.
      rewrite !Z.lxor_spec, !Z.shiftr_spec in Hb by done.
      rewrite (IH (m + s)) in Hb by lia.
      revert Hb.
      by destruct (Z.testbit x m), (Z.testbit y m), (Z.testbit y (m + s)). }
  apply (Hbits 32%nat); lia.
Qed.

(** X17.  [dictIntHashFunction] maps no two [unsigned int] keys to the
    same value: each of its six steps is undone by another one, so the
    function permutes the 32-bit values. *)
Theorem dictIntHashFunction_inj k1 k2 :
  0 ≤ k1 < 2 ^ 32 → 0 ≤ k2 < 2 ^ 32 →
  0 ≤ dictIntHashFunction k1 < 2 ^ 32 ∧
  (dictIntHashFunction k1 = dictIntHashFunction k2 → k1 = k2).
Proof.
  intros H1 H2. unfold dictIntHashFunction. cbv zeta.
  rewrite !(add_lnot_shiftl _ 15), !(add_lnot_shiftl _ 11), !(add_shiftl _ 3) by lia.
  set (a1 := (k1 * (1 - 2 ^ 15) + -1) mod 2 ^ 32).
  set (a2 := (k2 * (1 - 2 ^ 15) + -1) mod 2 ^ 32).
  set (b1 := Z.lxor a1 (Z.shiftr a1 10)). set (b2 := Z.lxor a2 (Z.shiftr a2 10)).
  set (c1 := (b1 * (1 + 2 ^ 3) + 0) mod 2 ^ 32).
  set (c2 := (b2 * (1 + 2 ^ 3) + 0) mod 2 ^ 32).
  set (d1 := Z.lxor c1 (Z.shiftr c1 6)). set (d2 := Z.lxor c2 (Z.shiftr c2 6)).
  set (e1 := (d1 * (1 - 2 ^ 11) + -1) mod 2 ^ 32).
  set (e2 := (d2 * (1 - 2 ^ 11) + -1) mod 2 ^ 32).
  assert (∀ z, 0 ≤ z mod 2 ^ 32 < 2 ^ 32) as Hmod
    by (intros z; apply Z.mod_pos_bound; lia).
  pose proof (Hmod (k1 * (1 - 2 ^ 15) + -1)) as Ha1. fold a1 in Ha1.
  pose proof (Hmod (k2 * (1 - 2 ^ 15) + -1)) as Ha2. fold a2 in Ha2.
  pose proof (lxor_shiftr_range a1 10 ltac:(lia) Ha1) as Hb1. fold b1 in Hb1.
  pose proof (lxor_shiftr_range a2 10 ltac:(lia) Ha2) as Hb2. fold b2 in Hb2.
  pose proof (Hmod (b1 * (1 + 2 ^ 3) + 0)) as Hc1. fold c1 in Hc1.
  pose proof (Hmod (b2 * (1 + 2 ^ 3) + 0)) as Hc2. fold c2 in Hc2.
  pose proof (lxor_shiftr_range c1 6 ltac:(lia) Hc1) as Hd1. fold d1 in Hd1.
  pose proof (lxor_shiftr_range c2 6 ltac:(lia) Hc2) as Hd2. fold d2 in Hd2.
  pose proof (Hmod (d1 * (1 - 2 ^ 11) + -1)) as He1. fold e1 in He1.
  pose proof (Hmod (d2 * (1 - 2 ^ 11) + -1)) as He2. fold e2 in He2.
  split; [by apply lxor_shiftr_range|].
  intros Hf.
  apply lxor_shiftr_inj in Hf; [|lia|done..].
  apply (affine_mod_inj _ 4196353) in Hf; [|done].
  rewrite !Z.mod_small in Hf by done.
  apply lxor_shiftr_inj in Hf; [|lia|done..].
  apply (affine_mod_inj _ 954437177) in Hf; [|done].
  rewrite !Z.mod_small in Hf by done.
  apply lxor_shiftr_inj in Hf; [|lia|done..].
  apply (affine_mod_inj _ 1073774593) in Hf; [|done].
  by rewrite !Z.mod_small in Hf by done.
Qed.

End HashFunctions.

(** ** The properties on concrete runs *)

(** The tables of [Run] are what the runs leave, and they are well formed. *)
Lemma five_adds_run :
  Run.exec true Run.create Run.five_adds = Some Run.rehashing_table.
Proof. vm_compute. reflexivity. Qed.

Lemma grow_then_delete_run :
  Run.exec true Run.create Run.grow_then_delete = Some Run.sparse_table.
Proof. vm_compute. reflexivity. Qed.

Lemma five_adds_gate_closed_run :
  Run.exec false Run.create Run.five_adds = Some Run.crowded_table.
Proof. vm_compute. reflexivity. Qed.

Lemma iterating_table_run :
  ∃ its, Run.events (Run.rehashing_table, []) [EvCreate true; EvNext 0]
         = Some (Run.iterating_table, its).
Proof. eexists. vm_compute. reflexivity. Qed.

Lemma rehashing_table_wf : Run.wf Run.rehashing_table.
Proof. apply dict_wfb_sound. vm_compute. reflexivity. Qed.

Lemma iterating_table_wf : Run.wf Run.iterating_table.
Proof. apply dict_wfb_sound. vm_compute. reflexivity. Qed.

Lemma sparse_table_wf : Run.wf Run.sparse_table.
Proof. apply dict_wfb_sound. vm_compute. reflexivity. Qed.

Lemma id_compare_refl : @compare_refl Z idDictType.
Proof. intros k. apply Z.eqb_refl. Qed.

Lemma id_compare_hash : @compare_hash Z idDictType.
Proof. intros k1 k2 Hk. apply Z.eqb_eq in Hk. by subst. Qed.

Lemma rehashing_table_unique : @keys_unique Z Z idDictType Run.rehashing_table.
Proof.
  apply keys_unique_NoDup.
  - intros k1 k2 Hk. by apply Z.eqb_eq in Hk.
  - apply (bool_decide_unpack _). vm_compute. exact I.
Qed.

(** *** C1 *)

(** C1 fails as stated: [dictEmpty] takes a rehashing table whose primary
    array still holds four entries straight back to the stable state. *)
Lemma dictEmpty_leaves_rehashing :
  dictIsRehashing Run.rehashing_table = true ∧
  used (ht0 Run.rehashing_table) = 4 ∧
  ∃ d', dictEmpty Run.rehashing_table = Some d' ∧
        dictIsRehashing d' = false ∧ rehashidx d' = -1.
Proof. split; [done|]. split; [done|]. eexists. by vm_compute. Qed.

Lemma dictRehash_step_spec_witness :
  Run.wf Run.rehashing_table ∧ dictIsRehashing Run.rehashing_table = true ∧
  ∃ (j : Z) de d',
    Run.rehash Run.rehashing_table 1 = Some (d', 1) ∧
    table_get (ht0 Run.rehashing_table) j = Some de ∧
    table_get (ht0 d') j = Some [] ∧ rehashidx d' = j + 1 ∧
    used (ht0 d') = used (ht0 Run.rehashing_table) - Z.of_nat (length de) ∧
    used (ht1 d') = used (ht1 Run.rehashing_table) + Z.of_nat (length de).
Proof.
  split; [apply dict_wfb_sound; vm_compute; reflexivity|]. split; [reflexivity|].
  destruct (dictRehash_step_spec (dictType0 := idDictType) Run.rehashing_table) as (Hdrain & _).
  { apply dict_wfb_sound. vm_compute. reflexivity. }
  { reflexivity. }
  destruct Hdrain as (j & de & d' & Hrun & _ & _ & Hde & _ & Hemp & _ & _ & Hu0
                      & Hu1 & Hidx & _).
  { simpl. lia. }
  exists j, de, d'. tauto.
Defined.

(** *** C2 *)

Lemma add_find_delete_find_witness :
  Run.wf Run.rehashing_table ∧
  (∃ d1 d2 e,
     Run.add true Run.rehashing_table 6 60 = Some (d1, DICT_OK) ∧
     Run.find d1 6 = Some (d2, Some e) ∧ dictGetVal e = Some 60) ∧
  (∃ d1 d2 : Run.dict,
     Run.delete Run.rehashing_table 5 false = Some (d1, DICT_OK) ∧
     Run.find d1 5 = Some (d2, None)) ∧
  (∃ (d1 d2 : Run.dict) e (d3 d4 : Run.dict),
     Run.add true Run.rehashing_table 6 60 = Some (d1, DICT_OK) ∧
     Run.find d1 6 = Some (d2, Some e) ∧ dictGetVal e = Some 60 ∧
     Run.delete d2 6 true = Some (d3, DICT_OK) ∧
     Run.find d3 6 = Some (d4, None)).
Proof.
  split; [apply dict_wfb_sound; vm_compute; reflexivity|].
  destruct (add_find_delete_find (dictType0 := idDictType) true Run.rehashing_table 6 60)
    as (Hadd & _ & Htrip).
  { apply dict_wfb_sound. vm_compute. reflexivity. }
  { simpl. lia. }
  { intros k. apply Z.eqb_refl. }
  { intros k1 k2 Hk. apply Z.eqb_eq in Hk. by subst. }
  destruct (add_find_delete_find (dictType0 := idDictType) true Run.rehashing_table 5 50)
    as (_ & Hdel & _).
  { apply dict_wfb_sound. vm_compute. reflexivity. }
  { simpl. lia. }
  { intros k. apply Z.eqb_refl. }
  { intros k1 k2 Hk. apply Z.eqb_eq in Hk. by subst. }
  split; [|split].
  - eexists. edestruct Hadd as (d2 & e & Hfind & Hval).
    { vm_compute. reflexivity. }
    exists d2, e. split; [reflexivity|]. split; [exact Hfind|exact Hval].
  - destruct (Hdel rehashing_table_unique false) as [_ Hpresent].
    apply Hpresent. vm_compute. discriminate.
  - apply (Htrip eq_refl true).
Defined.

(** *** C3 *)

Lemma cursor_inv_preserved_witness :
  cursor_inv Run.rehashing_table ∧
  ∃ d' r, Run.find Run.rehashing_table 1 = Some (d', r) ∧
          rehashidx d' = 1 ∧ cursor_inv d'.
Proof.
  split; [apply cursor_invb_sound; vm_compute; reflexivity|].
  destruct (cursor_inv_preserved (dictType0 := idDictType) true Run.rehashing_table)
    as (_ & _ & Hfind & _).
  { apply cursor_invb_sound. vm_compute. reflexivity. }
  eexists _, _. split; [vm_compute; reflexivity|]. split; [reflexivity|].
  eapply (Hfind 1). vm_compute. reflexivity.
Defined.

(** *** C4 *)

(** C4 fails as stated: after five insertions, the completed rehash into 8
    slots and four deletions, resize-to-fit begins a rehash into an
    incoming array of 4 slots, smaller than the primary array. *)
Lemma dictResize_shrinks :
  Run.exec true Run.create Run.grow_then_delete = Some Run.sparse_table ∧
  dictIsRehashing Run.sparse_table = false ∧ size (ht0 Run.sparse_table) = 8 ∧
  ∃ d', Run.resize true Run.sparse_table = Some (d', DICT_OK) ∧
        dictIsRehashing d' = true ∧ size (ht0 d') = 8 ∧ size (ht1 d') = 4.
Proof.
  split; [vm_compute; reflexivity|]. split; [done|]. split; [done|].
  eexists. by vm_compute.
Qed.

Lemma rehash_entry_size_witness :
  dictIsRehashing Run.sparse_table = false ∧
  ∃ d', Run.resize true Run.sparse_table = Some (d', DICT_OK) ∧
        ht0 d' = ht0 Run.sparse_table ∧
        used (ht0 Run.sparse_table) ≤ size (ht1 d').
Proof.
  split; [reflexivity|].
  destruct (rehash_entry_size true Run.sparse_table) as (_ & Hresize & _);
    [reflexivity|simpl; lia|simpl; lia|].
  edestruct Hresize as (Hkept & _ & Hfits); [vm_compute; reflexivity|reflexivity|].
  eexists. split; [vm_compute; reflexivity|].
  split; [exact Hkept|exact Hfits].
Defined.

(** *** C5 *)

(** C5 fails as stated: the delete of a key from a fresh table, whose
    primary array has size 0, and the delete of an absent key from a table
    that holds other keys return the same value. *)
Lemma dictDelete_same_error :
  ∃ d', Run.delete Run.create 7 false = Some (Run.create, DICT_ERR) ∧
        Run.delete Run.sparse_table 7 false = Some (d', DICT_ERR) ∧
        size (ht0 Run.create) = 0 ∧ size (ht0 Run.sparse_table) = 8.
Proof. eexists. by vm_compute. Qed.

Lemma dictGenericDelete_errors_witness :
  Run.delete Run.create 7 false = Some (Run.create, DICT_ERR) ∧
  ∃ d', Run.delete Run.sparse_table 7 false = Some (d', DICT_ERR).
Proof.
  destruct (dictGenericDelete_errors (dictType0 := idDictType) Run.create 7 false)
    as (Hempty & _).
  destruct (dictGenericDelete_errors (dictType0 := idDictType) Run.sparse_table 7 false)
    as (_ & Habsent).
  split; [apply Hempty; reflexivity|].
  destruct Habsent as (d' & _ & Hrun).
  { apply dict_wfb_sound. vm_compute. reflexivity. }
  { intros k1 k2 Hk. apply Z.eqb_eq in Hk. by subst. }
  { simpl. lia. }
  { reflexivity. }
  by exists d'.
Defined.

(** *** C6 *)

(** C6 fails as stated: with the gate closed five entries accumulate in a
    table of 4 slots; once the gate is open the grow trigger begins
    rehashing into 16 slots, not 8. *)
Lemma _dictExpandIfNeeded_more_than_double :
  Run.exec false Run.create Run.five_adds = Some Run.crowded_table ∧
  dictIsRehashing Run.crowded_table = false ∧
  size (ht0 Run.crowded_table) = 4 ∧ used (ht0 Run.crowded_table) = 5 ∧
  ∃ d', Run.expandIfNeeded true Run.crowded_table = Some (d', DICT_OK) ∧
        dictIsRehashing d' = true ∧ size (ht1 d') = 16.
Proof.
  split; [vm_compute; reflexivity|]. split; [done|]. split; [done|].
  split; [done|]. eexists. by vm_compute.
Qed.

Lemma _dictExpandIfNeeded_spec_witness :
  dictIsRehashing Run.crowded_table = false ∧
  0 ≤ used (ht0 Run.crowded_table) < 2 ^ 62 ∧
  ∃ r, next_power_of (2 * used (ht0 Run.crowded_table)) r ∧
       Run.expandIfNeeded true Run.crowded_table =
         Some (set_rehashidx (set_ht1 Run.crowded_table (fresh_ht r)) 0, DICT_OK).
Proof.
  split; [reflexivity|]. split; [simpl; lia|].
  destruct (_dictExpandIfNeeded_spec true Run.crowded_table)
    as (_ & H & _); [reflexivity|simpl; lia|].
  destruct H as (r & Hr & Heq & _);
    [by eexists|simpl; lia|simpl; lia|by left|].
  exists r. split; [exact Hr|exact Heq].
Defined.

(** *** C7 *)

(** C7.  The code fails the claim on a table it can be given.  At a
    request of 2^32 slots [dictExpand] gives a fresh table a primary array
    of 2^32 slots.  The table is empty, and [dictFind] finds no entry for
    key 4294967295, which the identity hash sends to the last slot.  Yet
    [dictAddRaw] returns [NULL], as it does for a key that exists, and
    [dictAdd] fails, whatever the gate: the slot index 2^32 - 1 comes back
    from [_dictKeyIndex] as the [int] -1. *)
Theorem dictAddRaw_refuses_absent_key :
  Run.expand Run.create (2 ^ 32) = Some (Run.huge_table, DICT_OK) ∧
  dict_entries Run.huge_table = [] ∧
  Run.find Run.huge_table 4294967295 = Some (Run.huge_table, None) ∧
  Run.addRaw true Run.huge_table 4294967295 = Some (Run.huge_table, None) ∧
  Run.addRaw false Run.huge_table 4294967295 = Some (Run.huge_table, None) ∧
  Run.add true Run.huge_table 4294967295 0 = Some (Run.huge_table, DICT_ERR).
Proof.
  pose proof (dictAddRaw_last_slot (dictType0 := idDictType) true (2 ^ 32)
                4294967295 0 eq_refl eq_refl) as Hopen.
  pose proof (dictAddRaw_last_slot (dictType0 := idDictType) false (2 ^ 32)
                4294967295 0 eq_refl eq_refl) as Hclosed.
  cbv zeta in Hopen, Hclosed.
  destruct Hopen as (Hexpand & Hempty & Hfind & _ & Hraw & Hadd).
  destruct Hclosed as (_ & _ & _ & _ & Hraw' & _).
  split; [exact Hexpand|]. split; [exact Hempty|]. split; [exact Hfind|].
  split; [exact Hraw|]. split; [exact Hraw'|exact Hadd].
Qed.

(** *** C8 *)

Lemma no_move_while_iterating_witness :
  iterators Run.iterating_table = 1 ∧
  ∃ ds, Run.trace true Run.iterating_table [OpAdd 6 60; OpFind 1; OpDelete 2]
          = Some ds ∧
        length ds = 3%nat ∧
        Forall (λ d', iterators d' = iterators Run.iterating_table ∧
                      amortized_step (dictType0 := idDictType) d' = Some d') ds.
Proof.
  split; [reflexivity|].
  eexists. split; [vm_compute; reflexivity|]. split; [reflexivity|].
  eapply proj1, (no_move_while_iterating (dictType0 := idDictType) true
                   Run.iterating_table [OpAdd 6 60; OpFind 1; OpDelete 2]).
  - simpl. lia.
  - vm_compute. reflexivity.
Defined.

(** Without a live safe iterator the same lookup does move entries. *)
Lemma find_moves_without_iterator :
  ∃ d' r, Run.find Run.rehashing_table 1 = Some (d', r) ∧
          moved Run.rehashing_table d'.
Proof.
  eexists _, _. split; [vm_compute; reflexivity|].
  exists (Run.entry 4 (Some 40)). left. simpl.
  unfold ht_entries. simpl. repeat split.
  - apply list_elem_of_here.
  - intros Hin. repeat (apply elem_of_cons in Hin as [Hin|Hin]; [discriminate Hin|]).
    by apply elem_of_nil in Hin.
  - intros Hin. repeat (apply elem_of_cons in Hin as [Hin|Hin]; [discriminate Hin|]).
    by apply elem_of_nil in Hin.
  - apply list_elem_of_here.
Qed.

(** *** C9 *)

(** C9 fails as stated: on a fresh table, whose primary array is
    unallocated, resize-to-fit succeeds without beginning a rehash; the new
    array of 4 slots becomes the primary one. *)
Lemma dictResize_fresh_not_rehashing :
  ∃ d', Run.resize true Run.create = Some (d', DICT_OK) ∧
        dictIsRehashing d' = false ∧ size (ht0 d') = 4 ∧ table (ht1 d') = None.
Proof. eexists. split; [vm_compute; reflexivity|]. by vm_compute. Qed.

Lemma dictResize_spec_witness :
  0 ≤ used (ht0 Run.sparse_table) < 2 ^ 31 ∧
  ∃ r, next_power_of (Z.max (used (ht0 Run.sparse_table)) DICT_HT_INITIAL_SIZE) r ∧
       Run.resize true Run.sparse_table = Some (expanded Run.sparse_table r, DICT_OK).
Proof.
  split; [simpl; lia|].
  eapply dictResize_spec; [simpl; lia|reflexivity|reflexivity].
Defined.

(** *** C10 *)

(** Two safe iterators and one that is not, advanced and released in turn,
    leave the counter of the rehashing table where it was. *)
Lemma iterators_balanced_run :
  ∃ d' its',
    Run.events (Run.rehashing_table, [])
      [EvCreate true; EvNext 0; EvCreate false; EvNext 1; EvNext 0;
       EvCreate true; EvRelease 2; EvNext 1; EvRelease 0; EvRelease 1]
      = Some (d', its') ∧
    its' = [None; None; None] ∧ iterators d' = iterators Run.rehashing_table.
Proof. eexists _, _. split; [vm_compute; reflexivity|]. done. Qed.

(** ** Further properties on concrete runs *)

Lemma id_compare_sym : @compare_sym Z idDictType.
Proof. intros k1 k2 Hk. apply Z.eqb_eq in Hk. subst. apply Z.eqb_refl. Qed.

Lemma id_compare_trans : @compare_trans Z idDictType.
Proof.
  intros k1 k2 k3 H1 H2. apply Z.eqb_eq in H1, H2. subst. apply Z.eqb_refl.
Qed.

Lemma operations_keep_invariants_witness :
  ∃ d' : Run.dict, Run.exec_gated Run.create Run.gated_run = Some d' ∧ Run.wf d' ∧
        dictSize d' = Z.of_nat (length (dict_entries d')) ∧ dictSize d' = 5.
Proof.
  destruct (operations_keep_invariants (dictType0 := idDictType)
              Run.gated_run Run.create)
    as (d' & Hrun & Hwf & _ & Hsize & _).
  { exact id_compare_sym. }
  { exact id_compare_trans. }
  { exact id_compare_hash. }
  { apply dictCreate_wf. }
  { apply dictCreate_wf. }
  { apply adds_have_room_short; [apply dictCreate_wf|simpl; lia]. }
  exists d'. split; [exact Hrun|]. split; [exact Hwf|]. split; [exact Hsize|].
  vm_compute in Hrun. injection Hrun as <-. reflexivity.
Defined.

Lemma dictFind_result_witness :
  ∃ (d' : Run.dict) r, Run.find Run.rehashing_table 5 = Some (d', r) ∧
          dict_entries d' ≡ₚ dict_entries Run.rehashing_table.
Proof.
  destruct (dictFind_result (dictType0 := idDictType) Run.rehashing_table 5)
    as (d' & r & Hrun & _ & Hp & _).
  { exact rehashing_table_wf. }
  { exact id_compare_hash. }
  exists d', r. split; [exact Hrun|exact Hp].
Defined.

Lemma dictAdd_refused_unchanged_witness :
  ∃ d1 : Run.dict, Run.add true Run.rehashing_table 5 99 = Some (d1, DICT_ERR) ∧
        dict_entries d1 ≡ₚ dict_entries Run.rehashing_table.
Proof.
  destruct (dictAdd_refused_unchanged (dictType0 := idDictType) true
              Run.rehashing_table 5 99)
    as (d1 & Hrun & Hp & _).
  { exact rehashing_table_wf. }
  { simpl. lia. }
  { exact id_compare_hash. }
  { exact rehashing_table_unique. }
  { vm_compute. discriminate. }
  exists d1. split; [exact Hrun|exact Hp].
Defined.

Lemma dictAdd_other_keys_witness :
  ∃ d1 : Run.dict, Run.add true Run.rehashing_table 6 60 = Some (d1, DICT_OK) ∧
        used (ht0 d1) + used (ht1 d1) =
          used (ht0 Run.rehashing_table) + used (ht1 Run.rehashing_table) + 1.
Proof.
  edestruct (dictAdd_other_keys (dictType0 := idDictType) true
               Run.rehashing_table 6 60)
    as (_ & Hused & _).
  { exact rehashing_table_wf. }
  { simpl. lia. }
  { exact id_compare_hash. }
  { exact rehashing_table_unique. }
  { vm_compute. reflexivity. }
  eexists. split; [vm_compute; reflexivity|exact Hused].
Defined.

Lemma dictDelete_removes_one_witness :
  ∃ d1 : Run.dict, dictDelete (dictType0 := idDictType) Run.rehashing_table 5
          = Some (d1, DICT_OK) ∧
        used (ht0 d1) + used (ht1 d1) =
          used (ht0 Run.rehashing_table) + used (ht1 Run.rehashing_table) - 1.
Proof.
  edestruct (dictDelete_removes_one (dictType0 := idDictType)
               Run.rehashing_table 5)
    as (_ & Hok & _).
  { exact rehashing_table_wf. }
  { exact id_compare_hash. }
  { exact id_compare_sym. }
  { exact id_compare_trans. }
  { exact rehashing_table_unique. }
  { vm_compute. reflexivity. }
  destruct (Hok eq_refl) as (e & _ & _ & Hused).
  eexists. split; [vm_compute; reflexivity|exact Hused].
Defined.

Lemma dictReplace_spec_witness :
  ∃ (d1 : Run.dict) r (d2 : Run.dict) e, Run.replace true Run.rehashing_table 5 55 = Some (d1, r) ∧
               Run.find d1 5 = Some (d2, Some e) ∧ dictGetVal e = Some 55.
Proof.
  destruct (dictReplace_spec (dictType0 := idDictType) true
              Run.rehashing_table 5 55)
    as (d1 & r & Hrun & _ & _ & d2 & e & Hfind & Hval & _).
  { exact rehashing_table_wf. }
  { simpl. lia. }
  { exact id_compare_refl. }
  { exact id_compare_hash. }
  { exact rehashing_table_unique. }
  exists d1, r, d2, e. split; [exact Hrun|]. split; [exact Hfind|exact Hval].
Defined.

Lemma dictReplaceRaw_never_null_witness :
  ∃ (d1 : Run.dict) e, Run.replaceRaw true Run.rehashing_table 6 = Some (d1, Some e) ∧
          Run.wf d1.
Proof.
  destruct (dictReplaceRaw_never_null (dictType0 := idDictType) true
              Run.rehashing_table 6)
    as (d1 & e & Hrun & Hwf & _).
  { exact rehashing_table_wf. }
  { simpl. lia. }
  { exact id_compare_hash. }
  exists d1, e. split; [exact Hrun|exact Hwf].
Defined.

Lemma dictEmpty_resets_witness :
  dictEmpty Run.rehashing_table = Some Run.create ∧
  dictRelease Run.rehashing_table = Some ().
Proof.
  destruct (dictEmpty_resets (dictType0 := idDictType) Run.rehashing_table)
    as (Hempty & Hrelease & _).
  { exact rehashing_table_wf. }
  split; [exact Hempty|exact Hrelease].
Defined.

Lemma dictRehash_steps_witness :
  ∃ (d' : Run.dict) r, Run.rehash Run.rehashing_table 5 = Some (d', r) ∧ Run.wf d' ∧
          r = 0 ∧ dictIsRehashing d' = false.
Proof.
  destruct (dictRehash_steps (dictType0 := idDictType) Run.rehashing_table 5)
    as (d' & r & Hrun & Hwf & _ & _ & _ & Hdone).
  { exact rehashing_table_wf. }
  { reflexivity. }
  { lia. }
  exists d', r. split; [exact Hrun|]. split; [exact Hwf|].
  apply Hdone. simpl. lia.
Defined.

Lemma dictRehash_keeps_lookups_witness :
  ∃ (d' : Run.dict) r, Run.rehash Run.rehashing_table 2 = Some (d', r) ∧
          snd <$> Run.find d' 1 = snd <$> Run.find Run.rehashing_table 1.
Proof.
  eexists _, _. split; [vm_compute; reflexivity|].
  eapply (dictRehash_keeps_lookups (dictType0 := idDictType)
            Run.rehashing_table 2).
  - exact rehashing_table_wf.
  - exact id_compare_hash.
  - exact rehashing_table_unique.
  - vm_compute. reflexivity.
Defined.

Lemma dictRehashMilliseconds_spec_witness :
  ∃ (d' : Run.dict) (read rest : list Z),
    Run.rehashMilliseconds Run.rehashing_table 10 [0; 5] =
      Some (d', 100 * Z.of_nat (length read), rest) ∧
    Run.wf d'.
Proof.
  destruct (dictRehashMilliseconds_spec (dictType0 := idDictType)
              Run.rehashing_table 10 0 [5])
    as (d' & read & rest & Hrun & _ & Hwf & _).
  { exact rehashing_table_wf. }
  { simpl. lia. }
  exists d', read, rest. split; [exact Hrun|exact Hwf].
Defined.

Lemma dictExpand_contract_witness :
  ∃ r (d' : Run.dict), next_power_of 16 r ∧
          Run.expand Run.sparse_table 16 = Some (d', DICT_OK) ∧ Run.wf d'.
Proof.
  destruct (dictExpand_contract (dictType0 := idDictType) Run.sparse_table 16)
    as (_ & Hok).
  { exact sparse_table_wf. }
  { lia. }
  destruct Hok as (r & d' & Hr & Hrun & Hwf & _).
  { reflexivity. }
  { simpl. lia. }
  exists r, d'. split; [exact Hr|]. split; [exact Hrun|exact Hwf].
Defined.

Lemma dictAdd_load_factor_witness :
  ∃ d' : Run.dict, Run.add true Run.sparse_table 6 60 = Some (d', DICT_OK) ∧
        used (ht0 d') ≤ 6 * size (ht0 d').
Proof.
  eexists. split; [vm_compute; reflexivity|].
  eapply proj2, (dictAdd_load_factor (dictType0 := idDictType) true
                   Run.sparse_table 6 60).
  - exact sparse_table_wf.
  - simpl. lia.
  - vm_compute. reflexivity.
  - reflexivity.
Defined.

Lemma dictGenCaseHashFunction_case_witness :
  dictGenCaseHashFunction dict_hash_function_seed [Byte.x41; Byte.x62] 2 =
  dictGenCaseHashFunction dict_hash_function_seed [Byte.x61; Byte.x42] 2.
Proof.
  eapply proj1, dictGenCaseHashFunction_case.
  repeat constructor.
Defined.

Lemma dictIntHashFunction_inj_witness :
  0 ≤ dictIntHashFunction 1 < 2 ^ 32.
Proof. eapply proj1, (dictIntHashFunction_inj 1 2); lia. Defined.

Lemma dictSetHashFunctionSeed_get_witness :
  dictGetHashFunctionSeed (dictSetHashFunctionSeed 4000000000) = 4000000000.
Proof. eapply proj1, (dictSetHashFunctionSeed_get 4000000000). lia. Defined.

Lemma dictNext_all_entries_witness :
  ∃ (d' : Run.dict) iter',
    Run.next_all 6 Run.rehashing_table dictGetSafeIterator
      = Some (d', iter', dict_entries Run.rehashing_table) ∧
    dictReleaseIterator d' iter' = Some Run.rehashing_table.
Proof.
  destruct (dictNext_all_entries (dictType0 := idDictType)
              Run.rehashing_table true)
    as (d' & iter' & Hrun & _ & _ & _ & Hrelease).
  { exact rehashing_table_wf. }
  { unfold INT_MAX. simpl. lia. }
  exists d', iter'. split; [exact Hrun|exact Hrelease].
Defined.

Lemma dictGetRandomKey_member_witness :
  ∃ (d' : Run.dict) e rs', Run.randomKey Run.rehashing_table [1; 0] = Some (d', Some e, rs') ∧
              e ∈ dict_entries Run.rehashing_table.
Proof.
  eexists _, _, _. split; [vm_compute; reflexivity|].
  edestruct (dictGetRandomKey_member (dictType0 := idDictType)
               Run.rehashing_table [1; 0])
    as (_ & _ & _ & Hmem).
  { exact rehashing_table_wf. }
  { vm_compute. reflexivity. }
  apply Hmem. reflexivity.
Defined.

Lemma rehash_moves_forward_witness :
  ∃ d' : Run.dict, Run.op true Run.rehashing_table (OpFind 1) = Some d' ∧
        rehashidx Run.rehashing_table ≤ rehashidx d'.
Proof.
  eexists. split; [vm_compute; reflexivity|].
  eapply (rehash_moves_forward (dictType0 := idDictType) true
            Run.rehashing_table (OpFind 1)).
  - exact rehashing_table_wf.
  - simpl. lia.
  - reflexivity.
  - simpl. lia.
  - vm_compute. reflexivity.
Defined.

Lemma dictResize_then_rehash_witness :
  ∃ d1 d2 : Run.dict, Run.resize dictEnableResize Run.sparse_table = Some (d1, DICT_OK) ∧
           Run.rehash d1 2 = Some (d2, 0) ∧ Run.wf d2.
Proof.
  destruct (dictResize_then_rehash (dictType0 := idDictType) Run.sparse_table 2)
    as (d1 & d2 & Hresize & Hrehash & Hwf & _).
  { exact sparse_table_wf. }
  { reflexivity. }
  { simpl. eauto. }
  { simpl. lia. }
  exists d1, d2. split; [exact Hresize|]. split; [exact Hrehash|exact Hwf].
Defined.

Lemma exec_ops_sizes_witness :
  ∃ d' : Run.dict, Run.exec_gated Run.create Run.gated_run = Some d' ∧
                   sizes_pow2 d' ∧ size (ht0 d') = 4 ∧ size (ht1 d') = 16.
Proof.
  destruct (exec_ops_sizes (dictType0 := idDictType) Run.gated_run Run.create)
    as (d' & Hrun & Hsizes & _).
  { apply dictCreate_wf. }
  { split; by left. }
  { apply adds_have_room_short; [apply dictCreate_wf|simpl; lia]. }
  exists d'. split; [exact Hrun|]. split; [exact Hsizes|].
  vm_compute in Hrun. injection Hrun as <-. split; reflexivity.
Defined.

Lemma dictRehash_ignores_iterators_witness :
  amortized_step (dictType0 := idDictType) Run.iterating_table
    = Some Run.iterating_table ∧
  ∃ d' : Run.dict, Run.rehash Run.iterating_table 1 = Some (d', 1) ∧
                   used (ht0 d') < used (ht0 Run.iterating_table).
Proof.
  destruct (dictRehash_ignores_iterators (dictType0 := idDictType)
              Run.iterating_table)
    as (Hstep & d' & Hrun & Hless & _).
  { exact iterating_table_wf. }
  { reflexivity. }
  { simpl. lia. }
  { simpl. lia. }
  split; [exact Hstep|]. exists d'. split; [exact Hrun|exact Hless].
Defined.

Lemma dictAddRaw_spec_witness :
  Run.wf Run.rehashing_table ∧
  ∃ d3 c,
    Run.addRaw true Run.rehashing_table 6 = Some (d3, Some (1, 6)) ∧
    table_get (ht1 d3) 6 = Some (Run.entry 6 None :: c) ∧
    used (ht1 d3) = 3 ∧ used (ht0 d3) = 3.
Proof.
  split; [apply dict_wfb_sound; vm_compute; reflexivity|].
  destruct (dictAddRaw_spec (dictType0 := idDictType) true Run.rehashing_table 6)
    as (d1 & d2 & Hstep & Hexp & _ & _ & _ & Hnew).
  { apply dict_wfb_sound. vm_compute. reflexivity. }
  { simpl. lia. }
  { intros k1 k2 Hk. apply Z.eqb_eq in Hk. by subst. }
  destruct Hnew as (d3 & c & Hrun & _ & _ & _ & _ & _ & _); [reflexivity|].
  eexists _, _. split; [vm_compute; reflexivity|].
  split; [vm_compute; reflexivity|]. split; reflexivity.
Defined.
